(** * pow-crypto-server: proof-of-work challenge, wire codec and rate limiter

    A shallow embedding of the Go packages [internal/pow],
    [internal/protocol] and [internal/server] (the rate limiter), followed
    by the properties claimed about them.

    Conventions.
    - A Go [byte] is a [Byte.byte]; [[]byte] and [[32]byte] are [list byte]
      (the array length is a side condition where it matters).
    - A Go [string] is a [string] (a sequence of 8-bit characters);
      [[]byte(s)] is [list_byte_of_string s].
    - Go's [int], [int64], [uint64], [uint32], [uint16] are [Z]; conversions
      that wrap are written out with [mod].
    - [map[string][]time.Time] is a [gmap string (list Z)]. *)

From Stdlib Require Import ZArith List Strings.String Strings.Ascii Strings.Byte Lia Bool.
From stdpp Require Import gmap strings list fin_maps.

Import ListNotations.

(** ** Bytes *)

Module bytes.
Local Open Scope Z_scope.

(** [int(b)], [uint64(b)], ... for a byte [b]. *)
Definition Z_of_byte (b : byte) : Z := Z.of_N (Byte.to_N b).

(** [byte(z)]: keeps the low eight bits. *)
Definition byte_of_Z (z : Z) : byte :=
  match Byte.of_N (Z.to_N (z mod 256)) with
  | Some b => b
  | None => "000"%byte
  end.

(** The unsigned integer a byte string denotes, most significant byte
    first. *)
Definition be_value (bs : list byte) : Z :=
  fold_left (fun acc b => acc * 256 + Z_of_byte b) bs 0.

(** The [n] low bytes of [v], most significant first. *)
Fixpoint be_bytes (n : nat) (v : Z) : list byte :=
  match n with
  | O => []
  | S k => byte_of_Z (Z.shiftr v (8 * Z.of_nat k)) :: be_bytes k v
  end.

(** Go's [error] values are represented by their message; a function that
    returns [(T, error)] with exactly one of the two set returns a
    [result T]. *)
Inductive result (A : Type) : Type :=
| Ok (a : A)
| Err (e : string).

Arguments Ok {A} a.
Arguments Err {A} e.

End bytes.

Import bytes.

(** ** SHA-256 (Go's crypto/sha256, which lies outside the repository)

    [sha256.Sum256] written out after FIPS 180-4 on 32-bit words held in
    [Z]; the test vectors of the standard are checked further down. *)

Module sha256.
Local Open Scope Z_scope.

Definition wrap32 (x : Z) : Z := x mod 2 ^ 32.

Definition rotr (n x : Z) : Z :=
  Z.lor (Z.shiftr x n) (wrap32 (Z.shiftl x (32 - n))).

Definition ch (x y z : Z) : Z :=
  Z.lxor (Z.land x y) (Z.land (Z.lxor x (2 ^ 32 - 1)) z).

Definition maj (x y z : Z) : Z :=
  Z.lxor (Z.lxor (Z.land x y) (Z.land x z)) (Z.land y z).

Definition bsig0 (x : Z) : Z := Z.lxor (Z.lxor (rotr 2 x) (rotr 13 x)) (rotr 22 x).
Definition bsig1 (x : Z) : Z := Z.lxor (Z.lxor (rotr 6 x) (rotr 11 x)) (rotr 25 x).
Definition ssig0 (x : Z) : Z := Z.lxor (Z.lxor (rotr 7 x) (rotr 18 x)) (Z.shiftr x 3).
Definition ssig1 (x : Z) : Z := Z.lxor (Z.lxor (rotr 17 x) (rotr 19 x)) (Z.shiftr x 10).

(** The primes below [bound], in order. *)
Definition is_prime (n : nat) : bool :=
  forallb (fun d => negb (Nat.eqb (Nat.modulo n d) 0)) (seq 2 (n - 2)).

Definition primes_below (bound : nat) : list Z :=
  map Z.of_nat (List.filter is_prime (seq 2 (bound - 2))).

(** The integer cube root, found bit by bit from bit [bits - 1] down. *)
Fixpoint cube_root_bits (bits : nat) (x r : Z) : Z :=
  match bits with
  | O => r
  | S k =>
      let r' := r + 2 ^ Z.of_nat k in
      cube_root_bits k x (if r' * r' * r' <=? x then r' else r)
  end.

Definition cube_root (x : Z) : Z := cube_root_bits 40 x 0.

(** FIPS 180-4, section 4.2.2: the first 32 bits of the fractional parts of
    the cube roots of the first 64 primes. *)
Definition round_constants : list Z :=
  Eval vm_compute in
    map (fun p => wrap32 (cube_root (p * 2 ^ 96))) (primes_below 312).

(** FIPS 180-4, section 5.3.3: the first 32 bits of the fractional parts of
    the square roots of the first 8 primes. *)
Definition initial_state : list Z :=
  Eval vm_compute in
    map (fun p => wrap32 (Z.sqrt (p * 2 ^ 64))) (primes_below 20).

(** Padding: a one bit, zeros up to 56 modulo 64, the bit length on 8 bytes. *)
Definition pad (msg : list byte) : list byte :=
  let len := Z.of_nat (length msg) in
  let zeros := Z.to_nat ((55 - len) mod 64) in
  msg ++ "128"%byte :: repeat "000"%byte zeros ++ be_bytes 8 (8 * len).

Fixpoint words (n : nat) (bs : list byte) : list Z :=
  match n with
  | O => []
  | S k => be_value (firstn 4 bs) :: words k (skipn 4 bs)
  end.

(** The message schedule, one word per step. *)
Fixpoint schedule (steps : nat) (w : list Z) : list Z :=
  match steps with
  | O => w
  | S k =>
      let t := length w in
      let at_ (back : nat) := nth (t - back) w 0 in
      schedule k
        (w ++ [wrap32 (ssig1 (at_ 2%nat) + at_ 7%nat + ssig0 (at_ 15%nat) + at_ 16%nat)])
  end.

Definition step (s : list Z) (kw : Z * Z) : list Z :=
  match s with
  | [a; b; c; d; e; f; g; h] =>
      let t1 := h + bsig1 e + ch e f g + fst kw + snd kw in
      let t2 := bsig0 a + maj a b c in
      [wrap32 (t1 + t2); a; b; c; wrap32 (d + t1); e; f; g]
  | _ => s
  end.

Definition zip_with_add (xs ys : list Z) : list Z :=
  map (fun p => wrap32 (fst p + snd p)) (combine xs ys).

Definition block (s : list Z) (chunk : list byte) : list Z :=
  let w := schedule 48 (words 16 chunk) in
  zip_with_add s (fold_left step (combine round_constants w) s).

Fixpoint blocks (n : nat) (s : list Z) (bs : list byte) : list Z :=
  match n with
  | O => s
  | S k => blocks k (block s (firstn 64 bs)) (skipn 64 bs)
  end.

Definition Sum256 (data : list byte) : list byte :=
  let padded := pad data in
  flat_map (be_bytes 4) (blocks (Nat.div (length padded) 64) initial_state padded).

End sha256.

(** ** encoding/base64: [StdEncoding.EncodeToString] *)

Module base64.
Local Open Scope Z_scope.

Definition encodeStd : string :=
  "ABCDEFGHIJKLMNOPQRSTUVWXYZabcdefghijklmnopqrstuvwxyz0123456789+/".

Definition StdPadding : ascii := "="%char.

(** [enc.encode[i]] *)
Definition encode (i : Z) : ascii :=
  match String.get (Z.to_nat i) encodeStd with
  | Some ch => ch
  | None => "000"%char
  end.

Definition sextet (val shift : Z) : ascii :=
  encode (Z.land (Z.shiftr val shift) 0x3F).

(** Three source bytes give four characters; a tail of one or two bytes is
    completed with the padding character. *)
Fixpoint EncodeToString (src : list byte) : string :=
  match src with
  | [] => EmptyString
  | [s0] =>
      let val := Z.shiftl (Z_of_byte s0) 16 in
      String (sextet val 18) (String (sextet val 12)
        (String StdPadding (String StdPadding EmptyString)))
  | [s0; s1] =>
      let val := Z.lor (Z.shiftl (Z_of_byte s0) 16) (Z.shiftl (Z_of_byte s1) 8) in
      String (sextet val 18) (String (sextet val 12)
        (String (sextet val 6) (String StdPadding EmptyString)))
  | s0 :: s1 :: s2 :: rest =>
      let val := Z.lor (Z.lor (Z.shiftl (Z_of_byte s0) 16) (Z.shiftl (Z_of_byte s1) 8))
                       (Z_of_byte s2) in
      String (sextet val 18) (String (sextet val 12)
        (String (sextet val 6) (String (sextet val 0) (EncodeToString rest))))
  end.

End base64.

(** ** fmt: the part of [Sprintf] and [Errorf] the repository uses *)

Module fmt.
Local Open Scope Z_scope.

Inductive arg :=
| ArgString (s : string)
| ArgInt (z : Z).

(** [byte('0' + d)] *)
Definition digit (d : Z) : ascii := ascii_of_byte (byte_of_Z (48 + d)).

(** The digit loop of the integer formatter: [for u >= 10 { ... }], filling
    the buffer from its end. *)
Fixpoint fmt_loop (fuel : nat) (u : Z) (buf : string) : string :=
  match fuel with
  | O => buf
  | S k =>
      if 10 <=? u
      then let next := u / 10 in fmt_loop k next (String (digit (u - next * 10)) buf)
      else String (digit u) buf
  end.

(** The loop runs once per decimal digit, and a number has no more decimal
    digits than binary ones. *)
Definition FormatUint (u : Z) : string :=
  fmt_loop (S (Z.to_nat (Z.log2 u))) u EmptyString.

(** [%d] on a signed or unsigned integer. *)
Definition FormatInt (z : Z) : string :=
  if z <? 0 then String "-" (FormatUint (- z)) else FormatUint z.

Definition verb (v : ascii) (a : arg) : string :=
  match a with
  | ArgString s =>
      if (Ascii.eqb v "s" || Ascii.eqb v "v" || Ascii.eqb v "w")%bool then s
      else String "%" (String "!" (String v EmptyString))
  | ArgInt z =>
      if (Ascii.eqb v "d" || Ascii.eqb v "v")%bool then FormatInt z
      else String "%" (String "!" (String v EmptyString))
  end.

(** Ordinary characters are copied; [%] and the verb after it consume the
    next operand. The repository never passes too few operands nor a verb of
    the wrong kind; those cases only get a marker here. *)
Fixpoint Sprintf (format : string) (args : list arg) : string :=
  match format with
  | EmptyString => EmptyString
  | String c rest =>
      if Ascii.eqb c "%" then
        match rest with
        | EmptyString => "%!(NOVERB)"
        | String v rest' =>
            match args with
            | a :: args' => verb v a ++ Sprintf rest' args'
            | [] => String "%" (String "!" (String v ("(MISSING)" ++ Sprintf rest' [])))
            end
        end
      else String c (Sprintf rest args)
  end.

(** An [error] is represented by its message. *)
Definition Errorf (format : string) (args : list arg) : string := Sprintf format args.

End fmt.

(** ** Package pow (internal/pow/hashcash.go) *)

Module pow.
Local Open Scope Z_scope.

Record Challenge := {
  Data : list byte;      (* [32]byte *)
  Timestamp : Z;         (* int64 *)
  ClientIP : string;
  Difficulty : Z         (* int *)
}.

(** [^uint64(0)] *)
Definition MaxUint64 : Z := 2 ^ 64 - 1.

(** [func (c *Challenge) String() string] *)
Definition Challenge_String (c : Challenge) : string :=
  let encoded := base64.EncodeToString (Data c) in
  fmt.Sprintf "%s:%d:%s"
    [fmt.ArgString encoded; fmt.ArgInt (Timestamp c); fmt.ArgString (ClientIP c)].

(** The inner loop of [CountLeadingZeroBits]: [for i := 7; i >= 0; i--].
    [n] is the number of iterations left, so the loop variable is [n - 1].
    [inl count] is the [return count] of the else branch, [inr count] is the
    loop running to its end. *)
Fixpoint bit_loop (b : Z) (n : nat) (count : Z) : Z + Z :=
  match n with
  | O => inr count
  | S i =>
      if Z.land b (Z.shiftl 1 (Z.of_nat i)) =? 0
      then bit_loop b i (count + 1)
      else inl count
  end.

(** The outer loop [for _, b := range hash]. *)
Fixpoint byte_loop (hash : list byte) (count : Z) : Z :=
  match hash with
  | [] => count
  | b :: rest =>
      if Z_of_byte b =? 0 then byte_loop rest (count + 8)
      else match bit_loop (Z_of_byte b) 8 count with
           | inl r => r
           | inr count' => byte_loop rest count'
           end
  end.

Definition CountLeadingZeroBits (hash : list byte) : Z := byte_loop hash 0.

Section Digest.

(** [sha256.Sum256]. The functions below use it as a black box, so they are
    written over any digest function; [sha256.Sum256] is the one the
    program links. *)
Variable Sum256 : list byte -> list byte.

(** [func (c *Challenge) ComputeHash(nonce uint64) [32]byte] *)
Definition ComputeHash (c : Challenge) (nonce : Z) : list byte :=
  let data := fmt.Sprintf "%s:%d" [fmt.ArgString (Challenge_String c); fmt.ArgInt nonce] in
  Sum256 (list_byte_of_string data).

(** [func Verify(c *Challenge, nonce uint64, clientIP string) bool] *)
Definition Verify (c : Challenge) (nonce : Z) (clientIP : string) : bool :=
  if negb (String.eqb (ClientIP c) clientIP) then false
  else
    let hash := ComputeHash c nonce in
    let d := CountLeadingZeroBits hash in
    Difficulty c <=? d.

(** The loop of [Solve], [for nonce := range ^uint64(0)]: [iters] iterations
    are left and the loop variable is [nonce]. The result is Go's pair
    [(uint64, error)], the error being [None] for [nil]. *)
Fixpoint range_loop (c : Challenge) (iters : nat) (nonce : Z) : Z * option string :=
  match iters with
  | O => (0, Some (fmt.Errorf "no solution found" []))
  | S k =>
      let hash := ComputeHash c nonce in
      if Difficulty c <=? CountLeadingZeroBits hash then (nonce, None)
      else range_loop c k (nonce + 1)
  end.

(** [func Solve(c *Challenge) (uint64, error)]. A range over the integer [n]
    runs its body for 0, 1, ..., n - 1. *)
Definition Solve (c : Challenge) : Z * option string :=
  range_loop c (Z.to_nat MaxUint64) 0.

End Digest.

End pow.

(** ** encoding/binary: [BigEndian] *)

Module binary.
Local Open Scope Z_scope.

(** [uint64(b[i])] *)
Definition at_ (b : list byte) (i : nat) : Z := Z_of_byte (nth i b "000"%byte).

Definition Uint16 (b : list byte) : Z :=
  Z.lor (at_ b 1) (Z.shiftl (at_ b 0) 8).

Definition Uint32 (b : list byte) : Z :=
  Z.lor (Z.lor (Z.lor (at_ b 3) (Z.shiftl (at_ b 2) 8)) (Z.shiftl (at_ b 1) 16))
        (Z.shiftl (at_ b 0) 24).

Definition Uint64 (b : list byte) : Z :=
  Z.lor (Z.lor (Z.lor (Z.lor (Z.lor (Z.lor (Z.lor
    (at_ b 7) (Z.shiftl (at_ b 6) 8)) (Z.shiftl (at_ b 5) 16)) (Z.shiftl (at_ b 4) 24))
    (Z.shiftl (at_ b 3) 32)) (Z.shiftl (at_ b 2) 40)) (Z.shiftl (at_ b 1) 48))
    (Z.shiftl (at_ b 0) 56).

(** [b[0] = byte(v >> 8); b[1] = byte(v)] *)
Definition PutUint16 (b : list byte) (v : Z) : list byte :=
  <[1%nat := byte_of_Z v]> (<[0%nat := byte_of_Z (Z.shiftr v 8)]> b).

Definition PutUint64 (b : list byte) (v : Z) : list byte :=
  <[7%nat := byte_of_Z v]>
  (<[6%nat := byte_of_Z (Z.shiftr v 8)]>
  (<[5%nat := byte_of_Z (Z.shiftr v 16)]>
  (<[4%nat := byte_of_Z (Z.shiftr v 24)]>
  (<[3%nat := byte_of_Z (Z.shiftr v 32)]>
  (<[2%nat := byte_of_Z (Z.shiftr v 40)]>
  (<[1%nat := byte_of_Z (Z.shiftr v 48)]>
  (<[0%nat := byte_of_Z (Z.shiftr v 56)]> b))))))).

End binary.

(** ** Slices *)

Module slice.

(** [make([]byte, n)] *)
Definition make (n : nat) : list byte := repeat "000"%byte n.

(** [copy(dst, src)]: the first [min(len(dst), len(src))] bytes of [dst] are
    overwritten. *)
Definition copy (dst src : list byte) : list byte :=
  let n := Nat.min (length dst) (length src) in
  firstn n src ++ skipn n dst.

(** [buf[lo:hi]] *)
Definition sub (lo hi : nat) (buf : list byte) : list byte :=
  firstn (hi - lo) (skipn lo buf).

(** A write through the slice [buf[lo:hi]] as seen in [buf]: [f] is the
    effect on the sub-slice. *)
Definition through (lo hi : nat) (f : list byte -> list byte) (buf : list byte) : list byte :=
  firstn lo buf ++ f (sub lo hi buf) ++ skipn hi buf.

End slice.

(** ** io: a reader over a finite byte stream, with the buffers the code asks for *)

Module io.

(** [stream] is what the reader will still deliver before it reports the end
    of its input; [made] records the size of every buffer obtained with
    [make], oldest first. *)
Record world := { stream : list byte; made : list nat }.

(** A computation reads and allocates, and ends in a value or an error. *)
Definition M (A : Type) : Type := world -> result A * world.

Definition ret {A} (a : A) : M A := fun w => (Ok a, w).

Definition fail {A} (e : string) : M A := fun w => (Err e, w).

Definition bind {A B} (m : M A) (k : A -> M B) : M B :=
  fun w =>
    match m w with
    | (Ok a, w') => k a w'
    | (Err e, w') => (Err e, w')
    end.

(** [if err != nil { return nil, fmt.Errorf(format, err) }] *)
Definition wrap {A} (format : string) (m : M A) : M A :=
  fun w =>
    match m w with
    | (Ok a, w') => (Ok a, w')
    | (Err e, w') => (Err (fmt.Errorf format [fmt.ArgString e]), w')
    end.

Definition EOF : string := "EOF".
Definition ErrUnexpectedEOF : string := "unexpected EOF".

(** [io.ReadFull(r, buf)] with [len(buf) = n]: exactly [n] bytes, or [EOF]
    when none is left, or [ErrUnexpectedEOF] when the input ends early. *)
Definition ReadFull (n : nat) : M (list byte) :=
  fun w =>
    if Nat.eqb n 0 then (Ok [], w)
    else if Nat.leb n (length (stream w)) then
      (Ok (firstn n (stream w)), {| stream := skipn n (stream w); made := made w |})
    else
      match stream w with
      | [] => (Err EOF, w)
      | _ :: _ => (Err ErrUnexpectedEOF, {| stream := []; made := made w |})
      end.

(** [make([]byte, n)], recorded. *)
Definition make (n : nat) : M (list byte) :=
  fun w => (Ok (slice.make n), {| stream := stream w; made := made w ++ [n] |}).

End io.

Notation "x <- c1 ;; c2" := (io.bind c1 (fun x => c2))
  (at level 100, c1 at next level, right associativity).

(** ** Package protocol (types and codec.go) *)

Module protocol.
Local Open Scope Z_scope.

Definition MessageType := byte.

Definition MessageTypeChallengeRequest : MessageType := "001"%byte.
Definition MessageTypeChallengeResponse : MessageType := "002"%byte.
Definition MessageTypeSolution : MessageType := "003"%byte.
Definition MessageTypeQuote : MessageType := "004"%byte.
Definition MessageTypeError : MessageType := "005"%byte.

Record Message := { Type_ : MessageType; Payload : list byte }.

Record ChallengeResponse := {
  Difficulty : Z;          (* int *)
  Timestamp : Z;           (* int64 *)
  RandomData : list byte;  (* [32]byte *)
  ClientIP : string
}.

Record Solution := { Nonce : Z (* uint64 *) }.

Record Quote := { Text : string }.

Record Error := { Code : Z (* uint16 *); Message_ : string }.

Definition ErrorCodeInvalidMessage : Z := 1.
Definition ErrorCodeInvalidSolution : Z := 2.
Definition ErrorCodeRateLimitExceeded : Z := 3.
Definition ErrorCodeTimeout : Z := 4.
Definition ErrorCodeInternalError : Z := 5.

(** [uint64(x)] of an [int64] and [int64(x)] of a [uint64]. *)
Definition uint64_of_int64 (x : Z) : Z := x mod 2 ^ 64.
Definition int64_of_uint64 (x : Z) : Z := if x <? 2 ^ 63 then x else x - 2 ^ 64.

(** The length of a slice as a Go [int]. *)
Definition len {A} (l : list A) : Z := Z.of_nat (length l).

Definition EncodeChallengeResponse (cr : ChallengeResponse) : result (list byte) :=
  let clientIPBytes := list_byte_of_string (ClientIP cr) in
  let buf := slice.make (41 + length clientIPBytes) in
  let buf := <[0%nat := byte_of_Z (Difficulty cr)]> buf in
  let buf := slice.through 1 9
               (fun b => binary.PutUint64 b (uint64_of_int64 (Timestamp cr))) buf in
  let buf := slice.through 9 41 (fun dst => slice.copy dst (RandomData cr)) buf in
  let buf := slice.through 41 (length buf) (fun dst => slice.copy dst clientIPBytes) buf in
  Ok buf.

Definition DecodeChallengeResponse (payload : list byte) : result ChallengeResponse :=
  if len payload <? 41 then
    Err (fmt.Errorf "invalid payload length: expected at least 41, got %d"
           [fmt.ArgInt (len payload)])
  else
    Ok {| Difficulty := Z_of_byte (nth 0 payload "000"%byte);
          Timestamp := int64_of_uint64 (binary.Uint64 (slice.sub 1 9 payload));
          RandomData := slice.copy (slice.make 32) (slice.sub 9 41 payload);
          ClientIP := if 41 <? len payload
                      then string_of_list_byte (skipn 41 payload)
                      else EmptyString |}.

Definition EncodeSolution (sol : Solution) : result (list byte) :=
  let buf := slice.make 8 in
  let buf := binary.PutUint64 buf (Nonce sol) in
  Ok buf.

Definition DecodeSolution (payload : list byte) : result Solution :=
  if negb (len payload =? 8) then
    Err (fmt.Errorf "invalid payload length: expected 8, got %d" [fmt.ArgInt (len payload)])
  else
    let nonce := binary.Uint64 payload in
    Ok {| Nonce := nonce |}.

Definition EncodeQuote (q : Quote) : result (list byte) :=
  Ok (list_byte_of_string (Text q)).

Definition DecodeQuote (payload : list byte) : result Quote :=
  Ok {| Text := string_of_list_byte payload |}.

Definition EncodeError (e : Error) : result (list byte) :=
  let buf := slice.make (2 + String.length (Message_ e)) in
  let buf := slice.through 0 2 (fun b => binary.PutUint16 b (Code e)) buf in
  let buf := slice.through 2 (length buf)
               (fun dst => slice.copy dst (list_byte_of_string (Message_ e))) buf in
  Ok buf.

Definition DecodeError (payload : list byte) : result Error :=
  if len payload <? 2 then
    Err (fmt.Errorf "invalid payload length: expected at least 2, got %d"
           [fmt.ArgInt (len payload)])
  else
    Ok {| Code := binary.Uint16 (slice.sub 0 2 payload);
          Message_ := if 2 <? len payload
                      then string_of_list_byte (skipn 2 payload)
                      else EmptyString |}.

(** [binary.Read(r, binary.BigEndian, &x)] for an [x] of [size] bytes reads
    exactly that many bytes; the caller decodes them. *)
Definition binary_Read (size : nat) : io.M (list byte) := io.ReadFull size.

Definition ReadMessage : io.M Message :=
  ty <- io.wrap "failed to read message type: %w" (binary_Read 1) ;;
  lenBytes <- io.wrap "failed to read payload length: %w" (binary_Read 4) ;;
  let payloadLen := binary.Uint32 lenBytes in
  if 1024 * 1024 <? payloadLen then
    io.fail (fmt.Errorf "payload too large: %d bytes" [fmt.ArgInt payloadLen])
  else if 0 <? payloadLen then
    buf <- io.make (Z.to_nat payloadLen) ;;
    payload <- io.wrap "failed to read payload: %w" (io.ReadFull (length buf)) ;;
    io.ret {| Type_ := nth 0 ty "000"%byte; Payload := payload |}
  else
    io.ret {| Type_ := nth 0 ty "000"%byte; Payload := [] |}.

End protocol.

(** ** Package server: the rate limiter *)

Module time.
Local Open Scope Z_scope.

(** A [time.Time] taken with [time.Now()] is its reading of the monotonic
    clock, in nanoseconds; a [time.Duration] is an [int64] of nanoseconds. *)
Definition minDuration : Z := - 2 ^ 63.
Definition maxDuration : Z := 2 ^ 63 - 1.

(** [t.Sub(u)]: the difference, or the largest (smallest) duration when it
    does not fit. *)
Definition Sub (t u : Z) : Z :=
  let d := t - u in
  if maxDuration <? d then maxDuration
  else if d <? minDuration then minDuration
  else d.

End time.

Module server.
Local Open Scope Z_scope.

Record RateLimiter := {
  requests : gmap string (list Z);   (* IP -> timestamps of requests *)
  maxRequests : Z;                   (* int *)
  window : Z                         (* time.Duration *)
}.

(** The map of a fresh limiter is empty. The cleanup interval only decides
    when [cleanup] runs, which the traces below leave open. *)
Definition NewRateLimiter (maxRequests window cleanupInterval : Z) : RateLimiter :=
  {| requests := ∅; maxRequests := maxRequests; window := window |}.

(** The loop shared by [Allow] and [cleanup]:
    [for _, t := range timestamps { if now.Sub(t) <= rl.window { valid = append(valid, t) } }] *)
Fixpoint valid_loop (now window : Z) (timestamps valid : list Z) : list Z :=
  match timestamps with
  | [] => valid
  | t :: rest =>
      valid_loop now window rest
        (if time.Sub now t <=? window then valid ++ [t] else valid)
  end.

(** [rl.requests[ip]]: a missing key reads as the nil slice. *)
Definition timestamps_of (m : gmap string (list Z)) (ip : string) : list Z :=
  match m !! ip with
  | Some ts => ts
  | None => []
  end.

(** [func (rl *RateLimiter) Allow(ip string) bool], with the value of
    [time.Now()] it reads under the lock given as [now]; the result is the
    boolean and the limiter afterwards. *)
Definition Allow (now : Z) (ip : string) (rl : RateLimiter) : bool * RateLimiter :=
  let timestamps := timestamps_of (requests rl) ip in
  let valid := valid_loop now (window rl) timestamps [] in
  if maxRequests rl <=? Z.of_nat (length valid) then (false, rl)
  else
    let valid := valid ++ [now] in
    (true, {| requests := <[ip := valid]> (requests rl);
              maxRequests := maxRequests rl;
              window := window rl |}).

(** [func (rl *RateLimiter) cleanup()]: every key is visited once and is
    either deleted or rewritten. *)
Definition cleanup (now : Z) (rl : RateLimiter) : RateLimiter :=
  {| requests :=
       omap (fun timestamps =>
               let valid := valid_loop now (window rl) timestamps [] in
               if Nat.eqb (length valid) 0 then None else Some valid)
            (requests rl);
     maxRequests := maxRequests rl;
     window := window rl |}.

(** *** Histories

    Both methods hold the limiter's mutex from before they read the clock
    until they return, so an execution is a sequence of calls, each with the
    clock value it read. *)
Inductive call :=
| CallAllow (ip : string)
| CallCleanup.

Definition event : Type := Z * call.

(** One admission decision: when, for whom, and the answer. *)
Definition decision : Type := Z * string * bool.

Fixpoint run (rl : RateLimiter) (evs : list event) : list decision * RateLimiter :=
  match evs with
  | [] => ([], rl)
  | (now, CallAllow ip) :: rest =>
      let '(ok, rl') := Allow now ip rl in
      let '(log, rl'') := run rl' rest in
      ((now, ip, ok) :: log, rl'')
  | (now, CallCleanup) :: rest => run (cleanup now rl) rest
  end.

(** The clock values of a history, in order. *)
Definition clock (evs : list event) : list Z := map fst evs.

(** The times at which [ip] was admitted. *)
Fixpoint admissions (ip : string) (log : list decision) : list Z :=
  match log with
  | [] => []
  | (t, ip', ok) :: rest =>
      if (ok && String.eqb ip ip')%bool then t :: admissions ip rest
      else admissions ip rest
  end.

(** How many of the times [ts] lie in the closed interval from [lo] to [hi]. *)
Definition count_between (lo hi : Z) (ts : list Z) : nat :=
  length (filter (fun t => lo <= t <= hi) ts).

(** Non-decreasing clock values. *)
Fixpoint monotone (ts : list Z) : Prop :=
  match ts with
  | [] => True
  | t :: rest => Forall (fun u => t <= u) rest /\ monotone rest
  end.

End server.

(** ** Words of the specification *)

Module spec.
Local Open Scope Z_scope.

(** The number of leading all-zero bytes of a digest. *)
Fixpoint leading_zero_bytes (d : list byte) : nat :=
  match d with
  | [] => O
  | b :: rest => if Z_of_byte b =? 0 then S (leading_zero_bytes rest) else O
  end.

(** The first non-zero byte of a digest, if it has one. *)
Fixpoint first_nonzero (d : list byte) : option byte :=
  match d with
  | [] => None
  | b :: rest => if Z_of_byte b =? 0 then first_nonzero rest else Some b
  end.

(** The number of zero bits above the highest set bit of a non-zero byte. *)
Definition high_zero_bits (b : byte) : Z := 7 - Z.log2 (Z_of_byte b).

(** A 32-byte digest that begins with [prefix] and is zero after it. *)
Definition digest_from (prefix : list byte) : list byte :=
  prefix ++ repeat "000"%byte (32 - length prefix).

(** The position of a character in an alphabet, counted from [i]. *)
Fixpoint index_from (i : Z) (ch : ascii) (alphabet : string) : option Z :=
  match alphabet with
  | EmptyString => None
  | String a rest => if Ascii.eqb a ch then Some i else index_from (i + 1) ch rest
  end.

(** The six bits a character of the standard base64 alphabet stands for:
    A-Z are 0-25, a-z are 26-51, 0-9 are 52-61, + is 62 and / is 63. *)
Definition base64_value (ch : ascii) : option Z :=
  index_from 0 ch "ABCDEFGHIJKLMNOPQRSTUVWXYZabcdefghijklmnopqrstuvwxyz0123456789+/".

(** Reading standard base64 with padding (RFC 4648, section 4): four
    characters carry 24 bits; a last group ending in one or two [=] carries
    8 or 16 bits, and the bits of its last character that carry no data are
    zero (section 3.5), so that a byte string has one text only. *)
Fixpoint base64_decode (s : string) : option (list byte) :=
  match s with
  | EmptyString => Some []
  | String c0 (String c1 (String c2 (String c3 rest))) =>
      match base64_value c0, base64_value c1 with
      | Some i0, Some i1 =>
          let b0 := byte_of_Z (i0 * 4 + i1 / 16) in
          if (Ascii.eqb c2 "=" && Ascii.eqb c3 "=")%bool then
            match rest with
            | EmptyString => if i1 mod 16 =? 0 then Some [b0] else None
            | _ => None
            end
          else
            match base64_value c2 with
            | Some i2 =>
                let b1 := byte_of_Z (i1 mod 16 * 16 + i2 / 4) in
                if Ascii.eqb c3 "=" then
                  match rest with
                  | EmptyString => if i2 mod 4 =? 0 then Some [b0; b1] else None
                  | _ => None
                  end
                else
                  match base64_value c3, base64_decode rest with
                  | Some i3, Some bs => Some (b0 :: b1 :: byte_of_Z (i2 mod 4 * 64 + i3) :: bs)
                  | _, _ => None
                  end
            | None => None
            end
      | _, _ => None
      end
  | _ => None
  end.

(** The value of a character as a decimal digit. *)
Definition digit_value (ch : ascii) : Z := Z_of_byte (byte_of_ascii ch) - 48.

Definition is_digit (ch : ascii) : Prop := 0 <= digit_value ch <= 9.

(** The number a string of decimal digits denotes. *)
Fixpoint decimal_value_from (acc : Z) (s : string) : Z :=
  match s with
  | EmptyString => acc
  | String ch rest => decimal_value_from (acc * 10 + digit_value ch) rest
  end.

Definition decimal_value (s : string) : Z := decimal_value_from 0 s.

Fixpoint all_digits (s : string) : Prop :=
  match s with
  | EmptyString => True
  | String ch rest => is_digit ch /\ all_digits rest
  end.

(** [s] is the decimal rendering of the unsigned number [n]: digits only (no
    sign), no leading zero, and the value [n]. *)
Definition unsigned_decimal (n : Z) (s : string) : Prop :=
  all_digits s
  /\ decimal_value s = n
  /\ (s = "0"%string \/ exists ch rest, s = String ch rest /\ 1 <= digit_value ch).

(** [s] is the decimal rendering of the signed number [z]. *)
Definition signed_decimal (z : Z) (s : string) : Prop :=
  if z <? 0 then exists digits, s = String "-" digits /\ unsigned_decimal (- z) digits
  else unsigned_decimal z s.

(** The verification input of the specification:
    [base64_std(random256) || ":" || decimal(unixSeconds) || ":" || identity || ":" || decimal(nonce)] *)
Definition canonical_form (c : pow.Challenge) (nonce : Z) : string :=
  base64.EncodeToString (pow.Data c) ++ ":" ++ fmt.FormatInt (pow.Timestamp c) ++ ":"
  ++ pow.ClientIP c ++ ":" ++ fmt.FormatInt nonce.

(** Encoding a message and decoding what was encoded. *)
Definition round_trip {A} (encode : A -> result (list byte))
    (decode : list byte -> result A) (m : A) : result A :=
  match encode m with
  | Ok payload => decode payload
  | Err e => Err e
  end.

(** The ranges of the integer fields, from their Go types. *)
Definition is_int64 (x : Z) : Prop := - 2 ^ 63 <= x < 2 ^ 63.
Definition is_uint64 (x : Z) : Prop := 0 <= x < 2 ^ 64.
Definition is_uint32 (x : Z) : Prop := 0 <= x < 2 ^ 32.
Definition is_uint16 (x : Z) : Prop := 0 <= x < 2 ^ 16.

(** A recorded timestamp [t] lies within the last [window] before [now]. *)
Definition fresh (now window t : Z) : Prop := time.Sub now t <= window.

Global Instance fresh_dec now window t : Decision (fresh now window t).
Proof. unfold fresh. apply _. Defined.

(** How many of the times [ts] are at or after [lo]. *)
Definition count_from (lo : Z) (ts : list Z) : nat :=
  length (filter (fun t => lo <= t) ts).

(** Two limiters with the same configuration that agree, for every identity,
    on the timestamps still fresh at time [T]. *)
Definition same_fresh (T : Z) (rl1 rl2 : server.RateLimiter) : Prop :=
  server.maxRequests rl1 = server.maxRequests rl2
  /\ server.window rl1 = server.window rl2
  /\ forall ip,
       filter (fresh T (server.window rl1)) (server.timestamps_of (server.requests rl1) ip) =
       filter (fresh T (server.window rl1)) (server.timestamps_of (server.requests rl2) ip).

(** What the stored timestamps guarantee about the admissions [past] made so
    far, at a time [T] that no later call precedes: the stored list of an
    identity holds at least its admissions that can still be fresh, and no
    window holds more than [maxRequests] admissions. *)
Definition accounted (T : Z) (past : list server.decision) (rl : server.RateLimiter) : Prop :=
  (forall ip lo, T - server.window rl <= lo ->
     (count_from lo (server.admissions ip past)
      <= count_from lo (server.timestamps_of (server.requests rl) ip))%nat)
  /\ (forall ip lo,
        Z.of_nat (server.count_between lo (lo + server.window rl) (server.admissions ip past))
        <= server.maxRequests rl).

End spec.

(** ** Concrete inputs used as examples *)

Module examples.
Local Open Scope Z_scope.

(** A digest, byte by byte. *)
Definition hex_digest (h : list byte) : list Z := map Z_of_byte h.

(** A challenge as the server issues them. *)
Definition challenge : pow.Challenge :=
  {| pow.Data := map byte_of_Z (map Z.of_nat (seq 0 32));
     pow.Timestamp := 1700000000;
     pow.ClientIP := "127.0.0.1";
     pow.Difficulty := 8 |}.

(** A challenge response whose difficulty is the upper end of the range the
    specification gives, [0, 256]. *)
Definition response_256 : protocol.ChallengeResponse :=
  {| protocol.Difficulty := 256;
     protocol.Timestamp := 1700000000;
     protocol.RandomData := repeat "000"%byte 32;
     protocol.ClientIP := "127.0.0.1" |}.

(** The corner cases: largest difficulty a byte holds, empty identity,
    all-zero random bytes, zero nonce, empty texts. *)
Definition response_corner : protocol.ChallengeResponse :=
  {| protocol.Difficulty := 255;
     protocol.Timestamp := -1;
     protocol.RandomData := repeat "000"%byte 32;
     protocol.ClientIP := "" |}.

Definition solution_zero : protocol.Solution := {| protocol.Nonce := 0 |}.

Definition quote_empty : protocol.Quote := {| protocol.Text := "" |}.

Definition error_empty : protocol.Error :=
  {| protocol.Code := protocol.ErrorCodeTimeout; protocol.Message_ := "" |}.

(** The limiter and the calls of the sliding-window test of the repository:
    three requests per two seconds; three calls at the start, one more right
    after, one after 1.1 s, a cleanup, and one after 2.1 s. *)
Definition second : Z := 1000000000.

Definition limiter : server.RateLimiter := server.NewRateLimiter 3 (2 * second) (60 * second).

Definition history : list server.event :=
  [ (0, server.CallAllow "192.168.1.1");
    (1, server.CallAllow "192.168.1.1");
    (2, server.CallAllow "192.168.1.1");
    (3, server.CallAllow "192.168.1.1");
    (1100000000, server.CallAllow "192.168.1.1");
    (1500000000, server.CallCleanup);
    (2100000000, server.CallAllow "192.168.1.1") ].

(** A limiter that is full for one identity at time 5. *)
Definition full_limiter : server.RateLimiter :=
  {| server.requests := {[ "192.168.1.1"%string := [1; 2; 3] ]};
     server.maxRequests := 3;
     server.window := 2 * second |}.

End examples.

(** ** The body of [ReadMessage] *)

Module frames.
Local Open Scope Z_scope.

(** [Readprotocol.Message] after the five header bytes have been read. *)
Definition after_header (ty : byte) (payloadLen : Z) : io.M protocol.Message :=
  if 1024 * 1024 <? payloadLen then
    io.fail (fmt.Errorf "payload too large: %d bytes" [fmt.ArgInt payloadLen])
  else if 0 <? payloadLen then
    buf <- io.make (Z.to_nat payloadLen) ;;
    payload <- io.wrap "failed to read payload: %w" (io.ReadFull (length buf)) ;;
    io.ret {| protocol.Type_ := ty; protocol.Payload := payload |}
  else
    io.ret {| protocol.Type_ := ty; protocol.Payload := [] |}.

End frames.

(** ** Further words for the properties *)

Module more.
Local Open Scope Z_scope.

(** The challenge [c] with another difficulty. *)
Definition with_difficulty (c : pow.Challenge) (d : Z) : pow.Challenge :=
  {| pow.Data := pow.Data c;
     pow.Timestamp := pow.Timestamp c;
     pow.ClientIP := pow.ClientIP c;
     pow.Difficulty := d |}.

(** The calls of a history that can touch the list of [ip]: its own calls
    and the cleanups. *)
Definition concerns (ip : string) (ev : server.event) : Prop :=
  match snd ev with
  | server.CallAllow ip' => ip' = ip
  | server.CallCleanup => True
  end.

Global Instance concerns_dec ip ev : Decision (concerns ip ev).
Proof. destruct ev as [t [ip'|]]; unfold concerns; cbn; apply _. Defined.

(** The decisions of a log that were made for [ip]. *)
Definition decisions_for (ip : string) (log : list server.decision) : list server.decision :=
  filter (fun d : server.decision => snd (fst d) = ip) log.

(** The stored timestamps account exactly for the admissions [past], as far
    as any clock value from [T] on can tell. *)
Definition tracked (T : Z) (past : list server.decision) (rl : server.RateLimiter) : Prop :=
  forall ip now, T <= now ->
    filter (spec.fresh now (server.window rl)) (server.timestamps_of (server.requests rl) ip) =
    filter (spec.fresh now (server.window rl)) (server.admissions ip past).


(** A frame on the wire: the type, the payload length on four bytes, the
    payload. *)
Definition frame (msg : protocol.Message) : list byte :=
  [protocol.Type_ msg] ++ be_bytes 4 (protocol.len (protocol.Payload msg))
  ++ protocol.Payload msg.

(** The buffers [ReadMessage] makes for a payload. *)
Definition payload_buffer (payload : list byte) : list nat :=
  match payload with
  | [] => []
  | _ :: _ => [length payload]
  end.

(** A quote message whose payload is one byte longer than 1 MiB. *)
Definition oversized_quote : protocol.Message :=
  {| protocol.Type_ := protocol.MessageTypeQuote;
     protocol.Payload := repeat "000"%byte (Z.to_nat 1048577) |}.

End more.

(** ** Computations with a state and an error *)

Module se.

(** A computation over a state [S] that ends in a value or an error; [io.M]
    is the instance for the reader's state. *)
Definition M (S A : Type) : Type := S -> result A * S.

Definition ret {S A} (a : A) : M S A := fun s => (Ok a, s).

Definition fail {S A} (e : string) : M S A := fun s => (Err e, s).

Definition bind {S A B} (m : M S A) (k : A -> M S B) : M S B :=
  fun s =>
    match m s with
    | (Ok a, s') => k a s'
    | (Err e, s') => (Err e, s')
    end.

(** [if err != nil { return fmt.Errorf(format, err) }] *)
Definition wrap {S A} (format : string) (m : M S A) : M S A :=
  fun s =>
    match m s with
    | (Ok a, s') => (Ok a, s')
    | (Err e, s') => (Err (fmt.Errorf format [fmt.ArgString e]), s')
    end.

End se.

Notation "x <~ c1 ;; c2" := (se.bind c1 (fun x => c2))
  (at level 100, c1 at next level, right associativity).

(** ** io.Writer: a writer that takes a limited or unlimited number of bytes *)

Module writer.

(** [written] is what the writer has taken so far. [room] is how many more
    bytes it takes before it fails ([None]: it never fails), as a connection
    does that breaks at some point. *)
Record t := { written : list byte; room : option nat }.

Definition ErrShortWrite : string := "short write".

(** [w.Write(p)]: all of [p], or the part that still fits and an error. *)
Definition Write (p : list byte) : se.M t nat :=
  fun w =>
    match room w with
    | None => (Ok (length p), {| written := written w ++ p; room := None |})
    | Some r =>
        if Nat.leb (length p) r
        then (Ok (length p), {| written := written w ++ p; room := Some (r - length p) |})
        else (Err ErrShortWrite, {| written := written w ++ firstn r p; room := Some 0 |})
    end.

End writer.

(** ** Package protocol: [WriteMessage] (codec.go) *)

Module codec.
Local Open Scope Z_scope.
Import protocol.

(** [binary.Write(w, binary.BigEndian, x)]: the big-endian bytes of [x] in
    one call of [w.Write]. *)
Definition binary_Write (bs : list byte) : se.M writer.t unit :=
  _ <~ writer.Write bs ;; se.ret tt.

Definition WriteMessage (msg : Message) : se.M writer.t unit :=
  _ <~ se.wrap "failed to write message type: %w" (binary_Write [Type_ msg]) ;;
  let payloadLen := len (Payload msg) mod 2 ^ 32 in
  _ <~ se.wrap "failed to write payload length: %w" (binary_Write (be_bytes 4 payloadLen)) ;;
  if 0 <? payloadLen then
    _ <~ se.wrap "failed to write payload: %w" (writer.Write (Payload msg)) ;;
    se.ret tt
  else
    se.ret tt.

End codec.

(** ** Package quotes: the collection the server answers from *)

Module quotes.
Local Open Scope Z_scope.

(** [func (m *Manager) Count() int] *)
Definition Count (quotes : list string) : Z := protocol.len quotes.

(** [func (m *Manager) GetRandom() (string, error)]; [draw] is the value
    that [rand.Intn(len(m.quotes))] returns. *)
Definition GetRandom (quotes : list string) (draw : Z) : result string :=
  if protocol.len quotes =? 0 then Err (fmt.Errorf "no quotes found in file" [])
  else
    let idx := draw in
    Ok (nth (Z.to_nat idx) quotes EmptyString).

End quotes.

(** ** Package pow: [GenerateChallenge] *)

Module powgen.
Local Open Scope Z_scope.

(** [GenerateChallenge(clientIP, difficulty)], which returns a challenge or an error;
    [entropy] is the outcome of [rand.Read] on the 32-byte array and [unix]
    the value of [time.Now().Unix()]. *)
Definition GenerateChallenge (entropy : result (list byte)) (unix : Z)
    (clientIP : string) (difficulty : Z) : result pow.Challenge :=
  match entropy with
  | Err err => Err (fmt.Errorf "failed to generate random data: %w" [fmt.ArgString err])
  | Ok randomData =>
      Ok {| pow.Data := randomData;
            pow.Timestamp := unix;
            pow.ClientIP := clientIP;
            pow.Difficulty := difficulty |}
  end.

End powgen.

(** ** A connection: a stream to read from and a writer to write to *)

Module conn.

Record t := { inbound : io.world; outbound : writer.t }.

(** A read on the connection. *)
Definition reading {A} (m : io.M A) : se.M t A :=
  fun c =>
    let '(r, w) := m (inbound c) in
    (r, {| inbound := w; outbound := outbound c |}).

(** A write on the connection. *)
Definition writing {A} (m : se.M writer.t A) : se.M t A :=
  fun c =>
    let '(r, w) := m (outbound c) in
    (r, {| inbound := inbound c; outbound := w |}).

End conn.

(** ** Package server: the connection handler (deadlines and logging are
       left out: they have no part in what is read and written) *)

Module handler.
Local Open Scope Z_scope.
Import protocol.

(** Error codes of the handler. *)
Definition ErrorCodeInvalidMessage : Z := 1.
Definition ErrorCodeInvalidSolution : Z := 2.
Definition ErrorCodeRateLimitExceeded : Z := 3.
Definition ErrorCodeTimeout : Z := 4.
Definition ErrorCodeInternalError : Z := 5.

(** [msg.Type != t] *)
Definition type_differs (a b : MessageType) : bool := negb (Z_of_byte a =? Z_of_byte b).

(** [func (s *Server) sendError(conn net.Conn, code uint16, message string)]:
    a failure to encode or to write is logged and otherwise ignored. *)
Definition sendError (code : Z) (message : string) : se.M conn.t unit :=
  fun c =>
    let errMsg := {| Code := code; Message_ := message |} in
    match EncodeError errMsg with
    | Err _ => (Ok tt, c)
    | Ok payload =>
        let msg := {| Type_ := MessageTypeError; Payload := payload |} in
        let '(_, c') := conn.writing (codec.WriteMessage msg) c in
        (Ok tt, c')
    end.

Section Server.

Variable Sum256 : list byte -> list byte.

(** The server's quotes, and the value [rand.Intn] returns if asked. *)
Variable quotes : list string.
Variable draw : Z.

(** [func (s *Server) handleChallengeResponse(conn net.Conn, challenge *pow.Challenge) error];
    [clientIP] is the address of the peer, read from the connection. *)
Definition handleChallengeResponse (clientIP : string) (challenge : pow.Challenge)
    : se.M conn.t unit :=
  msg <~ se.wrap "failed to read challenge request: %w" (conn.reading ReadMessage) ;;
  if type_differs (Type_ msg) MessageTypeChallengeRequest then
    _ <~ sendError ErrorCodeInvalidMessage "Expected challenge request" ;;
    se.fail (fmt.Errorf "unexpected message type: %d" [fmt.ArgInt (Z_of_byte (Type_ msg))])
  else
    let challengeResp :=
      {| Difficulty := pow.Difficulty challenge;
         Timestamp := pow.Timestamp challenge;
         RandomData := pow.Data challenge;
         ClientIP := clientIP |} in
    match EncodeChallengeResponse challengeResp with
    | Err err => se.fail (fmt.Errorf "failed to encode challenge response: %w" [fmt.ArgString err])
    | Ok buf =>
        let msg := {| Type_ := MessageTypeChallengeResponse; Payload := buf |} in
        _ <~ se.wrap "failed to send challenge response to the client: %w"
               (conn.writing (codec.WriteMessage msg)) ;;
        msg <~ se.wrap "failed to read solution: %w" (conn.reading ReadMessage) ;;
        if type_differs (Type_ msg) MessageTypeSolution then
          _ <~ sendError ErrorCodeInvalidMessage "Expected solution" ;;
          se.fail (fmt.Errorf "unexpected message type" [])
        else
          match DecodeSolution (Payload msg) with
          | Err err => se.fail (fmt.Errorf "failed to decode solution: %w" [fmt.ArgString err])
          | Ok solution =>
              if negb (pow.Verify Sum256 challenge (Nonce solution) clientIP) then
                _ <~ sendError ErrorCodeInvalidSolution "Invalid solution" ;;
                se.fail (fmt.Errorf "invalid PoW solution" [])
              else
                match quotes.GetRandom quotes draw with
                | Err err =>
                    _ <~ sendError ErrorCodeInternalError "No quotes available" ;;
                    se.fail (fmt.Errorf "failed to get quote: %w" [fmt.ArgString err])
                | Ok quote =>
                    let quoteMsg := {| Text := quote |} in
                    match EncodeQuote quoteMsg with
                    | Err err =>
                        se.fail (fmt.Errorf "failed to encode quote: %w" [fmt.ArgString err])
                    | Ok payload =>
                        let msg := {| Type_ := MessageTypeQuote; Payload := payload |} in
                        conn.writing (codec.WriteMessage msg)
                    end
                end
          end
    end.

(** [func (s *Server) handleConnection(conn net.Conn)]: the limiter is the
    one shared by all connections, so it is passed in and out. [now] is the
    clock value [Allow] reads, [entropy] and [unix] are what
    [GenerateChallenge] gets from [rand.Read] and [time.Now().Unix()], and
    [PoWDifficulty] is the configured difficulty. *)
Definition handleConnection (PoWDifficulty : Z) (now : Z) (entropy : result (list byte))
    (unix : Z) (clientIP : string) (rl : server.RateLimiter) (c : conn.t)
    : server.RateLimiter * conn.t :=
  let '(allowed, rl') := server.Allow now clientIP rl in
  if negb allowed then
    let '(_, c') := sendError ErrorCodeRateLimitExceeded "Rate limit exceeded" c in
    (rl', c')
  else
    match powgen.GenerateChallenge entropy unix clientIP PoWDifficulty with
    | Err _ =>
        let '(_, c') := sendError ErrorCodeInternalError "Internal error" c in
        (rl', c')
    | Ok challenge =>
        let '(_, c') := handleChallengeResponse clientIP challenge c in
        (rl', c')
    end.

End Server.

End handler.

(** ** Package client: [GetQuote] on a connection *)

Module client.
Local Open Scope Z_scope.
Import protocol.

(** How a call ends: with the quote, with an error returned, or in a
    run-time panic. *)
Inductive outcome :=
| Got (quote : string)
| Failed (err : string)
| Panicked (reason : string).

(** A call that has not ended yet goes on from the connection as it is. *)
Definition step : Type := conn.t -> outcome * conn.t.

(** [return quote, err] *)
Definition done (o : outcome) : step := fun c => (o, c).

(** A function call that does not touch the connection. *)
Definition pure {A} (r : result A) : se.M conn.t A := fun c => (r, c).

(** [x, err := m; if err != nil { return "", fmt.Errorf(format, err) }] *)
Definition try {A} (format : string) (m : se.M conn.t A) (k : A -> step) : step :=
  fun c =>
    match m c with
    | (Ok a, c') => k a c'
    | (Err err, c') => (Failed (fmt.Errorf format [fmt.ArgString err]), c')
    end.

Notation "'try' x <- m 'or' text ;; k" := (try text m (fun x => k))
  (at level 100, x name, m at next level, text at next level, right associativity).

(** [errMsg, _ := protocol.DecodeError(msg.Payload); return "", fmt.Errorf("server error: %s", errMsg.Message)]:
    when the payload does not decode, [errMsg] is nil and reading its field
    panics. *)
Definition server_error (payload : list byte) : outcome :=
  match DecodeError payload with
  | Ok errMsg => Failed (fmt.Errorf "server error: %s" [fmt.ArgString (Message_ errMsg)])
  | Err _ => Panicked "runtime error: invalid memory address or nil pointer dereference"
  end.

(** [msg.Type == t] *)
Definition type_is (a b : MessageType) : bool := Z_of_byte a =? Z_of_byte b.

Section Client.

Variable Sum256 : list byte -> list byte.

(** [pow.Solve(challenge)] as a call that returns a nonce or an error. *)
Definition solve (challenge : pow.Challenge) : result Z :=
  match pow.Solve Sum256 challenge with
  | (nonce, None) => Ok nonce
  | (_, Some err) => Err err
  end.

(** [func (c *Client) GetQuote() (string, error)]; [dial] is the outcome of
    [net.DialTimeout], and the connection it gives is the one the call goes
    on from. *)
Definition GetQuote (dial : result unit) : step :=
  match dial with
  | Err err => done (Failed (fmt.Errorf "failed to connect to server: %w" [fmt.ArgString err]))
  | Ok _ =>
      let msg := {| Type_ := MessageTypeChallengeRequest; Payload := [] |} in
      try _ <- conn.writing (codec.WriteMessage msg)
        or "failed to send challenge request: %w" ;;
      try msg <- conn.reading ReadMessage or "failed to read challenge response: %w" ;;
      if type_is (Type_ msg) MessageTypeError then done (server_error (Payload msg))
      else if handler.type_differs (Type_ msg) MessageTypeChallengeResponse then
        done (Failed (fmt.Errorf "unexpected message type: %d"
                        [fmt.ArgInt (Z_of_byte (Type_ msg))]))
      else
      try challengeResp <- pure (DecodeChallengeResponse (Payload msg))
        or "failed to decode challenge: %w" ;;
      let challenge :=
        {| pow.Difficulty := Difficulty challengeResp;
           pow.Timestamp := Timestamp challengeResp;
           pow.Data := RandomData challengeResp;
           pow.ClientIP := ClientIP challengeResp |} in
      try nonce <- pure (solve challenge) or "failed to solve challenge: %w" ;;
      let solution := {| Nonce := nonce |} in
      try payload <- pure (EncodeSolution solution) or "failed to encode solution: %w" ;;
      let msg := {| Type_ := MessageTypeSolution; Payload := payload |} in
      try _ <- conn.writing (codec.WriteMessage msg) or "failed to send solution: %w" ;;
      try msg <- conn.reading ReadMessage or "failed to read response: %w" ;;
      if type_is (Type_ msg) MessageTypeError then done (server_error (Payload msg))
      else if handler.type_differs (Type_ msg) MessageTypeQuote then
        done (Failed (fmt.Errorf "unexpected message type: %d"
                        [fmt.ArgInt (Z_of_byte (Type_ msg))]))
      else
      try quote <- pure (DecodeQuote (Payload msg)) or "failed to decode quote: %w" ;;
      done (Got (Text quote))
  end.

End Client.

End client.

(** ** Words for a session between a client and the handler *)

Module session.
Local Open Scope Z_scope.
Import protocol.

(** The payload an encoder returns (no encoder of the package fails). *)
Definition payload_of (r : result (list byte)) : list byte :=
  match r with
  | Ok payload => payload
  | Err _ => []
  end.

(** The messages of the protocol, each with the payload its encoder gives. *)
Definition request (payload : list byte) : Message :=
  {| Type_ := MessageTypeChallengeRequest; Payload := payload |}.

Definition challenge_response (challenge : pow.Challenge) (clientIP : string) : Message :=
  {| Type_ := MessageTypeChallengeResponse;
     Payload := payload_of (EncodeChallengeResponse
                  {| Difficulty := pow.Difficulty challenge;
                     Timestamp := pow.Timestamp challenge;
                     RandomData := pow.Data challenge;
                     ClientIP := clientIP |}) |}.

Definition solution (nonce : Z) : Message :=
  {| Type_ := MessageTypeSolution;
     Payload := payload_of (EncodeSolution {| Nonce := nonce |}) |}.

Definition quote (text : string) : Message :=
  {| Type_ := MessageTypeQuote; Payload := payload_of (EncodeQuote {| Text := text |}) |}.

Definition error (code : Z) (message : string) : Message :=
  {| Type_ := MessageTypeError;
     Payload := payload_of (EncodeError {| Code := code; Message_ := message |}) |}.

(** A connection on which [input] is still to be read and [output] has been
    written, and whose writes do not fail. *)
Definition connection (input : list byte) (made0 : list nat) (output : list byte) : conn.t :=
  {| conn.inbound := {| io.stream := input; io.made := made0 |};
     conn.outbound := {| writer.written := output; writer.room := None |} |}.

(** The challenge [GenerateChallenge] returns when [rand.Read] gives [data]
    and the clock reads [unix]. *)
Definition issued (data : list byte) (unix : Z) (clientIP : string) (difficulty : Z)
    : pow.Challenge :=
  {| pow.Data := data;
     pow.Timestamp := unix;
     pow.ClientIP := clientIP;
     pow.Difficulty := difficulty |}.

(** The bytes of the honest session, in each direction. *)
Definition from_client (nonce : Z) : list byte :=
  more.frame (request []) ++ more.frame (solution nonce) ++ [].

Definition from_server (challenge : pow.Challenge) (text : string) : list byte :=
  more.frame (challenge_response challenge (pow.ClientIP challenge))
  ++ more.frame (quote text) ++ [].

(** What has been written on a connection, and what is left to read. *)
Definition sent (c : conn.t) : list byte := writer.written (conn.outbound c).
Definition unread (c : conn.t) : list byte := io.stream (conn.inbound c).

End session.

(** ** The sessions of the specification's scenarios *)

Module scenario.
Local Open Scope Z_scope.

(** The quote collection of the scenarios. *)
Definition quotes : list string := ["only quote"%string].

(** The address of the peer of the example challenge. *)
Definition peer : string := "127.0.0.1".

(** What the honest client sends: a challenge request, then the solution
    with the least nonce for the example challenge. *)
Definition honest : list byte :=
  more.frame (session.request []) ++ more.frame (session.solution 290) ++ [].

(** What the client of the invalid-solution scenario sends: nonce 0,
    unconditionally. *)
Definition cheat : list byte :=
  more.frame (session.request []) ++ more.frame (session.solution 0) ++ [].

(** A solution message whose payload is one byte long. *)
Definition short_solution : list byte :=
  more.frame (session.request [])
  ++ more.frame {| protocol.Type_ := protocol.MessageTypeSolution;
                   protocol.Payload := ["000"%byte] |} ++ [].

(** A connection on which the client's bytes are all there to be read. *)
Definition fresh (input : list byte) : conn.t := session.connection input [] [].

End scenario.

(** * Properties *)

(** ** Checks of the library models against published values *)

Section LibraryVectors.
Local Open Scope Z_scope.

(** FIPS 180-4 test vector for the message abc. *)
Example Sum256_abc :
  examples.hex_digest (sha256.Sum256 (list_byte_of_string "abc")) =
  [ 0xba; 0x78; 0x16; 0xbf; 0x8f; 0x01; 0xcf; 0xea; 0x41; 0x41; 0x40; 0xde; 0x5d; 0xae; 0x22; 0x23;
    0xb0; 0x03; 0x61; 0xa3; 0x96; 0x17; 0x7a; 0x9c; 0xb4; 0x10; 0xff; 0x61; 0xf2; 0x00; 0x15; 0xad ].
Proof. vm_compute. reflexivity. Qed.

(** The empty message, and a message that needs two blocks. *)
Example Sum256_empty :
  examples.hex_digest (sha256.Sum256 []) =
  [ 0xe3; 0xb0; 0xc4; 0x42; 0x98; 0xfc; 0x1c; 0x14; 0x9a; 0xfb; 0xf4; 0xc8; 0x99; 0x6f; 0xb9; 0x24;
    0x27; 0xae; 0x41; 0xe4; 0x64; 0x9b; 0x93; 0x4c; 0xa4; 0x95; 0x99; 0x1b; 0x78; 0x52; 0xb8; 0x55 ].
Proof. vm_compute. reflexivity. Qed.

Example Sum256_two_blocks :
  examples.hex_digest (sha256.Sum256
    (list_byte_of_string "abcdbcdecdefdefgefghfghighijhijkijkljklmklmnlmnomnopnopq")) =
  [ 0x24; 0x8d; 0x6a; 0x61; 0xd2; 0x06; 0x38; 0xb8; 0xe5; 0xc0; 0x26; 0x93; 0x0c; 0x3e; 0x60; 0x39;
    0xa3; 0x3c; 0xe4; 0x59; 0x64; 0xff; 0x21; 0x67; 0xf6; 0xec; 0xed; 0xd4; 0x19; 0xdb; 0x06; 0xc1 ].
Proof. vm_compute. reflexivity. Qed.

(** RFC 4648, section 10. *)
Example EncodeToString_rfc4648 :
  map (fun s => base64.EncodeToString (list_byte_of_string s))
      ["f"; "fo"; "foo"; "foob"; "fooba"; "foobar"]%string
  = ["Zg=="; "Zm8="; "Zm9v"; "Zm9vYg=="; "Zm9vYmE="; "Zm9vYmFy"]%string.
Proof. vm_compute. reflexivity. Qed.

Example FormatInt_samples :
  map fmt.FormatInt [0; 7; 10; 1700000000; 18446744073709551615; -1; -9223372036854775808]
  = ["0"; "7"; "10"; "1700000000"; "18446744073709551615"; "-1"; "-9223372036854775808"]%string.
Proof. vm_compute. reflexivity. Qed.

(** The verification input of the example challenge, and the nonces below
    the one [Solve] returns for it. *)
Example canonical_form_sample :
  spec.canonical_form examples.challenge 290 =
  "AAECAwQFBgcICQoLDA0ODxAREhMUFRYXGBkaGxwdHh8=:1700000000:127.0.0.1:290"%string.
Proof. vm_compute. reflexivity. Qed.

Example Verify_sample :
  pow.Verify sha256.Sum256 examples.challenge 290 "127.0.0.1" = true
  /\ pow.Verify sha256.Sum256 examples.challenge 290 "127.0.0.2" = false
  /\ pow.Verify sha256.Sum256 examples.challenge 0 "127.0.0.1" = false.
Proof. vm_compute. repeat split. Qed.

End LibraryVectors.

(** ** Bytes *)

Section Bytes.
Local Open Scope Z_scope.

Lemma Z_of_byte_range (b : byte) : 0 <= Z_of_byte b < 256.
Proof.
  unfold Z_of_byte. pose proof (Byte.to_N_bounded b) as H.
  lia.
Qed.

Lemma byte_of_Z_of_byte (b : byte) : byte_of_Z (Z_of_byte b) = b.
Proof.
  unfold byte_of_Z, Z_of_byte.
  pose proof (Byte.to_N_bounded b) as H.
  rewrite Z.mod_small by lia.
  rewrite N2Z.id. now rewrite Byte.of_to_N.
Qed.

Lemma Z_of_byte_of_Z (z : Z) : Z_of_byte (byte_of_Z z) = z mod 256.
Proof.
  unfold byte_of_Z, Z_of_byte.
  assert (Hr : 0 <= z mod 256 < 256) by (apply Z.mod_pos_bound; lia).
  destruct (Byte.of_N (Z.to_N (z mod 256))) as [b|] eqn:E.
  - apply Byte.to_of_N in E.
    replace (Byte.to_N b) with (Z.to_N (z mod 256)) by congruence.
    rewrite Z2N.id; lia.
  - apply Byte.of_N_None_iff in E. lia.
Qed.

Lemma Z_of_byte_inj (a b : byte) : Z_of_byte a = Z_of_byte b -> a = b.
Proof.
  intros H. rewrite <- (byte_of_Z_of_byte a), <- (byte_of_Z_of_byte b). now rewrite H.
Qed.

End Bytes.

(** ** Counting leading zero bits *)

Section LeadingZeros.
Local Open Scope Z_scope.
Import pow.

(** The running count only shifts the outcome of the bit loop. *)
Lemma bit_loop_shift (b : Z) (n : nat) (count : Z) :
  bit_loop b n count =
  match bit_loop b n 0 with
  | inl r => inl (count + r)
  | inr r => inr (count + r)
  end.
Proof.
  revert count. induction n as [|i IH]; intros count; simpl.
  - f_equal. lia.
  - destruct (Z.land b (Z.shiftl 1 (Z.of_nat i)) =? 0).
    + rewrite (IH (count + 1)), (IH (0 + 1)).
      destruct (bit_loop b i 0); f_equal; lia.
    + f_equal. lia.
Qed.

(** On a non-zero byte the bit loop always leaves through its [return]. *)
Lemma bit_loop_nonzero (b : byte) :
  Z_of_byte b <> 0 ->
  bit_loop (Z_of_byte b) 8 0 = inl (spec.high_zero_bits b).
Proof.
  destruct b; intros H; try reflexivity; exfalso; apply H; reflexivity.
Qed.

Lemma high_zero_bits_range (b : byte) :
  Z_of_byte b <> 0 -> 0 <= spec.high_zero_bits b <= 7.
Proof.
  intros H. pose proof (Z_of_byte_range b) as Hr.
  unfold spec.high_zero_bits.
  assert (0 <= Z.log2 (Z_of_byte b)) by apply Z.log2_nonneg.
  assert (Z.log2 (Z_of_byte b) < 8) by (apply Z.log2_lt_pow2; lia).
  lia.
Qed.

Lemma byte_loop_spec (d : list byte) (count : Z) :
  byte_loop d count =
  count + 8 * Z.of_nat (spec.leading_zero_bytes d)
  + match spec.first_nonzero d with
    | Some b => spec.high_zero_bits b
    | None => 0
    end.
Proof.
  revert count. induction d as [|b rest IH]; intros count;
    cbn [byte_loop spec.leading_zero_bytes spec.first_nonzero].
  - lia.
  - destruct (Z_of_byte b =? 0) eqn:E.
    + rewrite IH. lia.
    + apply Z.eqb_neq in E.
      rewrite bit_loop_shift, (bit_loop_nonzero b E). simpl. lia.
Qed.

Lemma leading_zero_bytes_le (d : list byte) :
  (spec.leading_zero_bytes d <= length d)%nat.
Proof.
  induction d as [|b rest IH]; simpl; [lia|].
  destruct (Z_of_byte b =? 0); simpl; lia.
Qed.

Lemma first_nonzero_Some (d : list byte) (b : byte) :
  spec.first_nonzero d = Some b ->
  Z_of_byte b <> 0 /\ (spec.leading_zero_bytes d < length d)%nat.
Proof.
  induction d as [|x rest IH]; simpl; [discriminate|].
  destruct (Z_of_byte x =? 0) eqn:E.
  - intros H. destruct (IH H). split; [assumption|simpl; lia].
  - intros [= ->]. apply Z.eqb_neq in E. split; [assumption|simpl; lia].
Qed.

(** C5. For a 32-byte digest the count lies between 0 and 256 and is eight
    times the number of leading zero bytes plus the number of high-order zero
    bits (0 to 7) of the first non-zero byte; the function has no other input
    than the digest. The all-zero digest gives 256, and the digests that begin
    0x80, 0x00 0x80, 0x01, 0x0F and are zero elsewhere give 0, 8, 7, 4. *)
Theorem CountLeadingZeroBits_spec (d : list byte) (Hlen : length d = 32%nat) :
  0 <= CountLeadingZeroBits d <= 256
  /\ CountLeadingZeroBits d =
       8 * Z.of_nat (spec.leading_zero_bytes d)
       + match spec.first_nonzero d with
         | Some b => spec.high_zero_bits b
         | None => 0
         end
  /\ (forall b, spec.first_nonzero d = Some b -> 0 <= spec.high_zero_bits b <= 7)
  /\ CountLeadingZeroBits (repeat "000"%byte 32) = 256
  /\ CountLeadingZeroBits (spec.digest_from ["128"%byte]) = 0
  /\ CountLeadingZeroBits (spec.digest_from ["000"%byte; "128"%byte]) = 8
  /\ CountLeadingZeroBits (spec.digest_from ["001"%byte]) = 7
  /\ CountLeadingZeroBits (spec.digest_from ["015"%byte]) = 4.
Proof.
  assert (Hb : forall b, spec.first_nonzero d = Some b -> 0 <= spec.high_zero_bits b <= 7).
  { intros b Hb. apply high_zero_bits_range. now apply first_nonzero_Some in Hb. }
  assert (Heq := byte_loop_spec d 0). fold (CountLeadingZeroBits d) in Heq.
  split; [|split; [rewrite Heq; lia|split; [exact Hb|repeat split; reflexivity]]].
  rewrite Heq. pose proof (leading_zero_bytes_le d) as Hle.
  destruct (spec.first_nonzero d) as [b|] eqn:E.
  - specialize (Hb b eq_refl). apply first_nonzero_Some in E. lia.
  - lia.
Qed.

Lemma CountLeadingZeroBits_spec_witness :
  length (spec.digest_from ["000"%byte; "015"%byte]) = 32%nat
  /\ CountLeadingZeroBits (spec.digest_from ["000"%byte; "015"%byte]) = 12.
Proof.
  split; [reflexivity|].
  destruct (CountLeadingZeroBits_spec (spec.digest_from ["000"%byte; "015"%byte]) eq_refl)
    as (_ & H & _).
  rewrite H. reflexivity.
Defined.

End LeadingZeros.

(** ** Bit operations as arithmetic *)

Section Bits.
Local Open Scope Z_scope.

(** An [or] of a shifted value with a value that fits below the shift is a
    sum. *)
Lemma lor_shiftl_add (hi lo k : Z) :
  0 <= k -> 0 <= lo < 2 ^ k -> Z.lor (Z.shiftl hi k) lo = hi * 2 ^ k + lo.
Proof.
  intros Hk Hlo.
  assert (Hdisj : Z.land (Z.shiftl hi k) lo = 0).
  { apply Z.bits_inj'. intros i Hi.
    rewrite Z.land_spec, Z.bits_0.
    destruct (Z.lt_ge_cases i k) as [Hlt|Hge].
    - rewrite Z.shiftl_spec_low by assumption. reflexivity.
    - rewrite <- (Z.mod_small lo (2 ^ k)) by assumption.
      rewrite Z.mod_pow2_bits_high by lia.
      apply andb_false_r. }
  rewrite <- Z.lxor_lor by assumption.
  rewrite <- Z.add_nocarry_lxor by assumption.
  now rewrite Z.shiftl_mul_pow2.
Qed.

Lemma lor_add_shiftl (hi lo k : Z) :
  0 <= k -> 0 <= lo < 2 ^ k -> Z.lor lo (Z.shiftl hi k) = hi * 2 ^ k + lo.
Proof. intros. rewrite Z.lor_comm. now apply lor_shiftl_add. Qed.

Lemma land_low (x k : Z) : 0 <= k -> Z.land x (2 ^ k - 1) = x mod 2 ^ k.
Proof.
  intros Hk. rewrite <- Z.land_ones by assumption.
  now rewrite Z.ones_equiv, Z.sub_1_r.
Qed.

End Bits.

(** ** Base64 *)

Section Base64.
Local Open Scope Z_scope.
Import base64.

Lemma sextet_range (i : Z) :
  0 <= i < 64 -> In i (map Z.of_nat (seq 0 64)).
Proof.
  intros H. apply in_map_iff. exists (Z.to_nat i). split; [lia|].
  apply in_seq. lia.
Qed.

(** Every six-bit value is encoded by the alphabet character at its
    position, which is never the padding character. *)
Lemma base64_value_encode (i : Z) :
  0 <= i < 64 ->
  spec.base64_value (encode i) = Some i /\ Ascii.eqb (encode i) "=" = false.
Proof.
  intros H.
  assert (Hall : forallb (fun j =>
            match spec.base64_value (encode j) with
            | Some k => (k =? j) && negb (Ascii.eqb (encode j) "=")
            | None => false
            end) (map Z.of_nat (seq 0 64)) = true) by (vm_compute; reflexivity).
  rewrite forallb_forall in Hall. specialize (Hall i (sextet_range i H)).
  destruct (spec.base64_value (encode i)) as [k|]; [|discriminate].
  apply andb_prop in Hall as [Hk Hpad]. apply Z.eqb_eq in Hk. subst k.
  split; [reflexivity|]. now destruct (Ascii.eqb (encode i) "=").
Qed.

Lemma sextet_eq (val shift : Z) :
  0 <= shift -> sextet val shift = encode (val / 2 ^ shift mod 64).
Proof.
  intros H. unfold sextet.
  change 0x3F with (2 ^ 6 - 1). rewrite land_low by lia.
  now rewrite Z.shiftr_div_pow2.
Qed.

Lemma list_ind3 (A : Type) (P : list A -> Prop) :
  P [] -> (forall a, P [a]) -> (forall a b, P [a; b]) ->
  (forall a b c rest, P rest -> P (a :: b :: c :: rest)) ->
  forall l, P l.
Proof.
  intros H0 H1 H2 H3.
  assert (H : forall l, P l /\ (forall a, P (a :: l)) /\ (forall a b, P (a :: b :: l))).
  { induction l as [|x l (IH0 & IH1 & IH2)]; [now auto|].
    split; [apply IH1|split; [intros a; apply IH2|]].
    intros a b. now apply H3. }
  intros l. apply H.
Qed.

Ltac byte_eq :=
  apply Z_of_byte_inj; rewrite Z_of_byte_of_Z;
  change (2 ^ 18) with 262144; change (2 ^ 16) with 65536; change (2 ^ 12) with 4096;
  change (2 ^ 8) with 256; change (2 ^ 6) with 64; change (2 ^ 0) with 1;
  Z.div_mod_to_equations; lia.

Ltac pad_eq :=
  change (2 ^ 18) with 262144; change (2 ^ 16) with 65536; change (2 ^ 12) with 4096;
  change (2 ^ 8) with 256; change (2 ^ 6) with 64; change (2 ^ 0) with 1;
  Z.div_mod_to_equations; lia.

Ltac same_chars :=
  repeat match goal with
         | |- String _ _ = String _ _ => f_equal
         | |- encode _ = encode _ => f_equal; pad_eq
         end.

Ltac known_sextet v k :=
  let H := fresh in
  destruct (base64_value_encode (v / 2 ^ k mod 64)) as [-> H];
  [apply Z.mod_pos_bound; lia|]; try rewrite H; clear H.

(** Reading back the encoding gives the bytes that were encoded: the encoder
    is the standard alphabet with [=] padding. *)
Lemma base64_decode_encode (src : list byte) :
  spec.base64_decode (EncodeToString src) = Some src.
Proof.
  induction src as [|a|a b|a b c rest IH] using list_ind3.
  - reflexivity.
  - cbn [EncodeToString spec.base64_decode].
    rewrite !sextet_eq by lia. rewrite Z.shiftl_mul_pow2 by lia.
    pose proof (Z_of_byte_range a) as Ha.
    set (v := Z_of_byte a * 2 ^ 16).
    known_sextet v 18. known_sextet v 12.
    cbn [andb Ascii.eqb Bool.eqb StdPadding].
    replace (v / 2 ^ 12 mod 64 mod 16 =? 0) with true
      by (symmetry; apply Z.eqb_eq; subst v; pad_eq).
    f_equal. f_equal. subst v. byte_eq.
  - cbn [EncodeToString spec.base64_decode].
    rewrite !sextet_eq by lia.
    pose proof (Z_of_byte_range a) as Ha. pose proof (Z_of_byte_range b) as Hb.
    rewrite (Z.lor_comm (Z.shiftl (Z_of_byte a) 16)).
    rewrite (Z.shiftl_mul_pow2 (Z_of_byte b)) by lia.
    rewrite lor_add_shiftl by lia.
    set (v := Z_of_byte a * 2 ^ 16 + Z_of_byte b * 2 ^ 8).
    known_sextet v 18. known_sextet v 12. known_sextet v 6.
    cbn [andb]. rewrite Ascii.eqb_refl.
    replace (v / 2 ^ 6 mod 64 mod 4 =? 0) with true
      by (symmetry; apply Z.eqb_eq; subst v; pad_eq).
    subst v. f_equal. f_equal; [byte_eq|]. f_equal. byte_eq.
  - cbn [EncodeToString spec.base64_decode].
    rewrite !sextet_eq by lia.
    pose proof (Z_of_byte_range a) as Ha. pose proof (Z_of_byte_range b) as Hb.
    pose proof (Z_of_byte_range c) as Hc.
    rewrite (Z.lor_comm (Z.shiftl (Z_of_byte a) 16)).
    rewrite (Z.shiftl_mul_pow2 (Z_of_byte b)) by lia.
    rewrite lor_add_shiftl by lia.
    rewrite Z.lor_comm.
    replace (Z_of_byte a * 2 ^ 16 + Z_of_byte b * 2 ^ 8)
      with (Z.shiftl (Z_of_byte a * 2 ^ 8 + Z_of_byte b) 8)
      by (rewrite Z.shiftl_mul_pow2; lia).
    rewrite lor_add_shiftl by lia.
    set (v := (Z_of_byte a * 2 ^ 8 + Z_of_byte b) * 2 ^ 8 + Z_of_byte c).
    known_sextet v 18. known_sextet v 12. known_sextet v 6. known_sextet v 0.
    cbn [andb]. rewrite IH.
    subst v. f_equal. f_equal; [byte_eq|]. f_equal; [byte_eq|]. f_equal. byte_eq.
Qed.

(** A character of the alphabet is the one the encoder writes for its
    value. *)
Lemma base64_value_Some (ch : ascii) (i : Z) :
  spec.base64_value ch = Some i -> ch = encode i /\ 0 <= i < 64.
Proof.
  destruct ch as [[] [] [] [] [] [] [] []]; vm_compute; intros H;
    try discriminate H; injection H as <-; repeat split; discriminate.
Qed.

Lemma string_ind4 (P : string -> Prop) :
  P EmptyString ->
  (forall a, P (String a EmptyString)) ->
  (forall a b, P (String a (String b EmptyString))) ->
  (forall a b c, P (String a (String b (String c EmptyString)))) ->
  (forall a b c d rest, P rest -> P (String a (String b (String c (String d rest))))) ->
  forall s, P s.
Proof.
  intros H0 H1 H2 H3 H4.
  assert (H : forall s, P s /\ (forall a, P (String a s))
                        /\ (forall a b, P (String a (String b s)))
                        /\ (forall a b c, P (String a (String b (String c s))))).
  { induction s as [|x s (IH0 & IH1 & IH2 & IH3)]; [now auto|].
    split; [apply IH1|]. split; [intros a; apply IH2|].
    split; [intros a b; apply IH3|]. intros a b c. now apply H4. }
  intros s. apply H.
Qed.

(** A text that reads as [data] is the text the encoder writes for [data]:
    the standard base64 text of a byte string is unique. *)
Lemma base64_decode_unique (s : string) (data : list byte) :
  spec.base64_decode s = Some data -> s = EncodeToString data.
Proof.
  revert data. induction s as [|a|a b|a b c|c0 c1 c2 c3 rest IH] using string_ind4;
    intros data H; try discriminate H.
  - now injection H as <-.
  - cbn [spec.base64_decode] in H.
    destruct (spec.base64_value c0) as [i0|] eqn:E0; [|discriminate H].
    destruct (spec.base64_value c1) as [i1|] eqn:E1; [|discriminate H].
    apply base64_value_Some in E0 as [-> R0], E1 as [-> R1].
    destruct (Ascii.eqb c2 "=" && Ascii.eqb c3 "=")%bool eqn:Epad.
    + apply andb_prop in Epad as [P2 P3]. apply Ascii.eqb_eq in P2, P3. subst c2 c3.
      destruct rest; [|discriminate H].
      destruct (Z.eqb_spec (i1 mod 16) 0) as [Hz|]; [|discriminate H].
      injection H as <-. cbn [EncodeToString].
      rewrite !sextet_eq by lia. rewrite Z.shiftl_mul_pow2, Z_of_byte_of_Z by lia.
      unfold StdPadding. same_chars.
    + destruct (spec.base64_value c2) as [i2|] eqn:E2; [|discriminate H].
      apply base64_value_Some in E2 as [-> R2].
      destruct (Ascii.eqb c3 "=") eqn:P3.
      * apply Ascii.eqb_eq in P3. subst c3.
        destruct rest; [|discriminate H].
        destruct (Z.eqb_spec (i2 mod 4) 0) as [Hz|]; [|discriminate H].
        injection H as <-. cbn [EncodeToString].
        rewrite !sextet_eq by lia.
        rewrite (Z.lor_comm (Z.shiftl _ 16)).
        rewrite (Z.shiftl_mul_pow2 (Z_of_byte (byte_of_Z (i1 mod 16 * 16 + i2 / 4)))) by lia.
        rewrite lor_add_shiftl
          by (try lia; rewrite Z_of_byte_of_Z; pad_eq).
        rewrite !Z_of_byte_of_Z.
        unfold StdPadding. same_chars.
      * destruct (spec.base64_value c3) as [i3|] eqn:E3; [|discriminate H].
        apply base64_value_Some in E3 as [-> R3].
        destruct (spec.base64_decode rest) as [bs|] eqn:Erest; [|discriminate H].
        injection H as <-. cbn [EncodeToString].
        rewrite (IH bs eq_refl).
        rewrite !sextet_eq by lia.
        set (b0 := byte_of_Z (i0 * 4 + i1 / 16)).
        set (b1 := byte_of_Z (i1 mod 16 * 16 + i2 / 4)).
        set (b2 := byte_of_Z (i2 mod 4 * 64 + i3)).
        pose proof (Z_of_byte_range b0) as Hb0. pose proof (Z_of_byte_range b1) as Hb1.
        pose proof (Z_of_byte_range b2) as Hb2.
        rewrite (Z.lor_comm (Z.shiftl (Z_of_byte b0) 16)).
        rewrite (Z.shiftl_mul_pow2 (Z_of_byte b1)) by lia.
        rewrite lor_add_shiftl by lia.
        rewrite Z.lor_comm.
        replace (Z_of_byte b0 * 2 ^ 16 + Z_of_byte b1 * 2 ^ 8)
          with (Z.shiftl (Z_of_byte b0 * 2 ^ 8 + Z_of_byte b1) 8)
          by (rewrite Z.shiftl_mul_pow2; lia).
        rewrite lor_add_shiftl by lia.
        subst b0 b1 b2. rewrite !Z_of_byte_of_Z. clear Hb0 Hb1 Hb2.
        same_chars.
Qed.

(** A text whose last character has a data-free bit set is not the text of
    any byte string, though it has the same 24 leading bits as one. *)
Example base64_decode_pad_bits :
  spec.base64_decode "AAECAwQFBgcICQoLDA0ODxAREhMUFRYXGBkaGxwdHh8=" =
    Some (pow.Data examples.challenge)
  /\ spec.base64_decode "AAECAwQFBgcICQoLDA0ODxAREhMUFRYXGBkaGxwdHh9=" = None.
Proof. split; vm_compute; reflexivity. Qed.

End Base64.

(** ** Strings and decimal formatting *)

Section Formatting.
Local Open Scope Z_scope.
Import fmt.
Local Arguments String.append : simpl nomatch.

Lemma string_app_nil_r (s : string) : (s ++ "")%string = s.
Proof. induction s as [|ch s IH]; simpl; [reflexivity|now rewrite IH]. Qed.

Lemma string_app_assoc (s t u : string) : ((s ++ t) ++ u = s ++ t ++ u)%string.
Proof. induction s as [|ch s IH]; simpl; [reflexivity|now rewrite IH]. Qed.

Lemma string_app_inv_head (s t u : string) : (s ++ t = s ++ u)%string -> t = u.
Proof. induction s as [|ch s IH]; simpl; [auto|]. intros [= H]. auto. Qed.

Lemma digit_value_digit (d : Z) : 0 <= d <= 9 -> spec.digit_value (digit d) = d.
Proof.
  intros H. unfold spec.digit_value, digit.
  rewrite byte_of_ascii_of_byte, Z_of_byte_of_Z.
  rewrite Z.mod_small; lia.
Qed.

Lemma all_digits_app (s t : string) :
  spec.all_digits s -> spec.all_digits t -> spec.all_digits (s ++ t).
Proof. induction s as [|ch s IH]; simpl; [auto|]. intros [? ?] ?. auto. Qed.

Lemma decimal_value_from_app (acc : Z) (s t : string) :
  spec.decimal_value_from acc (s ++ t) =
  spec.decimal_value_from (spec.decimal_value_from acc s) t.
Proof. revert acc. induction s as [|ch s IH]; intros acc; simpl; [reflexivity|apply IH]. Qed.

(** The buffer is only extended to the left. *)
Lemma fmt_loop_app (fuel : nat) (u : Z) (buf : string) :
  fmt_loop fuel u buf = (fmt_loop fuel u "" ++ buf)%string.
Proof.
  revert u buf. induction fuel as [|k IH]; intros u buf; simpl; [reflexivity|].
  destruct (10 <=? u); [|reflexivity].
  rewrite (IH _ (String _ buf)), (IH _ (String _ "")).
  now rewrite string_app_assoc.
Qed.

Lemma fmt_loop_decimal (fuel : nat) (u : Z) :
  0 <= u < 2 ^ Z.of_nat fuel -> (0 < fuel)%nat ->
  spec.unsigned_decimal u (fmt_loop fuel u "").
Proof.
  revert u. induction fuel as [|k IH]; intros u Hu Hfuel; [lia|].
  cbn [fmt_loop]. destruct (10 <=? u) eqn:E.
  - apply Z.leb_le in E.
    assert (Hk : (0 < k)%nat).
    { destruct k; [|lia]. change (2 ^ Z.of_nat 1) with 2 in Hu. lia. }
    assert (Hq : 0 <= u / 10 < 2 ^ Z.of_nat k).
    { rewrite Nat2Z.inj_succ, Z.pow_succ_r in Hu by lia.
      split; [apply Z.div_pos; lia|].
      apply Z.div_lt_upper_bound; lia. }
    destruct (IH (u / 10) Hq Hk) as (Hdig & Hval & Hlead).
    assert (Hr : 0 <= u - u / 10 * 10 <= 9) by (Z.div_mod_to_equations; lia).
    rewrite fmt_loop_app. split; [|split].
    + apply all_digits_app; [assumption|]. simpl. split; [|exact I].
      unfold spec.is_digit. rewrite digit_value_digit; lia.
    + unfold spec.decimal_value in *. rewrite decimal_value_from_app, Hval.
      simpl. rewrite digit_value_digit by lia. lia.
    + right. destruct Hlead as [H0|(ch & rest & Hs & Hch)].
      * rewrite H0 in Hval. change (spec.decimal_value "0") with 0 in Hval.
        Z.div_mod_to_equations. lia.
      * rewrite Hs. simpl. eauto.
  - apply Z.leb_gt in E. split; [|split].
    + simpl. split; [|exact I]. unfold spec.is_digit. rewrite digit_value_digit; lia.
    + unfold spec.decimal_value. simpl. rewrite digit_value_digit; lia.
    + destruct (Z.eq_dec u 0) as [->|Hne]; [left; reflexivity|].
      right. exists (digit u), EmptyString. split; [reflexivity|].
      rewrite digit_value_digit; lia.
Qed.

(** An unsigned number is printed as its decimal digits: no sign and no
    leading zero. *)
Lemma FormatUint_decimal (u : Z) : 0 <= u -> spec.unsigned_decimal u (FormatUint u).
Proof.
  intros Hu. unfold FormatUint. apply fmt_loop_decimal; [|lia].
  rewrite Nat2Z.inj_succ, Z2Nat.id by apply Z.log2_nonneg.
  destruct (Z.eq_dec u 0) as [->|Hne]; [cbv; split; [discriminate|reflexivity]|].
  split; [lia|]. apply Z.log2_spec. lia.
Qed.

Lemma FormatInt_decimal (z : Z) : spec.signed_decimal z (FormatInt z).
Proof.
  unfold spec.signed_decimal, FormatInt. destruct (z <? 0) eqn:E.
  - apply Z.ltb_lt in E. eexists. split; [reflexivity|]. apply FormatUint_decimal. lia.
  - apply Z.ltb_ge in E. now apply FormatUint_decimal.
Qed.

(** Different unsigned numbers are printed differently. *)
Lemma FormatInt_inj (m n : Z) : 0 <= m -> 0 <= n -> FormatInt m = FormatInt n -> m = n.
Proof.
  intros Hm Hn H.
  pose proof (FormatInt_decimal m) as Dm. pose proof (FormatInt_decimal n) as Dn.
  unfold spec.signed_decimal in *.
  destruct (m <? 0) eqn:Em; [apply Z.ltb_lt in Em; lia|].
  destruct (n <? 0) eqn:En; [apply Z.ltb_lt in En; lia|].
  destruct Dm as (_ & Vm & _), Dn as (_ & Vn & _). congruence.
Qed.

(** *** One decimal text for a number *)

Lemma digit_value_inj (a b : ascii) : spec.digit_value a = spec.digit_value b -> a = b.
Proof.
  unfold spec.digit_value. intros H.
  assert (E : byte_of_ascii a = byte_of_ascii b) by (apply Z_of_byte_inj; lia).
  rewrite <- (ascii_of_byte_of_ascii a), <- (ascii_of_byte_of_ascii b). now rewrite E.
Qed.

Lemma decimal_value_from_acc (acc : Z) (s : string) :
  spec.decimal_value_from acc s
  = acc * 10 ^ Z.of_nat (String.length s) + spec.decimal_value s.
Proof.
  unfold spec.decimal_value. revert acc.
  induction s as [|ch s IH]; intros acc; cbn [spec.decimal_value_from String.length].
  - change (10 ^ Z.of_nat 0) with 1. lia.
  - rewrite (IH (acc * 10 + spec.digit_value ch)), (IH (0 * 10 + spec.digit_value ch)).
    rewrite Nat2Z.inj_succ, Z.pow_succ_r by lia. lia.
Qed.

Lemma decimal_value_cons (ch : ascii) (s : string) :
  spec.decimal_value (String ch s)
  = spec.digit_value ch * 10 ^ Z.of_nat (String.length s) + spec.decimal_value s.
Proof.
  unfold spec.decimal_value at 1. cbn [spec.decimal_value_from].
  rewrite decimal_value_from_acc. lia.
Qed.

Lemma decimal_value_bound (s : string) :
  spec.all_digits s -> 0 <= spec.decimal_value s < 10 ^ Z.of_nat (String.length s).
Proof.
  induction s as [|ch s IH]; [intros _; cbv; split; [discriminate|reflexivity]|].
  intros [Hch Hs]. specialize (IH Hs). unfold spec.is_digit in Hch.
  rewrite decimal_value_cons. cbn [String.length].
  rewrite Nat2Z.inj_succ, Z.pow_succ_r by lia. nia.
Qed.

Lemma same_length_decimal (s t : string) :
  spec.all_digits s -> spec.all_digits t -> String.length s = String.length t ->
  spec.decimal_value s = spec.decimal_value t -> s = t.
Proof.
  revert t. induction s as [|a s IH]; intros [|b t] Hs Ht Hlen Hval;
    try discriminate Hlen; [reflexivity|].
  destruct Hs as [Ha Hs], Ht as [Hb Ht]. injection Hlen as Hlen.
  rewrite !decimal_value_cons, Hlen in Hval.
  pose proof (decimal_value_bound s Hs) as Bs. pose proof (decimal_value_bound t Ht) as Bt.
  rewrite Hlen in Bs. unfold spec.is_digit in *.
  assert (Hd : spec.digit_value a = spec.digit_value b) by nia.
  f_equal; [now apply digit_value_inj|]. apply IH; try assumption. nia.
Qed.

(** The decimal text of an unsigned number is unique. *)
Lemma unsigned_decimal_unique (n : Z) (s t : string) :
  spec.unsigned_decimal n s -> spec.unsigned_decimal n t -> s = t.
Proof.
  assert (Hlead : forall ch rest,
            spec.all_digits (String ch rest) -> 1 <= spec.digit_value ch ->
            10 ^ Z.of_nat (String.length rest) <= spec.decimal_value (String ch rest)
              < 10 ^ Z.of_nat (S (String.length rest))).
  { intros ch rest Hd Hch. pose proof (decimal_value_bound _ Hd) as B.
    destruct Hd as [_ Hrest]. pose proof (decimal_value_bound _ Hrest) as B'.
    rewrite decimal_value_cons in *. cbn [String.length] in B.
    assert (0 < 10 ^ Z.of_nat (String.length rest)) by (apply Z.pow_pos_nonneg; lia).
    split; [nia|lia]. }
  intros (Ds & Vs & Ls) (Dt & Vt & Lt).
  destruct Ls as [->|(a & rs & -> & Ha)], Lt as [->|(b & rt & -> & Hb)].
  - reflexivity.
  - pose proof (Hlead b rt Dt Hb) as B. change (spec.decimal_value "0") with 0 in Vs.
    assert (0 < 10 ^ Z.of_nat (String.length rt)) by (apply Z.pow_pos_nonneg; lia). lia.
  - pose proof (Hlead a rs Ds Ha) as B. change (spec.decimal_value "0") with 0 in Vt.
    assert (0 < 10 ^ Z.of_nat (String.length rs)) by (apply Z.pow_pos_nonneg; lia). lia.
  - pose proof (Hlead a rs Ds Ha) as Ba. pose proof (Hlead b rt Dt Hb) as Bb.
    assert (Hlen : String.length rs = String.length rt).
    { assert (Z.of_nat (String.length rs) < Z.of_nat (S (String.length rt)))
        by (apply (Z.pow_lt_mono_r_iff 10); lia).
      assert (Z.of_nat (String.length rt) < Z.of_nat (S (String.length rs)))
        by (apply (Z.pow_lt_mono_r_iff 10); lia).
      lia. }
    apply same_length_decimal; try assumption; [cbn [String.length]; lia|lia].
Qed.

(** The decimal text of a signed number is unique. *)
Lemma signed_decimal_unique (z : Z) (s t : string) :
  spec.signed_decimal z s -> spec.signed_decimal z t -> s = t.
Proof.
  unfold spec.signed_decimal. destruct (z <? 0).
  - intros (ds & -> & Hs) (dt & -> & Ht). f_equal. exact (unsigned_decimal_unique _ _ _ Hs Ht).
  - apply unsigned_decimal_unique.
Qed.

End Formatting.

(** ** The challenge: canonical form, verification, solving *)

Section Hashcash.
Local Open Scope Z_scope.
Import pow.
Local Arguments String.append : simpl nomatch.

Variable Sum256 : list byte -> list byte.

Lemma Challenge_String_eq (c : Challenge) :
  Challenge_String c =
  (base64.EncodeToString (Data c) ++ ":" ++ fmt.FormatInt (Timestamp c) ++ ":" ++ ClientIP c)%string.
Proof. unfold Challenge_String. cbn. now rewrite string_app_nil_r. Qed.

(** The digest input is the canonical form of the specification. *)
Lemma ComputeHash_canonical (c : Challenge) (nonce : Z) :
  ComputeHash Sum256 c nonce = Sum256 (list_byte_of_string (spec.canonical_form c nonce)).
Proof.
  unfold ComputeHash. do 2 f_equal.
  transitivity (Challenge_String c ++ ":" ++ fmt.FormatInt nonce)%string.
  - cbn. now rewrite !string_app_nil_r.
  - rewrite Challenge_String_eq. unfold spec.canonical_form.
    rewrite string_app_assoc. f_equal. cbn. f_equal.
    rewrite string_app_assoc. f_equal.
Qed.

Lemma Verify_true (c : Challenge) (nonce : Z) (clientIP : string) :
  Verify Sum256 c nonce clientIP = true <->
  clientIP = ClientIP c /\ Difficulty c <= CountLeadingZeroBits (ComputeHash Sum256 c nonce).
Proof.
  unfold Verify. destruct (String.eqb_spec (ClientIP c) clientIP) as [->|Hne]; cbn.
  - rewrite Z.leb_le. tauto.
  - split; [discriminate|]. intros [-> _]. congruence.
Qed.

End Hashcash.

Section HashcashClaims.
Local Open Scope Z_scope.
Import pow.
Local Arguments String.append : simpl nomatch.

Variable Sum256 : list byte -> list byte.

(** C1. [Verify c nonce clientIP] is true exactly when the presented
    identity is the challenge's [ClientIP] and the digest of the canonical
    form of [(c, nonce)] has at least [Difficulty c] leading zero bits. The
    result is the value of a fixed boolean expression in the three
    arguments, so it depends on nothing else. *)
Theorem Verify_iff (c : Challenge) (nonce : Z) (clientIP : string) :
  (Verify Sum256 c nonce clientIP = true <->
     clientIP = ClientIP c
     /\ Difficulty c <=
          CountLeadingZeroBits (Sum256 (list_byte_of_string (spec.canonical_form c nonce))))
  /\ Verify Sum256 c nonce clientIP =
       (String.eqb (ClientIP c) clientIP
        && (Difficulty c <=?
              CountLeadingZeroBits (Sum256 (list_byte_of_string (spec.canonical_form c nonce)))))%bool.
Proof.
  rewrite <- ComputeHash_canonical. split; [apply Verify_true|].
  unfold Verify. now destruct (String.eqb (ClientIP c) clientIP).
Qed.

Lemma EncodeToString_length_32 (data : list byte) :
  length data = 32%nat -> String.length (base64.EncodeToString data) = 44%nat.
Proof.
  intros H.
  do 32 (destruct data as [|? data]; [discriminate H|]).
  destruct data; [reflexivity|discriminate H].
Qed.

(** C4. The digest [Verify] compares is that of the bytes
    [b64 ++ ":" ++ ts ++ ":" ++ ClientIP c ++ ":" ++ ns], where [b64] is the
    padded standard base64 text of the 32 data bytes (44 characters that
    read back as the data), [ts] is the timestamp in decimal and [ns] is the
    nonce in decimal, digits only, with no sign and no leading zero. These
    descriptions leave no choice: any texts that meet them are [b64], [ts]
    and [ns], so the bytes hashed are exactly those of the canonical form. *)
Theorem ComputeHash_canonical_form (c : Challenge) (nonce : Z)
    (Hdata : length (Data c) = 32%nat) (Hnonce : 0 <= nonce <= MaxUint64) :
  exists b64 ts ns : string,
    ComputeHash Sum256 c nonce =
      Sum256 (list_byte_of_string (b64 ++ ":" ++ ts ++ ":" ++ ClientIP c ++ ":" ++ ns))
    /\ spec.base64_decode b64 = Some (Data c)
    /\ String.length b64 = 44%nat
    /\ spec.signed_decimal (Timestamp c) ts
    /\ spec.unsigned_decimal nonce ns
    /\ (forall b64' ts' ns' : string,
          spec.base64_decode b64' = Some (Data c) ->
          spec.signed_decimal (Timestamp c) ts' ->
          spec.unsigned_decimal nonce ns' ->
          b64' = b64 /\ ts' = ts /\ ns' = ns).
Proof.
  exists (base64.EncodeToString (Data c)), (fmt.FormatInt (Timestamp c)), (fmt.FormatInt nonce).
  assert (Hns : spec.unsigned_decimal nonce (fmt.FormatInt nonce)).
  { pose proof (FormatInt_decimal nonce) as H. unfold spec.signed_decimal in H.
    destruct (nonce <? 0) eqn:E; [apply Z.ltb_lt in E; lia|exact H]. }
  split; [apply ComputeHash_canonical|].
  split; [apply base64_decode_encode|].
  split; [now apply EncodeToString_length_32|].
  split; [apply FormatInt_decimal|].
  split; [exact Hns|].
  intros b64' ts' ns' Hb Ht Hn.
  split; [now apply base64_decode_unique|].
  split; [exact (signed_decimal_unique _ _ _ Ht (FormatInt_decimal (Timestamp c)))|].
  exact (unsigned_decimal_unique _ _ _ Hn Hns).
Qed.

(** The search loop stops at the first nonce that meets the difficulty. *)
Lemma range_loop_first (c : Challenge) (iters : nat) (start : Z) :
  (exists n, start <= n < start + Z.of_nat iters
             /\ Difficulty c <= CountLeadingZeroBits (ComputeHash Sum256 c n)) ->
  exists n,
    range_loop Sum256 c iters start = (n, None)
    /\ start <= n < start + Z.of_nat iters
    /\ Difficulty c <= CountLeadingZeroBits (ComputeHash Sum256 c n)
    /\ forall m, start <= m < n ->
         CountLeadingZeroBits (ComputeHash Sum256 c m) < Difficulty c.
Proof.
  revert start. induction iters as [|k IH]; intros start (n & Hn & Hok); [lia|].
  cbn [range_loop].
  destruct (Difficulty c <=? CountLeadingZeroBits (ComputeHash Sum256 c start)) eqn:E.
  - apply Z.leb_le in E. exists start. repeat split; lia.
  - apply Z.leb_gt in E.
    destruct (IH (start + 1)) as (n' & Hrun & Hn' & Hok' & Hleast).
    { exists n. split; [|assumption]. destruct (Z.eq_dec n start) as [->|]; lia. }
    exists n'. repeat split; try lia; try assumption.
    intros m Hm. destruct (Z.eq_dec m start) as [->|]; [assumption|apply Hleast; lia].
Qed.

(** When no nonce of the range meets the difficulty the loop runs to its end
    and [Solve] reports the failure. *)
Lemma range_loop_none (c : Challenge) (iters : nat) (start : Z) :
  (forall m, start <= m < start + Z.of_nat iters ->
     CountLeadingZeroBits (ComputeHash Sum256 c m) < Difficulty c) ->
  range_loop Sum256 c iters start = (0, Some "no solution found"%string).
Proof.
  revert start. induction iters as [|k IH]; intros start Hall; [reflexivity|].
  cbn [range_loop].
  destruct (Difficulty c <=? CountLeadingZeroBits (ComputeHash Sum256 c start)) eqn:E.
  - apply Z.leb_le in E. specialize (Hall start). lia.
  - apply IH. intros m Hm. apply Hall. lia.
Qed.


End HashcashClaims.

Section HashcashExamples.
Local Open Scope Z_scope.
Import pow.
Local Arguments String.append : simpl nomatch.

Lemma ComputeHash_canonical_form_witness :
  length (Data examples.challenge) = 32%nat /\ 0 <= 290 <= MaxUint64
  /\ exists b64 ts ns : string,
       ComputeHash sha256.Sum256 examples.challenge 290 =
         sha256.Sum256 (list_byte_of_string
           (b64 ++ ":" ++ ts ++ ":" ++ ClientIP examples.challenge ++ ":" ++ ns))
       /\ spec.base64_decode b64 = Some (Data examples.challenge)
       /\ String.length b64 = 44%nat
       /\ spec.signed_decimal (Timestamp examples.challenge) ts
       /\ spec.unsigned_decimal 290 ns
       /\ (forall b64' ts' ns' : string,
             spec.base64_decode b64' = Some (Data examples.challenge) ->
             spec.signed_decimal (Timestamp examples.challenge) ts' ->
             spec.unsigned_decimal 290 ns' ->
             b64' = b64 /\ ts' = ts /\ ns' = ns).
Proof.
  assert (H1 : length (Data examples.challenge) = 32%nat) by reflexivity.
  assert (H2 : 0 <= 290 <= MaxUint64) by (unfold MaxUint64; lia).
  split; [exact H1|split; [exact H2|]].
  exact (ComputeHash_canonical_form sha256.Sum256 examples.challenge 290 H1 H2).
Defined.


(** A nonce that meets the difficulty while none before it does is what the
    loop returns. *)
Lemma range_loop_found (Sum256 : list byte -> list byte) (c : Challenge)
    (iters : nat) (start n : Z) :
  start <= n < start + Z.of_nat iters ->
  Difficulty c <= CountLeadingZeroBits (ComputeHash Sum256 c n) ->
  (forall m, start <= m < n ->
     CountLeadingZeroBits (ComputeHash Sum256 c m) < Difficulty c) ->
  range_loop Sum256 c iters start = (n, None).
Proof.
  intros Hn Hok Hbelow.
  destruct (range_loop_first Sum256 c iters start) as (n' & Hrun & Hn' & Hok' & Hleast);
    [now exists n|].
  rewrite Hrun. f_equal.
  destruct (Z.lt_trichotomy n' n) as [Hlt|[Heq|Hgt]]; [|exact Heq|].
  - specialize (Hbelow n'). lia.
  - specialize (Hleast n). lia.
Qed.

(** On the example challenge, with SHA-256, [Solve] returns 290: the 290
    smaller nonces are hashed and all fall short of 8 leading zero bits. *)
Example Solve_sample : Solve sha256.Sum256 examples.challenge = (290, None).
Proof.
  apply range_loop_found.
  - unfold MaxUint64. lia.
  - vm_compute. discriminate.
  - intros m Hm.
    assert (Hall : forallb (fun k =>
              CountLeadingZeroBits (ComputeHash sha256.Sum256 examples.challenge k)
              <? Difficulty examples.challenge) (map Z.of_nat (seq 0 290)) = true)
      by (vm_compute; reflexivity).
    rewrite forallb_forall in Hall. apply Z.ltb_lt, Hall.
    apply in_map_iff. exists (Z.to_nat m). split; [lia|]. apply in_seq. lia.
Qed.

End HashcashExamples.

(** ** Big-endian integers *)

Section BigEndian.
Local Open Scope Z_scope.

(** One more byte on top of a value of [k] bits. *)
Lemma lor_byte (lo b k : Z) :
  0 <= k -> 0 <= lo < 2 ^ k -> 0 <= b < 256 ->
  Z.lor lo (Z.shiftl b k) = b * 2 ^ k + lo /\ 0 <= b * 2 ^ k + lo < 2 ^ (k + 8).
Proof.
  intros Hk Hlo Hb. split; [now apply lor_add_shiftl|].
  rewrite Z.pow_add_r by lia. change (2 ^ 8) with 256. nia.
Qed.

Ltac byte_ranges :=
  repeat match goal with
  | |- context [Z_of_byte ?b] =>
      lazymatch goal with
      | _ : 0 <= Z_of_byte b < 256 |- _ => fail
      | _ => pose proof (Z_of_byte_range b)
      end
  end.

Ltac lor_bytes :=
  repeat match goal with
  | |- context [Z.lor ?lo (Z.shiftl ?b ?k)] =>
      let H := fresh in let R := fresh in
      destruct (lor_byte lo b k) as [H R]; [lia|simpl; lia|lia|];
      rewrite H; clear H; simpl in R
  end.

Lemma Uint16_be_value (b : list byte) :
  length b = 2%nat -> binary.Uint16 b = be_value b.
Proof.
  intros H. do 2 (destruct b as [|? b]; [discriminate H|]).
  destruct b; [|discriminate H].
  unfold binary.Uint16, binary.at_, be_value. cbn [nth fold_left].
  byte_ranges. lor_bytes. lia.
Qed.

Lemma Uint32_be_value (b : list byte) :
  length b = 4%nat -> binary.Uint32 b = be_value b.
Proof.
  intros H. do 4 (destruct b as [|? b]; [discriminate H|]).
  destruct b; [|discriminate H].
  unfold binary.Uint32, binary.at_, be_value. cbn [nth fold_left].
  byte_ranges. lor_bytes. lia.
Qed.

Lemma Uint64_be_value (b : list byte) :
  length b = 8%nat -> binary.Uint64 b = be_value b.
Proof.
  intros H. do 8 (destruct b as [|? b]; [discriminate H|]).
  destruct b; [|discriminate H].
  unfold binary.Uint64, binary.at_, be_value. cbn [nth fold_left].
  byte_ranges. lor_bytes. lia.
Qed.

Lemma be_bytes_length (n : nat) (v : Z) : length (be_bytes n v) = n.
Proof. induction n as [|k IH]; simpl; [reflexivity|now rewrite IH]. Qed.

Lemma be_value_app (bs : list byte) (b : byte) :
  be_value (bs ++ [b]) = be_value bs * 256 + Z_of_byte b.
Proof. unfold be_value. now rewrite fold_left_app. Qed.

Lemma be_value_cons (bs : list byte) (b : byte) :
  be_value (b :: bs) = Z_of_byte b * 256 ^ Z.of_nat (length bs) + be_value bs.
Proof.
  induction bs as [|x bs IH] using rev_ind.
  - unfold be_value. simpl. lia.
  - change (b :: bs ++ [x]) with ((b :: bs) ++ [x]).
    rewrite !be_value_app, IH, length_app, Nat2Z.inj_add, Z.pow_add_r by lia.
    simpl. lia.
Qed.

(** The [n] low bytes of [v] denote [v] modulo [256 ^ n]. *)
Lemma be_value_be_bytes (n : nat) (v : Z) :
  be_value (be_bytes n v) = v mod 256 ^ Z.of_nat n.
Proof.
  induction n as [|k IH].
  - simpl. unfold be_value. simpl. now rewrite Z.mod_1_r.
  - cbn [be_bytes]. rewrite be_value_cons, be_bytes_length, IH, Z_of_byte_of_Z.
    rewrite Z.shiftr_div_pow2 by lia.
    rewrite Nat2Z.inj_succ, Z.pow_succ_r by lia.
    replace (2 ^ (8 * Z.of_nat k)) with (256 ^ Z.of_nat k)
      by (change 256 with (2 ^ 8); rewrite <- Z.pow_mul_r by lia; reflexivity).
    assert (Hp : 0 < 256 ^ Z.of_nat k) by (apply Z.pow_pos_nonneg; lia).
    set (p := 256 ^ Z.of_nat k) in *.
    rewrite (Z.mul_comm 256 p), Z.rem_mul_r by lia. lia.
Qed.

Lemma PutUint64_make (v : Z) : binary.PutUint64 (slice.make 8) v = be_bytes 8 v.
Proof. reflexivity. Qed.

Lemma PutUint16_make (v : Z) : binary.PutUint16 (slice.make 2) v = be_bytes 2 v.
Proof. reflexivity. Qed.

Lemma Uint64_PutUint64 (v : Z) :
  0 <= v < 2 ^ 64 -> binary.Uint64 (be_bytes 8 v) = v.
Proof.
  intros H. rewrite Uint64_be_value by apply be_bytes_length.
  rewrite be_value_be_bytes. apply Z.mod_small. exact H.
Qed.

Lemma Uint32_be_bytes (v : Z) :
  0 <= v < 2 ^ 32 -> binary.Uint32 (be_bytes 4 v) = v.
Proof.
  intros H. rewrite Uint32_be_value by apply be_bytes_length.
  rewrite be_value_be_bytes. apply Z.mod_small. exact H.
Qed.

Lemma Uint16_PutUint16 (v : Z) :
  0 <= v < 2 ^ 16 -> binary.Uint16 (be_bytes 2 v) = v.
Proof.
  intros H. rewrite Uint16_be_value by apply be_bytes_length.
  rewrite be_value_be_bytes. apply Z.mod_small. exact H.
Qed.

End BigEndian.

(** ** The codec *)

Section Codec.
Local Open Scope Z_scope.
Import protocol.

Lemma through_app (lo hi : nat) (f : list byte -> list byte) (l1 l2 l3 : list byte) :
  length l1 = lo -> length l2 = (hi - lo)%nat -> (lo <= hi)%nat ->
  slice.through lo hi f (l1 ++ l2 ++ l3) = l1 ++ f l2 ++ l3.
Proof.
  intros H1 H2 Hle. subst lo.
  assert (Hhi : hi = length (l1 ++ l2)) by (rewrite length_app; lia).
  unfold slice.through, slice.sub.
  rewrite firstn_app, firstn_all, Nat.sub_diag, firstn_O, app_nil_r.
  rewrite skipn_app, skipn_all, Nat.sub_diag, skipn_O. cbn [app].
  rewrite <- H2.
  rewrite firstn_app, firstn_all, Nat.sub_diag, firstn_O, app_nil_r.
  do 2 f_equal.
  rewrite Hhi, app_assoc, skipn_app, skipn_all, Nat.sub_diag, skipn_O. reflexivity.
Qed.

Lemma copy_same_length (dst src : list byte) :
  length dst = length src -> slice.copy dst src = src.
Proof.
  intros H. unfold slice.copy. rewrite H, Nat.min_id, firstn_all.
  rewrite <- H, skipn_all. apply app_nil_r.
Qed.

Lemma list_byte_of_string_length (s : string) :
  length (list_byte_of_string s) = String.length s.
Proof.
  unfold list_byte_of_string. rewrite length_map.
  induction s as [|ch s IH]; simpl; [reflexivity|now rewrite IH].
Qed.

(** The payload of a challenge response, field after field. *)
Lemma EncodeChallengeResponse_layout (cr : ChallengeResponse) :
  length (RandomData cr) = 32%nat ->
  EncodeChallengeResponse cr =
  Ok ([byte_of_Z (Difficulty cr)] ++ be_bytes 8 (uint64_of_int64 (Timestamp cr))
      ++ RandomData cr ++ list_byte_of_string (ClientIP cr)).
Proof.
  intros Hdata. unfold EncodeChallengeResponse. f_equal.
  set (ip := list_byte_of_string (ClientIP cr)).
  set (ts := uint64_of_int64 (Timestamp cr)).
  assert (Hmake : slice.make (41 + length ip) =
                  [ "000"%byte ] ++ slice.make 8 ++ slice.make 32 ++ slice.make (length ip)).
  { unfold slice.make. now rewrite <- !repeat_app. }
  rewrite Hmake. cbn [app]. change (<[0%nat := ?d]> (?x :: ?l)) with (d :: l).
  change (?d :: slice.make 8 ++ ?l) with ([d] ++ slice.make 8 ++ l).
  rewrite through_app by (reflexivity || lia).
  rewrite PutUint64_make.
  rewrite (app_assoc [_] (be_bytes 8 ts)).
  rewrite through_app;
    [|rewrite length_app, be_bytes_length; reflexivity|reflexivity|lia].
  rewrite copy_same_length by (now rewrite Hdata).
  rewrite (app_assoc _ (RandomData cr)).
  rewrite <- (app_nil_r (slice.make (length ip))).
  rewrite through_app.
  - rewrite copy_same_length by (unfold slice.make; now rewrite repeat_length).
    now rewrite app_nil_r, <- !app_assoc.
  - rewrite !length_app, be_bytes_length, Hdata. reflexivity.
  - rewrite !length_app, be_bytes_length, Hdata.
    unfold slice.make. rewrite repeat_length. simpl. lia.
  - rewrite !length_app, be_bytes_length, Hdata. simpl. lia.
Qed.

Lemma EncodeError_layout (e : Error) :
  EncodeError e = Ok (be_bytes 2 (Code e) ++ list_byte_of_string (Message_ e)).
Proof.
  unfold EncodeError. f_equal.
  set (msg := list_byte_of_string (Message_ e)).
  assert (Hlen : String.length (Message_ e) = length msg)
    by (subst msg; now rewrite list_byte_of_string_length).
  rewrite Hlen.
  assert (Hmake : slice.make (2 + length msg) = [] ++ slice.make 2 ++ slice.make (length msg)).
  { unfold slice.make. now rewrite <- repeat_app. }
  rewrite Hmake. rewrite through_app by (reflexivity || lia).
  rewrite PutUint16_make. cbn [app].
  rewrite <- (app_nil_r (slice.make (length msg))).
  rewrite through_app.
  - rewrite copy_same_length by (unfold slice.make; now rewrite repeat_length).
    now rewrite app_nil_r.
  - apply be_bytes_length.
  - rewrite !length_app, be_bytes_length. unfold slice.make. rewrite repeat_length. simpl. lia.
  - rewrite !length_app, be_bytes_length. lia.
Qed.

Lemma int64_of_uint64_of_int64 (x : Z) :
  spec.is_int64 x -> int64_of_uint64 (uint64_of_int64 x) = x.
Proof.
  unfold spec.is_int64, int64_of_uint64, uint64_of_int64. intros H.
  change (2 ^ 63) with 9223372036854775808 in *.
  change (2 ^ 64) with 18446744073709551616.
  destruct (Z.ltb_spec (x mod 18446744073709551616) 9223372036854775808);
    Z.div_mod_to_equations; lia.
Qed.

Lemma string_of_list_byte_nil (s : string) :
  list_byte_of_string s = [] -> s = EmptyString.
Proof.
  intros H. rewrite <- (string_of_list_byte_of_string s), H. reflexivity.
Qed.

(** Reading back the trailing text of a payload. *)
Lemma trailing_text (k : Z) (s : string) :
  (if k <? k + len (list_byte_of_string s)
   then string_of_list_byte (list_byte_of_string s)
   else EmptyString) = s.
Proof.
  destruct (Z.ltb_spec k (k + len (list_byte_of_string s))).
  - apply string_of_list_byte_of_string.
  - symmetry. apply string_of_list_byte_nil.
    unfold len in *. destruct (list_byte_of_string s); [reflexivity|simpl in *; lia].
Qed.

Lemma ChallengeResponse_round_trip (cr : ChallengeResponse) :
  0 <= Difficulty cr <= 255 -> spec.is_int64 (Timestamp cr) ->
  length (RandomData cr) = 32%nat ->
  spec.round_trip EncodeChallengeResponse DecodeChallengeResponse cr = Ok cr.
Proof.
  intros Hd Ht Hr. unfold spec.round_trip.
  rewrite EncodeChallengeResponse_layout by assumption.
  set (ip := list_byte_of_string (ClientIP cr)).
  set (ts := be_bytes 8 (uint64_of_int64 (Timestamp cr))).
  unfold DecodeChallengeResponse.
  assert (Hlen : len ([byte_of_Z (Difficulty cr)] ++ ts ++ RandomData cr ++ ip) = 41 + len ip).
  { unfold len. rewrite !length_app. subst ts. rewrite be_bytes_length, Hr. simpl length. lia. }
  rewrite Hlen.
  destruct (Z.ltb_spec (41 + len ip) 41) as [Hlt|_]; [unfold len in Hlt; lia|].
  destruct cr as [d t r ip0]. cbn [Difficulty Timestamp RandomData ClientIP] in *.
  f_equal. f_equal.
  - cbn [app nth]. rewrite Z_of_byte_of_Z. apply Z.mod_small. lia.
  - unfold slice.sub. cbn [app skipn Nat.sub]. rewrite skipn_O.
    rewrite firstn_app.
    replace (length ts) with 8%nat by (subst ts; now rewrite be_bytes_length).
    rewrite Nat.sub_diag, firstn_O, app_nil_r.
    rewrite firstn_all2 by (subst ts; rewrite be_bytes_length; lia).
    subst ts. rewrite Uint64_PutUint64 by (apply Z.mod_pos_bound; lia).
    now apply int64_of_uint64_of_int64.
  - unfold slice.sub. rewrite app_assoc.
    rewrite skipn_app.
    replace (length ([byte_of_Z d] ++ ts)) with 9%nat
      by (subst ts; rewrite length_app, be_bytes_length; reflexivity).
    rewrite skipn_all2
      by (subst ts; rewrite length_app, be_bytes_length; simpl; lia).
    cbn [app Nat.sub]. rewrite skipn_O.
    rewrite firstn_app, Hr, Nat.sub_diag, firstn_O, app_nil_r.
    rewrite firstn_all2 by lia.
    apply copy_same_length. now rewrite Hr.
  - rewrite !app_assoc. rewrite skipn_app.
    replace (length (([byte_of_Z d] ++ ts) ++ r)) with 41%nat
      by (subst ts; rewrite !length_app, be_bytes_length, Hr; reflexivity).
    rewrite skipn_all2
      by (subst ts; rewrite !length_app, be_bytes_length, Hr; simpl; lia).
    cbn [app Nat.sub]. rewrite skipn_O. subst ip. apply trailing_text.
Qed.

Lemma Solution_round_trip (sol : Solution) :
  spec.is_uint64 (Nonce sol) ->
  spec.round_trip EncodeSolution DecodeSolution sol = Ok sol.
Proof.
  intros H. unfold spec.round_trip, EncodeSolution. rewrite PutUint64_make.
  unfold DecodeSolution.
  replace (len (be_bytes 8 (Nonce sol))) with 8
    by (unfold len; now rewrite be_bytes_length).
  cbn [Z.eqb Pos.eqb negb]. rewrite Uint64_PutUint64 by exact H.
  now destruct sol.
Qed.

Lemma Quote_round_trip (q : Quote) :
  spec.round_trip EncodeQuote DecodeQuote q = Ok q.
Proof.
  unfold spec.round_trip, EncodeQuote, DecodeQuote.
  rewrite string_of_list_byte_of_string. now destruct q.
Qed.

Lemma Error_round_trip (e : Error) :
  spec.is_uint16 (Code e) ->
  spec.round_trip EncodeError DecodeError e = Ok e.
Proof.
  intros H. unfold spec.round_trip. rewrite EncodeError_layout.
  unfold DecodeError.
  set (msg := list_byte_of_string (Message_ e)).
  assert (Hlen : len (be_bytes 2 (Code e) ++ msg) = 2 + len msg).
  { unfold len. rewrite length_app, be_bytes_length. lia. }
  rewrite Hlen.
  destruct (Z.ltb_spec (2 + len msg) 2) as [Hlt|_]; [unfold len in Hlt; lia|].
  destruct e as [code m]. cbn [Code Message_] in *.
  f_equal. f_equal.
  - unfold slice.sub. cbn [Nat.sub]. rewrite skipn_O.
    rewrite firstn_app, be_bytes_length, Nat.sub_diag, firstn_O, app_nil_r.
    rewrite firstn_all2 by (rewrite be_bytes_length; lia).
    now apply Uint16_PutUint16.
  - rewrite skipn_app, be_bytes_length, Nat.sub_diag.
    rewrite skipn_all2 by (rewrite be_bytes_length; lia).
    cbn [app]. rewrite skipn_O. subst msg. apply trailing_text.
Qed.

(** C3, as the code has it. Decoding the encoding of a message gives the
    message back, for each of the four variants, whatever the strings, the
    nonce and the random bytes are, provided the difficulty of a challenge
    response fits the one byte that carries it: 0 to 255. *)
Theorem codec_round_trip (cr : ChallengeResponse) (sol : Solution) (q : Quote) (e : Error)
    (Hdifficulty : 0 <= Difficulty cr <= 255)
    (Htimestamp : spec.is_int64 (Timestamp cr))
    (Hrandom : length (RandomData cr) = 32%nat)
    (Hnonce : spec.is_uint64 (Nonce sol))
    (Hcode : spec.is_uint16 (Code e)) :
  spec.round_trip EncodeChallengeResponse DecodeChallengeResponse cr = Ok cr
  /\ spec.round_trip EncodeSolution DecodeSolution sol = Ok sol
  /\ spec.round_trip EncodeQuote DecodeQuote q = Ok q
  /\ spec.round_trip EncodeError DecodeError e = Ok e.
Proof.
  split; [now apply ChallengeResponse_round_trip|].
  split; [now apply Solution_round_trip|].
  split; [apply Quote_round_trip|now apply Error_round_trip].
Qed.

Lemma codec_round_trip_witness :
  0 <= Difficulty examples.response_corner <= 255
  /\ spec.is_int64 (Timestamp examples.response_corner)
  /\ length (RandomData examples.response_corner) = 32%nat
  /\ spec.is_uint64 (Nonce examples.solution_zero)
  /\ spec.is_uint16 (Code examples.error_empty)
  /\ spec.round_trip EncodeChallengeResponse DecodeChallengeResponse examples.response_corner
       = Ok examples.response_corner
  /\ spec.round_trip EncodeSolution DecodeSolution examples.solution_zero
       = Ok examples.solution_zero
  /\ spec.round_trip EncodeQuote DecodeQuote examples.quote_empty = Ok examples.quote_empty
  /\ spec.round_trip EncodeError DecodeError examples.error_empty = Ok examples.error_empty.
Proof.
  assert (H1 : 0 <= Difficulty examples.response_corner <= 255) by (simpl; lia).
  assert (H2 : spec.is_int64 (Timestamp examples.response_corner))
    by (unfold spec.is_int64; simpl; lia).
  assert (H3 : length (RandomData examples.response_corner) = 32%nat) by reflexivity.
  assert (H4 : spec.is_uint64 (Nonce examples.solution_zero))
    by (unfold spec.is_uint64; simpl; lia).
  assert (H5 : spec.is_uint16 (Code examples.error_empty))
    by (unfold spec.is_uint16; simpl; unfold ErrorCodeTimeout; lia).
  repeat (split; [assumption|]).
  exact (codec_round_trip examples.response_corner examples.solution_zero
           examples.quote_empty examples.error_empty H1 H2 H3 H4 H5).
Defined.

(** C3, as the claim is worded, fails at difficulty 256, the upper end of
    the range the specification gives: one byte carries the difficulty, so
    256 is encoded as 0 and decoded as 0. *)
Lemma codec_round_trip_256 :
  0 <= Difficulty examples.response_256 <= 256
  /\ spec.round_trip EncodeChallengeResponse DecodeChallengeResponse examples.response_256
       = Ok {| Difficulty := 0;
               Timestamp := Timestamp examples.response_256;
               RandomData := RandomData examples.response_256;
               ClientIP := ClientIP examples.response_256 |}
  /\ spec.round_trip EncodeChallengeResponse DecodeChallengeResponse examples.response_256
       <> Ok examples.response_256.
Proof.
  split; [simpl; lia|].
  assert (H : spec.round_trip EncodeChallengeResponse DecodeChallengeResponse
                examples.response_256
              = Ok {| Difficulty := 0;
                      Timestamp := Timestamp examples.response_256;
                      RandomData := RandomData examples.response_256;
                      ClientIP := ClientIP examples.response_256 |})
    by (vm_compute; reflexivity).
  split; [exact H|]. rewrite H. intros E. inversion E.
Qed.

(** C9. [DecodeSolution] fails exactly on the payloads whose length is not
    8; on a payload of 8 bytes it returns the unsigned integer they denote,
    most significant byte first. [EncodeSolution] always succeeds with
    exactly 8 bytes. *)
Theorem DecodeSolution_spec (payload : list byte) (sol : Solution) :
  ((exists e, DecodeSolution payload = Err e) <-> length payload <> 8%nat)
  /\ (length payload = 8%nat -> DecodeSolution payload = Ok {| Nonce := be_value payload |})
  /\ (exists buf, EncodeSolution sol = Ok buf /\ length buf = 8%nat).
Proof.
  assert (Hcases : (length payload = 8%nat /\
                    DecodeSolution payload = Ok {| Nonce := be_value payload |})
                   \/ (length payload <> 8%nat /\ exists e, DecodeSolution payload = Err e)).
  { unfold DecodeSolution. destruct (Z.eqb_spec (len payload) 8) as [E|E]; cbn [negb].
    - left. assert (length payload = 8%nat) by (unfold len in E; lia).
      split; [assumption|]. now rewrite Uint64_be_value.
    - right. split; [unfold len in E; lia|eauto]. }
  split; [|split].
  - destruct Hcases as [[Hlen Hok]|[Hlen Herr]].
    + split; [intros [e He]; congruence|tauto].
    + tauto.
  - intros Hlen. destruct Hcases as [[_ Hok]|[Hne _]]; [exact Hok|contradiction].
  - exists (be_bytes 8 (Nonce sol)). split; [reflexivity|apply be_bytes_length].
Qed.

End Codec.

(** ** Frames *)

Section Frames.
Local Open Scope Z_scope.
Import protocol.

Lemma ReadMessage_header (ty : byte) (n : Z) (rest : list byte) (made0 : list nat) :
  spec.is_uint32 n ->
  ReadMessage {| io.stream := [ty] ++ be_bytes 4 n ++ rest; io.made := made0 |} =
  frames.after_header ty n {| io.stream := rest; io.made := made0 |}.
Proof.
  intros Hn. rewrite <- (Uint32_be_bytes n Hn) at 2. reflexivity.
Qed.

(** C6. On a frame whose header declares a payload longer than 1 MiB,
    [ReadMessage] returns an error and has called [make] for no buffer; the
    payload bytes are left unread. A declared length of zero is accepted: the
    message is returned with an empty payload. For the lengths in between a
    buffer of the declared length is made, so the bound is what keeps the
    large allocation away. *)
Theorem ReadMessage_frame_bound (ty : byte) (n : Z) (rest : list byte) (made0 : list nat)
    (Hn : spec.is_uint32 n) :
  let w := {| io.stream := [ty] ++ be_bytes 4 n ++ rest; io.made := made0 |} in
  (1048576 < n ->
     ReadMessage w =
       (Err (fmt.Errorf "payload too large: %d bytes" [fmt.ArgInt n]),
        {| io.stream := rest; io.made := made0 |}))
  /\ (n = 0 ->
        ReadMessage w =
          (Ok {| Type_ := ty; Payload := [] |}, {| io.stream := rest; io.made := made0 |}))
  /\ (0 < n <= 1048576 -> io.made (snd (ReadMessage w)) = made0 ++ [Z.to_nat n]).
Proof.
  intros w. subst w. rewrite ReadMessage_header by exact Hn. unfold frames.after_header.
  change (1024 * 1024) with 1048576.
  split; [|split].
  - intros H. destruct (Z.ltb_spec 1048576 n); [reflexivity|lia].
  - intros ->. reflexivity.
  - intros H. destruct (Z.ltb_spec 1048576 n); [lia|].
    destruct (Z.ltb_spec 0 n); [|lia].
    unfold io.bind, io.make, io.wrap. cbn [fst snd io.stream io.made].
    destruct (io.ReadFull _ _) as [[payload|e] w'] eqn:E; cbn [snd];
      unfold io.ReadFull in E; cbn [io.stream io.made] in E;
      repeat match type of E with
      | (if ?c then _ else _) = _ => destruct c
      | match ?l with [] => _ | _ :: _ => _ end = _ => destruct l
      end; inversion E; reflexivity.
Qed.

Lemma ReadMessage_frame_bound_witness :
  spec.is_uint32 (2 ^ 30)
  /\ ReadMessage {| io.stream := ["004"; "064"; "000"; "000"; "000"; "120"; "121"]%byte;
                    io.made := [] |}
     = (Err "payload too large: 1073741824 bytes"%string,
        {| io.stream := ["120"; "121"]%byte; io.made := [] |}).
Proof.
  assert (H : spec.is_uint32 (2 ^ 30)) by (unfold spec.is_uint32; lia).
  split; [exact H|].
  destruct (ReadMessage_frame_bound "004"%byte (2 ^ 30) ["120"; "121"]%byte [] H) as (Hbig & _).
  apply Hbig. lia.
Defined.

End Frames.

(** ** The rate limiter *)

Section RateLimiter.
Local Open Scope Z_scope.
Import server.

Lemma valid_loop_filter (now w : Z) (timestamps valid : list Z) :
  valid_loop now w timestamps valid = valid ++ filter (spec.fresh now w) timestamps.
Proof.
  revert valid. induction timestamps as [|t rest IH]; intros valid; cbn [valid_loop].
  - now rewrite filter_nil, app_nil_r.
  - rewrite IH. destruct (Z.leb_spec (time.Sub now t) w) as [H|H].
    + rewrite filter_cons_True by exact H. now rewrite <- app_assoc.
    + rewrite filter_cons_False by (unfold spec.fresh; lia). reflexivity.
Qed.

(** [Allow] in one piece. *)
Lemma Allow_eq (now : Z) (ip : string) (rl : RateLimiter) :
  Allow now ip rl =
  let valid := filter (spec.fresh now (window rl)) (timestamps_of (requests rl) ip) in
  if maxRequests rl <=? Z.of_nat (length valid) then (false, rl)
  else (true, {| requests := <[ip := valid ++ [now]]> (requests rl);
                 maxRequests := maxRequests rl;
                 window := window rl |}).
Proof. unfold Allow. now rewrite valid_loop_filter. Qed.

Lemma Allow_config (now : Z) (ip : string) (rl : RateLimiter) :
  maxRequests (snd (Allow now ip rl)) = maxRequests rl
  /\ window (snd (Allow now ip rl)) = window rl.
Proof.
  rewrite Allow_eq. cbv zeta.
  destruct (maxRequests rl <=? _); split; reflexivity.
Qed.

Lemma timestamps_of_insert (m : gmap string (list Z)) (ip ip' : string) (l : list Z) :
  timestamps_of (<[ip := l]> m) ip' = if decide (ip = ip') then l else timestamps_of m ip'.
Proof.
  unfold timestamps_of. rewrite lookup_insert.
  destruct (decide (ip = ip')); reflexivity.
Qed.

Lemma timestamps_of_cleanup (now : Z) (rl : RateLimiter) (ip : string) :
  timestamps_of (requests (cleanup now rl)) ip =
  filter (spec.fresh now (window rl)) (timestamps_of (requests rl) ip).
Proof.
  unfold timestamps_of, cleanup. cbn [requests]. rewrite lookup_omap.
  destruct (requests rl !! ip) as [ts|]; cbn; [|reflexivity].
  rewrite valid_loop_filter. cbn [app].
  destruct (filter (spec.fresh now (window rl)) ts); reflexivity.
Qed.

(** A later clock value sees a longer distance to any timestamp. *)
Lemma Sub_mono (T now t : Z) : T <= now -> time.Sub T t <= time.Sub now t.
Proof.
  intros H. unfold time.Sub, time.maxDuration, time.minDuration.
  change (2 ^ 63) with 9223372036854775808.
  repeat match goal with |- context [?a <? ?b] => destruct (Z.ltb_spec a b) end; lia.
Qed.

Lemma fresh_earlier (T now w t : Z) : T <= now -> spec.fresh now w t -> spec.fresh T w t.
Proof. unfold spec.fresh. intros H1 H2. pose proof (Sub_mono T now t H1). lia. Qed.

(** With a window that is not negative, whatever is at most a window old is
    fresh. *)
Lemma fresh_recent (now w t : Z) : 0 <= w -> now - w <= t -> spec.fresh now w t.
Proof.
  intros Hw H. unfold spec.fresh, time.Sub, time.maxDuration, time.minDuration.
  change (2 ^ 63) with 9223372036854775808.
  repeat match goal with |- context [?a <? ?b] => destruct (Z.ltb_spec a b) end; lia.
Qed.

(** When the difference fits a duration, fresh means at most [w] old. *)
Lemma fresh_iff (now w t : Z) :
  time.minDuration <= now - t <= time.maxDuration ->
  spec.fresh now w t <-> now - t <= w.
Proof.
  unfold spec.fresh, time.Sub, time.maxDuration, time.minDuration.
  change (2 ^ 63) with 9223372036854775808. intros H.
  repeat match goal with |- context [?a <? ?b] => destruct (Z.ltb_spec a b) end; lia.
Qed.

Lemma filter_fresh_later (T now w : Z) (ts : list Z) :
  T <= now ->
  filter (spec.fresh now w) (filter (spec.fresh T w) ts) = filter (spec.fresh now w) ts.
Proof. intros H. apply list_filter_filter_l. intros t. now apply fresh_earlier. Qed.

(** *** Reclamation does not show *)

Lemma same_fresh_later (T now : Z) (rl1 rl2 : RateLimiter) (ip : string) :
  spec.same_fresh T rl1 rl2 -> T <= now ->
  filter (spec.fresh now (window rl1)) (timestamps_of (requests rl1) ip) =
  filter (spec.fresh now (window rl1)) (timestamps_of (requests rl2) ip).
Proof.
  intros (_ & _ & H) Hle.
  rewrite <- (filter_fresh_later T now _ (timestamps_of (requests rl1) ip)) by exact Hle.
  rewrite <- (filter_fresh_later T now _ (timestamps_of (requests rl2) ip)) by exact Hle.
  now rewrite H.
Qed.

Lemma same_fresh_Allow (T now : Z) (ip : string) (rl1 rl2 : RateLimiter) :
  spec.same_fresh T rl1 rl2 -> T <= now ->
  fst (Allow now ip rl1) = fst (Allow now ip rl2)
  /\ spec.same_fresh T (snd (Allow now ip rl1)) (snd (Allow now ip rl2)).
Proof.
  intros Hsame Hle. pose proof (same_fresh_later T now rl1 rl2 ip Hsame Hle) as Hvalid.
  destruct Hsame as (Hmax & Hwin & Hts).
  rewrite !Allow_eq. cbv zeta. rewrite <- Hmax, <- Hwin, <- Hvalid.
  destruct (maxRequests rl1 <=? _); cbn [fst snd].
  - split; [reflexivity|]. now repeat split.
  - split; [reflexivity|]. repeat split; cbn [maxRequests window requests]; try assumption.
    intros ip'. rewrite !timestamps_of_insert.
    destruct (decide (ip = ip')); [reflexivity|apply Hts].
Qed.

Lemma same_fresh_cleanup (T now : Z) (rl1 rl2 : RateLimiter) :
  spec.same_fresh T rl1 rl2 -> T <= now ->
  spec.same_fresh T (cleanup now rl1) (cleanup now rl2).
Proof.
  intros Hsame Hle. pose proof (same_fresh_later T now rl1 rl2) as Hvalid.
  destruct Hsame as (Hmax & Hwin & Hts).
  repeat split; cbn [maxRequests window]; try assumption.
  intros ip. rewrite !timestamps_of_cleanup, <- Hwin.
  rewrite Hvalid; [reflexivity|now repeat split|assumption].
Qed.

Lemma same_fresh_run (T : Z) (evs : list event) (rl1 rl2 : RateLimiter) :
  spec.same_fresh T rl1 rl2 -> Forall (fun ev => T <= fst ev) evs ->
  fst (run rl1 evs) = fst (run rl2 evs).
Proof.
  revert rl1 rl2. induction evs as [|[now [ip|]] rest IH]; intros rl1 rl2 Hsame Hall;
    [reflexivity| |]; inversion Hall as [|? ? Hnow Hrest]; subst; cbn [fst] in Hnow;
    cbn [run].
  - destruct (same_fresh_Allow T now ip rl1 rl2 Hsame Hnow) as [Hok Hsame'].
    destruct (Allow now ip rl1) as [ok1 rl1'], (Allow now ip rl2) as [ok2 rl2'].
    cbn [fst snd] in *. subst ok2.
    specialize (IH rl1' rl2' Hsame' Hrest).
    destruct (run rl1' rest), (run rl2' rest). cbn [fst] in *. now subst.
  - apply IH; [|assumption]. now apply same_fresh_cleanup.
Qed.

Lemma cleanup_same_fresh (T : Z) (rl : RateLimiter) : spec.same_fresh T (cleanup T rl) rl.
Proof.
  repeat split. intros ip. cbn [window cleanup].
  rewrite timestamps_of_cleanup. apply filter_fresh_later. lia.
Qed.

Lemma run_app (rl : RateLimiter) (evs1 evs2 : list event) :
  run rl (evs1 ++ evs2) =
  (fst (run rl evs1) ++ fst (run (snd (run rl evs1)) evs2),
   snd (run (snd (run rl evs1)) evs2)).
Proof.
  revert rl. induction evs1 as [|[now [ip|]] rest IH]; intros rl; cbn [app run].
  - cbn [fst snd app]. now destruct (run rl evs2).
  - destruct (Allow now ip rl) as [ok rl']. rewrite IH.
    destruct (run rl' rest) as [log rl'']. reflexivity.
  - apply IH.
Qed.

(** C8. A cleanup run at any point of a history, at clock value [tc],
    changes no later decision: with the clock not running backwards after
    it, the history with the cleanup and the history without it make the
    same decisions, one for one. In particular a single [Allow] right after
    the cleanup answers as it would have without it. *)
Theorem cleanup_transparent (rl : RateLimiter) (before after : list event) (tc : Z)
    (Hclock : Forall (fun ev => tc <= fst ev) after) :
  fst (run rl (before ++ (tc, CallCleanup) :: after)) = fst (run rl (before ++ after))
  /\ forall now ip, tc <= now ->
       fst (Allow now ip (cleanup tc rl)) = fst (Allow now ip rl).
Proof.
  split.
  - rewrite !run_app. cbn [fst run]. f_equal.
    apply (same_fresh_run tc); [apply cleanup_same_fresh|assumption].
  - intros now ip Hnow.
    now destruct (same_fresh_Allow tc now ip _ _ (cleanup_same_fresh tc rl) Hnow).
Qed.

(** The clock assumption is needed: were a call to read a clock value
    before that of the cleanup, the cleanup could have removed a timestamp
    that is fresh for that call. *)
Remark cleanup_then_earlier_clock :
  let rl := {| requests := {[ "192.168.1.1"%string := [0] ]};
               maxRequests := 1; window := 10 |} in
  fst (Allow 5 "192.168.1.1" rl) = false
  /\ fst (Allow 5 "192.168.1.1" (cleanup 20 rl)) = true.
Proof. vm_compute. split; reflexivity. Qed.

(** C10. A denied call leaves the limiter as it was: nothing is appended,
    the stored list of the identity is not replaced by the evicted one, and
    the calls that follow decide as if the denied call had not been made. *)
Theorem Allow_denied_unchanged (now : Z) (ip : string) (rl rl' : RateLimiter)
    (Hdenied : Allow now ip rl = (false, rl')) :
  rl' = rl
  /\ requests rl' !! ip = requests rl !! ip
  /\ forall rest,
       run rl ((now, CallAllow ip) :: rest) = ((now, ip, false) :: fst (run rl rest), snd (run rl rest)).
Proof.
  assert (Heq : rl' = rl).
  { unfold Allow in Hdenied. destruct (maxRequests rl <=? _); congruence. }
  subst rl'. split; [reflexivity|split; [reflexivity|]].
  intros rest. cbn [run]. rewrite Hdenied. now destruct (run rl rest).
Qed.

End RateLimiter.

Section SlidingWindow.
Local Open Scope Z_scope.
Import server.

Lemma filter_length_le (P Q : Z -> Prop) `{!forall x, Decision (P x), !forall x, Decision (Q x)}
    (l : list Z) :
  (forall x, P x -> Q x) -> (length (filter P l) <= length (filter Q l))%nat.
Proof.
  intros Himp. induction l as [|x l IH]; [reflexivity|].
  rewrite !filter_cons.
  destruct (decide (P x)) as [HP|HP], (decide (Q x)) as [HQ|HQ]; cbn [length];
    try lia. exfalso. auto.
Qed.

Lemma count_between_le_from (lo hi : Z) (ts : list Z) :
  (count_between lo hi ts <= spec.count_from lo ts)%nat.
Proof. apply filter_length_le. intros t. lia. Qed.

Lemma count_from_le_length (lo : Z) (ts : list Z) : (spec.count_from lo ts <= length ts)%nat.
Proof. apply length_filter. Qed.

Lemma count_from_app (lo : Z) (l1 l2 : list Z) :
  spec.count_from lo (l1 ++ l2) = (spec.count_from lo l1 + spec.count_from lo l2)%nat.
Proof. unfold spec.count_from. now rewrite filter_app, length_app. Qed.

Lemma count_between_app (lo hi : Z) (l1 l2 : list Z) :
  count_between lo hi (l1 ++ l2) = (count_between lo hi l1 + count_between lo hi l2)%nat.
Proof. unfold count_between. now rewrite filter_app, length_app. Qed.

(** Eviction at [now] keeps every timestamp from [now - window] on. *)
Lemma count_from_fresh (now w lo : Z) (ts : list Z) :
  0 <= w -> now - w <= lo ->
  spec.count_from lo (filter (spec.fresh now w) ts) = spec.count_from lo ts.
Proof.
  intros Hw Hlo. unfold spec.count_from. f_equal.
  apply list_filter_filter_l. intros t Ht. apply fresh_recent; lia.
Qed.

Lemma admissions_app (ip : string) (l1 l2 : list decision) :
  admissions ip (l1 ++ l2) = admissions ip l1 ++ admissions ip l2.
Proof.
  induction l1 as [|[[t ip'] ok] l1 IH]; cbn [app admissions]; [reflexivity|].
  destruct (ok && String.eqb ip ip')%bool; cbn [app]; now rewrite IH.
Qed.

Lemma accounted_nil (T : Z) (rl : RateLimiter) :
  0 <= maxRequests rl -> spec.accounted T [] rl.
Proof.
  intros H. split; intros ip lo; cbn; [intros _|]; unfold spec.count_from; cbn; lia.
Qed.

Lemma accounted_Allow (T now : Z) (ip : string) (past : list decision) (rl : RateLimiter) :
  0 <= window rl -> T <= now -> spec.accounted T past rl ->
  spec.accounted now (past ++ [(now, ip, fst (Allow now ip rl))]) (snd (Allow now ip rl)).
Proof.
  intros Hw Hle [Hstored Hwindows]. rewrite Allow_eq. cbv zeta.
  set (ts := timestamps_of (requests rl) ip).
  set (valid := filter (spec.fresh now (window rl)) ts).
  destruct (Z.leb_spec (maxRequests rl) (Z.of_nat (length valid))) as [Hfull|Hroom];
    cbn [fst snd].
  - (* denied *)
    split; intros ip' lo; rewrite admissions_app; cbn [admissions andb app];
      rewrite app_nil_r.
    + intros Hlo. apply Hstored. lia.
    + apply Hwindows.
  - (* admitted *)
    assert (Hvalid : forall lo, now - window rl <= lo ->
              (spec.count_from lo (admissions ip past) <= spec.count_from lo valid)%nat).
    { intros lo Hlo. subst valid. rewrite count_from_fresh by lia.
      apply Hstored. lia. }
    split; intros ip' lo; rewrite admissions_app; cbn [admissions andb app requests window maxRequests].
    + intros Hlo. rewrite timestamps_of_insert.
      destruct (String.eqb_spec ip' ip) as [->|Hne].
      * destruct (decide (ip = ip)); [|contradiction].
        rewrite !count_from_app. specialize (Hvalid lo Hlo). lia.
      * destruct (decide (ip = ip')); [congruence|].
        rewrite app_nil_r. apply Hstored. lia.
    + destruct (String.eqb_spec ip' ip) as [->|Hne]; [|rewrite app_nil_r; apply Hwindows].
      rewrite count_between_app.
      destruct (decide (lo <= now <= lo + window rl)) as [Hin|Hout].
      * assert (Hlo : now - window rl <= lo) by lia.
        specialize (Hvalid lo Hlo).
        pose proof (count_between_le_from lo (lo + window rl) (admissions ip past)).
        pose proof (count_from_le_length lo valid).
        assert (count_between lo (lo + window rl) [now] <= 1)%nat
          by (unfold count_between; etransitivity; [apply length_filter|reflexivity]).
        lia.
      * unfold count_between at 2. rewrite filter_cons_False by exact Hout.
        rewrite filter_nil. cbn [length]. rewrite Nat.add_0_r. apply Hwindows.
Qed.

Lemma accounted_cleanup (T now : Z) (past : list decision) (rl : RateLimiter) :
  0 <= window rl -> T <= now -> spec.accounted T past rl ->
  spec.accounted now past (cleanup now rl).
Proof.
  intros Hw Hle [Hstored Hwindows]. split; intros ip lo; cbn [window maxRequests cleanup].
  - intros Hlo. rewrite timestamps_of_cleanup, count_from_fresh by lia.
    apply Hstored. lia.
  - apply Hwindows.
Qed.

Lemma accounted_run (evs : list event) (T : Z) (past : list decision) (rl : RateLimiter) :
  0 <= window rl -> spec.accounted T past rl -> monotone (T :: clock evs) ->
  forall ip lo,
    Z.of_nat (count_between lo (lo + window rl) (admissions ip (past ++ fst (run rl evs))))
    <= maxRequests rl.
Proof.
  revert T past rl. induction evs as [|[now [ip0|]] rest IH]; intros T past rl Hw Hacc Hmono.
  - intros ip lo. cbn [run fst]. rewrite app_nil_r. apply Hacc.
  - destruct Hmono as [HT Hmono]. inversion HT as [|? ? Hnow _]; subst.
    cbn [clock map fst] in *. intros ip lo. cbn [run].
    pose proof (accounted_Allow T now ip0 past rl Hw Hnow Hacc) as Hacc'.
    destruct (Allow_config now ip0 rl) as [Hmax' Hwin'].
    destruct (Allow now ip0 rl) as [ok rl']. cbn [fst snd] in *.
    specialize (IH now (past ++ [(now, ip0, ok)]) rl').
    rewrite Hwin', Hmax' in IH. specialize (IH Hw Hacc' Hmono ip lo).
    destruct (run rl' rest) as [log rl'']. cbn [fst] in *.
    now rewrite <- app_assoc in IH.
  - destruct Hmono as [HT Hmono]. inversion HT as [|? ? Hnow _]; subst.
    cbn [clock map fst] in *. intros ip lo. cbn [run].
    apply (IH now past (cleanup now rl)); [assumption| |assumption].
    now apply accounted_cleanup with (T := T).
Qed.

(** C2. [Allow] admits exactly when fewer than [maxRequests] of the
    identity's recorded timestamps are within the last [window] before the
    clock value it reads, and an admission stores that clock value as the
    identity's latest timestamp. Consequently, with a clock that does not run
    backwards and a limit that is not negative, no closed interval of length
    [window] contains more than [maxRequests] admissions of one identity,
    whatever the calls and cleanups of the history are. *)
Theorem Allow_sliding_window (rl : RateLimiter) (now : Z) (ip : string)
    (evs : list event) (lo : Z)
    (Hmax : 0 <= maxRequests rl) (Hclock : monotone (clock evs)) :
  (fst (Allow now ip rl) = true <->
     Z.of_nat (length (filter (spec.fresh now (window rl)) (timestamps_of (requests rl) ip)))
     < maxRequests rl)
  /\ (fst (Allow now ip rl) = true ->
        timestamps_of (requests (snd (Allow now ip rl))) ip =
        filter (spec.fresh now (window rl)) (timestamps_of (requests rl) ip) ++ [now])
  /\ Z.of_nat (count_between lo (lo + window rl) (admissions ip (fst (run rl evs))))
     <= maxRequests rl.
Proof.
  split; [|split].
  - rewrite Allow_eq. cbv zeta.
    destruct (Z.leb_spec (maxRequests rl) (Z.of_nat (length
                (filter (spec.fresh now (window rl)) (timestamps_of (requests rl) ip)))));
      cbn [fst]; split; intros; (lia || congruence).
  - rewrite Allow_eq. cbv zeta.
    destruct (maxRequests rl <=? _); cbn [fst snd requests]; [discriminate|].
    intros _. rewrite timestamps_of_insert.
    destruct (decide (ip = ip)); [reflexivity|contradiction].
  - destruct (Z.lt_ge_cases (window rl) 0) as [Hneg|Hw].
    + assert (Hempty : count_between lo (lo + window rl)
                         (admissions ip (fst (run rl evs))) = 0%nat).
      { unfold count_between.
        induction (admissions ip (fst (run rl evs))) as [|t l IH]; [reflexivity|].
        rewrite filter_cons_False by lia. exact IH. }
      rewrite Hempty. simpl. exact Hmax.
    + destruct evs as [|[t0 c0] rest] eqn:E; [cbn; unfold count_between; cbn; lia|].
      rewrite <- E in *.
      apply (accounted_run evs t0 [] rl Hw (accounted_nil t0 rl Hmax)).
      split; [|exact Hclock]. subst evs. cbn [clock map fst monotone] in *.
      destruct Hclock as [Hhead _]. constructor; [lia|exact Hhead].
Qed.

End SlidingWindow.

Section RateLimiterExamples.
Local Open Scope Z_scope.
Import server.

Lemma Allow_sliding_window_witness :
  0 <= maxRequests examples.limiter
  /\ monotone (clock examples.history)
  /\ fst (run examples.limiter examples.history)
     = [ (0, "192.168.1.1"%string, true); (1, "192.168.1.1"%string, true);
         (2, "192.168.1.1"%string, true); (3, "192.168.1.1"%string, false);
         (1100000000, "192.168.1.1"%string, false);
         (2100000000, "192.168.1.1"%string, true) ]
  /\ Z.of_nat (count_between 0 (0 + window examples.limiter)
                 (admissions "192.168.1.1" (fst (run examples.limiter examples.history))))
     <= maxRequests examples.limiter.
Proof.
  assert (H1 : 0 <= maxRequests examples.limiter) by (simpl; lia).
  assert (H2 : monotone (clock examples.history))
    by (simpl; repeat split; repeat constructor; lia).
  split; [exact H1|split; [exact H2|split; [vm_compute; reflexivity|]]].
  exact (proj2 (proj2 (Allow_sliding_window examples.limiter 0 "192.168.1.1"
                         examples.history 0 H1 H2))).
Defined.

Lemma cleanup_transparent_witness :
  Forall (fun ev => 1500000000 <= fst ev) [(2100000000, CallAllow "192.168.1.1")]
  /\ fst (run examples.limiter
            (firstn 5 examples.history ++ (1500000000, CallCleanup)
               :: [(2100000000, CallAllow "192.168.1.1")]))
     = fst (run examples.limiter
              (firstn 5 examples.history ++ [(2100000000, CallAllow "192.168.1.1")])).
Proof.
  assert (H : Forall (fun ev => 1500000000 <= fst ev) [(2100000000, CallAllow "192.168.1.1")])
    by (repeat constructor; simpl; lia).
  split; [exact H|].
  exact (proj1 (cleanup_transparent examples.limiter (firstn 5 examples.history)
                  [(2100000000, CallAllow "192.168.1.1")] 1500000000 H)).
Defined.

Lemma Allow_denied_unchanged_witness :
  Allow 5 "192.168.1.1" examples.full_limiter = (false, examples.full_limiter)
  /\ forall rest,
       run examples.full_limiter ((5, CallAllow "192.168.1.1") :: rest)
       = ((5, "192.168.1.1"%string, false) :: fst (run examples.full_limiter rest),
          snd (run examples.full_limiter rest)).
Proof.
  assert (H : Allow 5 "192.168.1.1" examples.full_limiter = (false, examples.full_limiter))
    by (vm_compute; reflexivity).
  split; [exact H|].
  exact (proj2 (proj2 (Allow_denied_unchanged 5 "192.168.1.1" examples.full_limiter
                         examples.full_limiter H))).
Defined.

End RateLimiterExamples.

(** * Further properties of the code *)

(** ** The digest has 32 bytes *)

Section DigestLength.
Local Open Scope Z_scope.
Import sha256.

Lemma step_length (s : list Z) (kw : Z * Z) : length s = 8%nat -> length (step s kw) = 8%nat.
Proof.
  intros H. do 8 (destruct s as [|? s]; [discriminate H|]).
  destruct s; [reflexivity|discriminate H].
Qed.

Lemma fold_step_length (kws : list (Z * Z)) (s : list Z) :
  length s = 8%nat -> length (fold_left step kws s) = 8%nat.
Proof.
  revert s. induction kws as [|kw kws IH]; intros s H; [exact H|].
  cbn [fold_left]. apply IH. now apply step_length.
Qed.

Lemma block_length (s : list Z) (chunk : list byte) :
  length s = 8%nat -> length (block s chunk) = 8%nat.
Proof.
  intros H. unfold block, zip_with_add.
  rewrite length_map, length_combine, fold_step_length by exact H.
  rewrite H. reflexivity.
Qed.

Lemma blocks_length (n : nat) (s : list Z) (bs : list byte) :
  length s = 8%nat -> length (blocks n s bs) = 8%nat.
Proof.
  revert s bs. induction n as [|k IH]; intros s bs H; [exact H|].
  cbn [blocks]. apply IH. now apply block_length.
Qed.

Lemma Sum256_length (data : list byte) : length (Sum256 data) = 32%nat.
Proof.
  unfold Sum256.
  pose proof (blocks_length (Nat.div (length (pad data)) 64) initial_state (pad data) eq_refl) as H.
  destruct (blocks _ _ _) as [|w0 l]; [discriminate H|].
  do 7 (destruct l as [|? l]; [discriminate H|]).
  destruct l; [reflexivity|discriminate H].
Qed.

End DigestLength.

(** ** Leading zero bits and the digest as a number *)

Section Target.
Local Open Scope Z_scope.
Import pow.

Lemma be_value_range (bs : list byte) : 0 <= be_value bs < 256 ^ Z.of_nat (length bs).
Proof.
  induction bs as [|b bs IH].
  - unfold be_value. simpl. lia.
  - rewrite be_value_cons. pose proof (Z_of_byte_range b) as Hb.
    cbn [length]. rewrite Nat2Z.inj_succ, Z.pow_succ_r by lia. nia.
Qed.

Lemma log2_shifted (b m r : Z) :
  0 < b -> 0 <= m -> 0 <= r < 2 ^ m -> Z.log2 (b * 2 ^ m + r) = Z.log2 b + m.
Proof.
  intros Hb Hm Hr. apply Z.log2_unique.
  - pose proof (Z.log2_nonneg b). lia.
  - destruct (Z.log2_spec b Hb) as [Hlo Hhi].
    rewrite <- Z.add_succ_l, !Z.pow_add_r by (try apply Z.log2_nonneg; lia || (pose proof (Z.log2_nonneg b); lia)).
    assert (0 < 2 ^ m) by (apply Z.pow_pos_nonneg; lia).
    split; nia.
Qed.

(** The count of a digest against the number it denotes, most significant
    byte first. *)
Lemma first_nonzero_value (d : list byte) :
  match spec.first_nonzero d with
  | None => be_value d = 0 /\ spec.leading_zero_bytes d = length d
  | Some b =>
      0 < be_value d
      /\ Z.log2 (be_value d) =
           Z.log2 (Z_of_byte b)
           + 8 * (Z.of_nat (length d) - Z.of_nat (spec.leading_zero_bytes d) - 1)
  end.
Proof.
  induction d as [|b0 rest IH]; [now split|].
  cbn [spec.first_nonzero spec.leading_zero_bytes length].
  rewrite be_value_cons.
  pose proof (Z_of_byte_range b0) as Hb0. pose proof (be_value_range rest) as Hrest.
  destruct (Z.eqb_spec (Z_of_byte b0) 0) as [Hz|Hnz].
  - rewrite Hz, Z.mul_0_l, Z.add_0_l.
    destruct (spec.first_nonzero rest) as [b|].
    + destruct IH as [Hpos Hlog]. split; [exact Hpos|]. rewrite Hlog. lia.
    + destruct IH as [Hv Hl]. split; [exact Hv|]. now rewrite Hl.
  - change 256 with (2 ^ 8) in *. rewrite <- Z.pow_mul_r in * by lia.
    assert (0 < 2 ^ (8 * Z.of_nat (length rest))) by (apply Z.pow_pos_nonneg; lia).
    split; [nia|].
    rewrite log2_shifted by lia. lia.
Qed.

Lemma CountLeadingZeroBits_bounds (d : list byte) :
  0 <= CountLeadingZeroBits d <= 8 * Z.of_nat (length d).
Proof.
  unfold CountLeadingZeroBits. rewrite byte_loop_spec.
  pose proof (leading_zero_bytes_le d) as Hle.
  destruct (spec.first_nonzero d) as [b|] eqn:E; [|lia].
  apply first_nonzero_Some in E as [Hnz Hlt].
  pose proof (high_zero_bits_range b Hnz). lia.
Qed.

(** The count is at least [k] exactly when the digest, read as a 256-bit
    number with the most significant byte first, is below [2 ^ (256 - k)]:
    the difficulty test is a comparison with a target. *)
Theorem CountLeadingZeroBits_target (d : list byte) (k : Z)
    (Hlen : length d = 32%nat) (Hk : 0 <= k <= 256) :
  k <= CountLeadingZeroBits d <-> be_value d < 2 ^ (256 - k).
Proof.
  unfold CountLeadingZeroBits. rewrite byte_loop_spec.
  pose proof (first_nonzero_value d) as Hv.
  destruct (spec.first_nonzero d) as [b|] eqn:E.
  - destruct Hv as [Hpos Hlog]. rewrite Hlen in Hlog.
    unfold spec.high_zero_bits.
    rewrite (Z.log2_lt_pow2 (be_value d) (256 - k) Hpos). lia.
  - destruct Hv as [Hv Hl]. rewrite Hv, Hl, Hlen.
    assert (0 < 2 ^ (256 - k)) by (apply Z.pow_pos_nonneg; lia). lia.
Qed.

Lemma CountLeadingZeroBits_target_witness :
  length (spec.digest_from ["000"%byte; "015"%byte]) = 32%nat /\ 0 <= 12 <= 256
  /\ (12 <= CountLeadingZeroBits (spec.digest_from ["000"%byte; "015"%byte]) <->
      be_value (spec.digest_from ["000"%byte; "015"%byte]) < 2 ^ (256 - 12)).
Proof.
  assert (H1 : length (spec.digest_from ["000"%byte; "015"%byte]) = 32%nat) by reflexivity.
  assert (H2 : 0 <= 12 <= 256) by lia.
  split; [exact H1|split; [exact H2|]].
  exact (CountLeadingZeroBits_target (spec.digest_from ["000"%byte; "015"%byte]) 12 H1 H2).
Defined.

End Target.

(** ** The difficulty at its ends *)

Section DifficultyEdges.
Local Open Scope Z_scope.
Import pow.

Variable Sum256 : list byte -> list byte.

(** A difficulty of zero or less asks for nothing: every nonce passes for
    the challenge's identity and [Solve] returns the first nonce it tries. *)
Theorem Verify_trivial_difficulty (c : Challenge) (Hd : Difficulty c <= 0) :
  (forall nonce, Verify Sum256 c nonce (ClientIP c) = true)
  /\ Solve Sum256 c = (0, None).
Proof.
  assert (Hall : forall nonce,
            Difficulty c <= CountLeadingZeroBits (ComputeHash Sum256 c nonce)).
  { intros nonce. pose proof (CountLeadingZeroBits_bounds (ComputeHash Sum256 c nonce)). lia. }
  split.
  - intros nonce. apply Verify_true. split; [reflexivity|apply Hall].
  - apply range_loop_found; [unfold MaxUint64; lia|apply Hall|intros m Hm; lia].
Qed.

(** The digest does not cover the difficulty, so a nonce that passes keeps
    passing when the difficulty of the same challenge is lowered. *)
Theorem Verify_lower_difficulty (c : Challenge) (nonce d : Z) (clientIP : string)
    (Hd : d <= Difficulty c) (Hok : Verify Sum256 c nonce clientIP = true) :
  ComputeHash Sum256 (more.with_difficulty c d) nonce = ComputeHash Sum256 c nonce
  /\ Verify Sum256 (more.with_difficulty c d) nonce clientIP = true.
Proof.
  assert (Hhash : ComputeHash Sum256 (more.with_difficulty c d) nonce
                  = ComputeHash Sum256 c nonce) by reflexivity.
  split; [exact Hhash|].
  apply Verify_true in Hok as [Hip Hclz]. apply Verify_true.
  rewrite Hhash. cbn [more.with_difficulty ClientIP Difficulty]. split; [exact Hip|lia].
Qed.

Lemma range_loop_cases (c : Challenge) (iters : nat) (start : Z) :
  (range_loop Sum256 c iters start = (0, Some "no solution found"%string)
   /\ forall m, start <= m < start + Z.of_nat iters ->
        CountLeadingZeroBits (ComputeHash Sum256 c m) < Difficulty c)
  \/ (exists n, range_loop Sum256 c iters start = (n, None)
        /\ start <= n < start + Z.of_nat iters
        /\ Difficulty c <= CountLeadingZeroBits (ComputeHash Sum256 c n)
        /\ forall m, start <= m < n ->
             CountLeadingZeroBits (ComputeHash Sum256 c m) < Difficulty c).
Proof.
  revert start. induction iters as [|k IH]; intros start.
  - left. split; [reflexivity|intros m Hm; lia].
  - cbn [range_loop].
    destruct (Z.leb_spec (Difficulty c) (CountLeadingZeroBits (ComputeHash Sum256 c start)))
      as [Hok|Hno].
    + right. exists start. repeat split; try lia.
    + destruct (IH (start + 1)) as [[Hrun Hall]|(n & Hrun & Hn & Hok & Hleast)].
      * left. split; [exact Hrun|]. intros m Hm.
        destruct (Z.eq_dec m start) as [->|]; [exact Hno|apply Hall; lia].
      * right. exists n. repeat split; try lia; try assumption.
        intros m Hm. destruct (Z.eq_dec m start) as [->|]; [exact Hno|apply Hleast; lia].
Qed.

(** [Solve] gives up only when it has to: it returns the error, with nonce
    0, exactly when none of the nonces 0 to 2^64 - 2 passes [Verify];
    otherwise it returns without error a nonce of that range that passes. *)
Theorem Solve_error_only_when_exhausted (c : Challenge) :
  (Solve Sum256 c = (0, Some "no solution found"%string)
   /\ forall m, 0 <= m < MaxUint64 -> Verify Sum256 c m (ClientIP c) = false)
  \/ (exists n, Solve Sum256 c = (n, None)
        /\ 0 <= n < MaxUint64
        /\ Verify Sum256 c n (ClientIP c) = true).
Proof.
  destruct (range_loop_cases c (Z.to_nat MaxUint64) 0)
    as [[Hrun Hall]|(n & Hrun & Hn & Hok & _)];
    rewrite ?Z2Nat.id in * by (unfold MaxUint64; lia).
  - left. split; [exact Hrun|]. intros m Hm.
    destruct (Verify Sum256 c m (ClientIP c)) eqn:E; [|reflexivity].
    apply Verify_true in E as [_ E]. specialize (Hall m). lia.
  - right. exists n. repeat split; try lia; try exact Hrun.
    apply Verify_true. split; [reflexivity|exact Hok].
Qed.

End DifficultyEdges.

Section DifficultyEdgesSHA.
Local Open Scope Z_scope.
Import pow.

(** A difficulty above 256 cannot be met: a SHA-256 digest has 256 bits, so
    [Verify] rejects every nonce for every identity and [Solve] runs through
    its whole range and returns the error. *)
Theorem Verify_impossible_difficulty (c : Challenge) (Hd : 256 < Difficulty c) :
  (forall nonce clientIP, Verify sha256.Sum256 c nonce clientIP = false)
  /\ Solve sha256.Sum256 c = (0, Some "no solution found"%string).
Proof.
  assert (Hall : forall nonce,
            CountLeadingZeroBits (ComputeHash sha256.Sum256 c nonce) < Difficulty c).
  { intros nonce.
    pose proof (CountLeadingZeroBits_bounds (ComputeHash sha256.Sum256 c nonce)) as H.
    assert (Hlen : length (ComputeHash sha256.Sum256 c nonce) = 32%nat)
      by (unfold ComputeHash; apply Sum256_length).
    rewrite Hlen in H. lia. }
  split.
  - intros nonce clientIP.
    destruct (Verify sha256.Sum256 c nonce clientIP) eqn:E; [|reflexivity].
    apply Verify_true in E as [_ E]. specialize (Hall nonce). lia.
  - apply range_loop_none. intros m _. apply Hall.
Qed.

Lemma Verify_trivial_difficulty_witness :
  Difficulty (more.with_difficulty examples.challenge 0) <= 0
  /\ Solve sha256.Sum256 (more.with_difficulty examples.challenge 0) = (0, None).
Proof.
  assert (H : Difficulty (more.with_difficulty examples.challenge 0) <= 0) by (simpl; lia).
  split; [exact H|].
  exact (proj2 (Verify_trivial_difficulty sha256.Sum256
                  (more.with_difficulty examples.challenge 0) H)).
Defined.

Lemma Verify_lower_difficulty_witness :
  4 <= Difficulty examples.challenge
  /\ Verify sha256.Sum256 examples.challenge 290 "127.0.0.1" = true
  /\ Verify sha256.Sum256 (more.with_difficulty examples.challenge 4) 290 "127.0.0.1" = true.
Proof.
  assert (H1 : 4 <= Difficulty examples.challenge) by (simpl; lia).
  assert (H2 : Verify sha256.Sum256 examples.challenge 290 "127.0.0.1" = true)
    by (vm_compute; reflexivity).
  split; [exact H1|split; [exact H2|]].
  exact (proj2 (Verify_lower_difficulty sha256.Sum256 examples.challenge 290 4
                  "127.0.0.1" H1 H2)).
Defined.

Lemma Verify_impossible_difficulty_witness :
  256 < Difficulty (more.with_difficulty examples.challenge 257)
  /\ Solve sha256.Sum256 (more.with_difficulty examples.challenge 257)
     = (0, Some "no solution found"%string).
Proof.
  assert (H : 256 < Difficulty (more.with_difficulty examples.challenge 257)) by (simpl; lia).
  split; [exact H|].
  exact (proj2 (Verify_impossible_difficulty (more.with_difficulty examples.challenge 257) H)).
Defined.

End DifficultyEdgesSHA.

(** ** More on the rate limiter *)

Section RateLimiterMore.
Local Open Scope Z_scope.
Import server.

Lemma Allow_other (now : Z) (ip ip' : string) (rl : RateLimiter) :
  ip' <> ip ->
  timestamps_of (requests (snd (Allow now ip' rl))) ip = timestamps_of (requests rl) ip.
Proof.
  intros Hne. rewrite Allow_eq. cbv zeta.
  destruct (maxRequests rl <=? _); cbn [snd requests]; [reflexivity|].
  rewrite timestamps_of_insert. destruct (decide (ip' = ip)); [contradiction|reflexivity].
Qed.

(** The decision of [Allow] and the list it leaves for its identity depend
    on the configuration and on that identity's list only. *)
Lemma Allow_same_list (now : Z) (ip : string) (rl1 rl2 : RateLimiter) :
  maxRequests rl1 = maxRequests rl2 -> window rl1 = window rl2 ->
  timestamps_of (requests rl1) ip = timestamps_of (requests rl2) ip ->
  fst (Allow now ip rl1) = fst (Allow now ip rl2)
  /\ timestamps_of (requests (snd (Allow now ip rl1))) ip
     = timestamps_of (requests (snd (Allow now ip rl2))) ip.
Proof.
  intros Hmax Hwin Hts. rewrite !Allow_eq. cbv zeta. rewrite <- Hmax, <- Hwin, <- Hts.
  destruct (maxRequests rl1 <=? _); cbn [fst snd requests]; [now split|].
  split; [reflexivity|]. rewrite !timestamps_of_insert.
  destruct (decide (ip = ip)); [reflexivity|contradiction].
Qed.

(** Identities do not interfere. The decisions a history makes for one
    identity are those of the history with every other identity's calls
    taken out, whatever the clock values are. *)
Theorem Allow_isolated (rl : RateLimiter) (evs : list event) (ip : string) :
  more.decisions_for ip (fst (run rl evs)) = fst (run rl (filter (more.concerns ip) evs)).
Proof.
  assert (Hgen : forall calls rl1 rl2,
            maxRequests rl1 = maxRequests rl2 -> window rl1 = window rl2 ->
            timestamps_of (requests rl1) ip = timestamps_of (requests rl2) ip ->
            more.decisions_for ip (fst (run rl1 calls))
            = fst (run rl2 (filter (more.concerns ip) calls))).
  { induction calls as [|[now [ip'|]] rest IH]; intros rl1 rl2 Hmax Hwin Hts.
    - reflexivity.
    - destruct (Allow_config now ip' rl1) as [Hmax1 Hwin1].
      destruct (decide (ip' = ip)) as [->|Hne].
      + rewrite filter_cons_True by reflexivity. cbn [run].
        destruct (Allow_same_list now ip rl1 rl2 Hmax Hwin Hts) as [Hok Hts'].
        destruct (Allow_config now ip rl2) as [Hmax2 Hwin2].
        destruct (Allow now ip rl1) as [ok1 rl1'], (Allow now ip rl2) as [ok2 rl2'].
        cbn [fst snd] in *. subst ok2.
        specialize (IH rl1' rl2'). rewrite Hmax1, Hwin1, Hmax2, Hwin2 in IH.
        specialize (IH Hmax Hwin Hts').
        destruct (run rl1' rest) as [log1 ?], (run rl2' (filter _ rest)) as [log2 ?].
        cbn [fst] in *. unfold more.decisions_for in *.
        rewrite filter_cons_True by reflexivity. now rewrite IH.
      + rewrite filter_cons_False by (unfold more.concerns; cbn; exact Hne). cbn [run].
        pose proof (Allow_other now ip ip' rl1 Hne) as Hsame.
        destruct (Allow now ip' rl1) as [ok1 rl1']. cbn [fst snd] in *.
        specialize (IH rl1' rl2). rewrite Hmax1, Hwin1, Hsame in IH.
        specialize (IH Hmax Hwin Hts).
        destruct (run rl1' rest) as [log1 ?]. cbn [fst] in *.
        unfold more.decisions_for in *.
        rewrite filter_cons_False by (cbn; exact Hne). exact IH.
    - rewrite filter_cons_True by exact I. cbn [run].
      apply IH; cbn [cleanup maxRequests window]; try assumption.
      rewrite !timestamps_of_cleanup. now rewrite Hwin, Hts.
  }
  now apply Hgen.
Qed.

(** *** What the map holds *)

Lemma cleanup_lookup (T : Z) (rl : RateLimiter) (ip : string) :
  requests (cleanup T rl) !! ip =
  match requests rl !! ip with
  | Some ts =>
      match filter (spec.fresh T (window rl)) ts with
      | [] => None
      | valid => Some valid
      end
  | None => None
  end.
Proof.
  unfold cleanup. cbn [requests]. rewrite lookup_omap.
  destruct (requests rl !! ip) as [ts|]; cbn; [|reflexivity].
  rewrite valid_loop_filter. cbn [app].
  destruct (filter (spec.fresh T (window rl)) ts); reflexivity.
Qed.


(** A cleanup keeps, for each identity, exactly its fresh timestamps, and
    drops the identity when none is left: what stays is never an empty list
    and never holds an expired timestamp, and no identity is added. *)
Theorem cleanup_entries (T : Z) (rl : RateLimiter) (ip : string) :
  (forall kept, requests (cleanup T rl) !! ip = Some kept <->
     kept <> [] /\ exists ts, requests rl !! ip = Some ts
                              /\ kept = filter (spec.fresh T (window rl)) ts)
  /\ (requests (cleanup T rl) !! ip = None <->
        Forall (fun t => ~ spec.fresh T (window rl) t) (timestamps_of (requests rl) ip))
  /\ (forall kept, requests (cleanup T rl) !! ip = Some kept ->
        Forall (spec.fresh T (window rl)) kept).
Proof.
  rewrite cleanup_lookup. unfold timestamps_of.
  destruct (requests rl !! ip) as [ts|].
  - assert (Hnil : filter (spec.fresh T (window rl)) ts = [] <->
                   Forall (fun t => ~ spec.fresh T (window rl) t) ts).
    { induction ts as [|t ts IH]; [split; [constructor|reflexivity]|].
      rewrite filter_cons. destruct (decide (spec.fresh T (window rl) t)) as [Hf|Hf].
      - split; [discriminate|]. intros H. inversion H; contradiction.
      - rewrite IH. split; [now constructor|]. intros H. now inversion H. }
    assert (Hall : Forall (spec.fresh T (window rl)) (filter (spec.fresh T (window rl)) ts)).
    { apply Forall_forall. intros t Ht. apply list_elem_of_filter in Ht. tauto. }
    destruct (filter (spec.fresh T (window rl)) ts) as [|v valid] eqn:E.
    + split; [|split].
      * intros kept. split; [discriminate|]. intros [Hne (ts' & [= <-] & ->)]. contradiction.
      * split; [intros _; now apply Hnil|reflexivity].
      * discriminate.
    + split; [|split].
      * intros kept. split.
        -- intros [= <-]. split; [discriminate|]. exists ts. now rewrite E.
        -- intros [_ (ts' & [= <-] & ->)]. now rewrite E.
      * split; [discriminate|]. intros H. apply Hnil in H. discriminate.
      * intros kept [= <-]. exact Hall.
  - split; [|split].
    + intros kept. split; [discriminate|]. intros [_ (ts' & Hts & _)]. discriminate.
    + split; [constructor|reflexivity].
    + discriminate.
Qed.

(** A later cleanup makes an earlier one redundant: after both, the limiter
    is what the later one alone leaves. In particular a cleanup repeated at
    the same clock value changes nothing more. *)
Theorem cleanup_absorbs (t1 t2 : Z) (rl : RateLimiter) (Hle : t1 <= t2) :
  cleanup t2 (cleanup t1 rl) = cleanup t2 rl.
Proof.
  assert (Hreq : requests (cleanup t2 (cleanup t1 rl)) = requests (cleanup t2 rl)).
  { apply map_eq. intros ip. rewrite !cleanup_lookup. cbn [window cleanup].
    destruct (requests rl !! ip) as [ts|]; [|reflexivity].
    pose proof (filter_fresh_later t1 t2 (window rl) ts Hle) as Hlater.
    destruct (filter (spec.fresh t1 (window rl)) ts) as [|v valid] eqn:E.
    - rewrite <- Hlater. reflexivity.
    - now rewrite Hlater. }
  unfold cleanup in *. cbn [requests maxRequests window] in *. now rewrite Hreq.
Qed.

Lemma cleanup_absorbs_witness :
  1500000000 <= 2500000000
  /\ cleanup 2500000000 (cleanup 1500000000 examples.full_limiter)
     = cleanup 2500000000 examples.full_limiter.
Proof.
  assert (H : 1500000000 <= 2500000000) by lia.
  split; [exact H|].
  exact (cleanup_absorbs 1500000000 2500000000 examples.full_limiter H).
Defined.

End RateLimiterMore.

Section RateLimiterHistory.
Local Open Scope Z_scope.
Import server.

Lemma monotone_app (l1 l2 : list Z) :
  monotone (l1 ++ l2) <->
  monotone l1 /\ monotone l2 /\ Forall (fun a => Forall (fun b => a <= b) l2) l1.
Proof.
  induction l1 as [|a l1 IH]; cbn [app monotone].
  - split; [intros H; repeat split; [exact H|constructor]|tauto].
  - rewrite IH, Forall_app. split.
    + intros [[H1 H2] (H3 & H4 & H5)]. repeat split; try assumption. now constructor.
    + intros ([H1 H3] & H4 & H5). inversion H5; subst. tauto.
Qed.

Lemma clock_app (evs1 evs2 : list event) : clock (evs1 ++ evs2) = clock evs1 ++ clock evs2.
Proof. unfold clock. apply map_app. Qed.

Lemma run_config (evs : list event) (rl : RateLimiter) :
  maxRequests (snd (run rl evs)) = maxRequests rl /\ window (snd (run rl evs)) = window rl.
Proof.
  revert rl. induction evs as [|[now [ip|]] rest IH]; intros rl; cbn [run].
  - now split.
  - destruct (Allow_config now ip rl) as [Hm Hw].
    destruct (Allow now ip rl) as [ok rl']. cbn [snd] in *.
    specialize (IH rl'). destruct (run rl' rest) as [log rl'']. cbn [snd] in *.
    rewrite <- Hm, <- Hw. exact IH.
  - apply (IH (cleanup now rl)).
Qed.

(** *** The decision in terms of the admissions made so far *)

Lemma tracked_Allow (T now : Z) (ip : string) (past : list decision) (rl : RateLimiter) :
  T <= now -> more.tracked T past rl ->
  more.tracked now (past ++ [(now, ip, fst (Allow now ip rl))]) (snd (Allow now ip rl)).
Proof.
  intros Hle Htr ip' now' Hnow'.
  destruct (Allow_config now ip rl) as [_ Hwin]. rewrite Hwin.
  rewrite admissions_app, filter_app. cbn [admissions].
  specialize (Htr ip' now' ltac:(lia)).
  rewrite Allow_eq. cbv zeta.
  destruct (maxRequests rl <=? _); cbn [fst snd requests andb app].
  - rewrite filter_nil, app_nil_r. exact Htr.
  - rewrite timestamps_of_insert.
    destruct (String.eqb_spec ip' ip) as [->|Hne].
    + destruct (decide (ip = ip)); [|contradiction].
      rewrite filter_app, filter_fresh_later by exact Hnow'. now rewrite Htr.
    + destruct (decide (ip = ip')); [congruence|].
      rewrite filter_nil, app_nil_r. exact Htr.
Qed.

Lemma tracked_cleanup (T now : Z) (past : list decision) (rl : RateLimiter) :
  T <= now -> more.tracked T past rl -> more.tracked now past (cleanup now rl).
Proof.
  intros Hle Htr ip now' Hnow'. cbn [window cleanup].
  rewrite timestamps_of_cleanup, filter_fresh_later by exact Hnow'.
  apply Htr. lia.
Qed.

Lemma tracked_run (evs : list event) (T : Z) (past : list decision) (rl : RateLimiter) :
  more.tracked T past rl -> monotone (T :: clock evs) ->
  exists T', T <= T' /\ Forall (fun t => t <= T') (clock evs)
             /\ (forall t, Forall (fun u => u <= t) (T :: clock evs) -> T' <= t)
             /\ more.tracked T' (past ++ fst (run rl evs)) (snd (run rl evs)).
Proof.
  revert T past rl. induction evs as [|[now [ip|]] rest IH]; intros T past rl Htr Hmono.
  - exists T. cbn [run fst snd clock map]. rewrite app_nil_r.
    repeat split; [lia|constructor| |exact Htr]. intros t Ht. now inversion Ht.
  - destruct Hmono as [HT Hmono]. inversion HT as [|? ? Hnow Hrest]; subst.
    cbn [clock map fst] in *. cbn [run].
    pose proof (tracked_Allow T now ip past rl Hnow Htr) as Htr'.
    destruct (Allow now ip rl) as [ok rl']. cbn [fst snd] in *.
    destruct (IH now (past ++ [(now, ip, ok)]) rl' Htr' Hmono) as (T' & H1 & H2 & H3 & H4).
    destruct (run rl' rest) as [log rl'']. cbn [fst snd] in *.
    exists T'. rewrite <- app_assoc in H4. repeat split; try assumption; [lia| |].
    + constructor; [lia|exact H2].
    + intros t Ht. apply H3. now inversion Ht.
  - destruct Hmono as [HT Hmono]. inversion HT as [|? ? Hnow Hrest]; subst.
    cbn [clock map fst] in *. cbn [run].
    destruct (IH now past (cleanup now rl) (tracked_cleanup T now past rl Hnow Htr) Hmono)
      as (T' & H1 & H2 & H3 & H4).
    exists T'. repeat split; try assumption; [lia| |].
    + constructor; [lia|exact H2].
    + intros t Ht. apply H3. now inversion Ht.
Qed.

(** The limiter counts admissions, not stored entries. On a limiter created
    with [NewRateLimiter], with a clock that does not run backwards, a call
    is admitted exactly when fewer than [maxRequests] of the admissions made
    so far to its identity are within the last [window]; evictions and
    cleanups in between do not change that. *)
Theorem Allow_counts_admissions (maxRequests0 window0 cleanupInterval : Z)
    (before : list event) (now : Z) (ip : string)
    (Hclock : monotone (clock (before ++ [(now, CallAllow ip)]))) :
  let rl0 := NewRateLimiter maxRequests0 window0 cleanupInterval in
  fst (Allow now ip (snd (run rl0 before))) = true <->
  Z.of_nat (length (filter (spec.fresh now window0) (admissions ip (fst (run rl0 before)))))
  < maxRequests0.
Proof.
  intros rl0. rewrite clock_app in Hclock. apply monotone_app in Hclock as (Hb & _ & Hlast).
  assert (Hnow : Forall (fun u => u <= now) (clock before)).
  { eapply Forall_impl; [exact Hlast|]. cbn. intros a Ha. inversion Ha; subst. lia. }
  assert (Htr0 : forall T, more.tracked T [] rl0).
  { intros T ip' now' _. reflexivity. }
  assert (Htr : exists T', T' <= now
                /\ more.tracked T' (fst (run rl0 before)) (snd (run rl0 before))).
  { destruct before as [|[t0 c0] rest] eqn:E.
    - exists now. split; [lia|apply Htr0].
    - rewrite <- E in *.
      destruct (tracked_run before t0 [] rl0 (Htr0 t0)) as (T' & _ & _ & Hleast & Htr).
      { split; [|exact Hb]. subst before. cbn [clock map fst monotone] in *.
        destruct Hb as [Hb _]. constructor; [lia|exact Hb]. }
      exists T'. split; [|exact Htr]. apply Hleast.
      subst before. cbn [clock map fst] in *. inversion Hnow as [|? ? Ht0 _]; subst.
      constructor; [exact Ht0|exact Hnow]. }
  destruct Htr as (T' & HT' & Htr).
  destruct (run_config before rl0) as [Hmax Hwin].
  specialize (Htr ip now HT'). rewrite Hwin in Htr. cbn [window rl0 NewRateLimiter] in Htr.
  rewrite Allow_eq. cbv zeta. rewrite Hmax, Hwin. cbn [maxRequests window rl0 NewRateLimiter].
  rewrite Htr.
  destruct (Z.leb_spec maxRequests0 (Z.of_nat (length
              (filter (spec.fresh now window0) (admissions ip (fst (run rl0 before)))))));
    cbn [fst]; split; intros; (lia || congruence).
Qed.

Lemma Allow_counts_admissions_witness :
  monotone (clock (firstn 6 examples.history ++ [(2100000000, CallAllow "192.168.1.1")]))
  /\ (fst (Allow 2100000000 "192.168.1.1"
             (snd (run examples.limiter (firstn 6 examples.history)))) = true <->
      Z.of_nat (length (filter (spec.fresh 2100000000 (2 * examples.second))
                  (admissions "192.168.1.1"
                     (fst (run examples.limiter (firstn 6 examples.history))))))
      < 3).
Proof.
  assert (H : monotone (clock (firstn 6 examples.history
                                 ++ [(2100000000, CallAllow "192.168.1.1")])))
    by (simpl; repeat split; repeat constructor; lia).
  split; [exact H|].
  exact (Allow_counts_admissions 3 (2 * examples.second) (60 * examples.second)
           (firstn 6 examples.history) 2100000000 "192.168.1.1" H).
Defined.

(** *** The size and the shape of the stored lists *)

Lemma Allow_list_length (now : Z) (ip ip' : string) (rl : RateLimiter) :
  0 <= maxRequests rl ->
  Z.of_nat (length (timestamps_of (requests rl) ip')) <= maxRequests rl ->
  Z.of_nat (length (timestamps_of (requests (snd (Allow now ip rl))) ip')) <= maxRequests rl.
Proof.
  intros Hmax Hlen. rewrite Allow_eq. cbv zeta.
  destruct (Z.leb_spec (maxRequests rl) (Z.of_nat (length
              (filter (spec.fresh now (window rl)) (timestamps_of (requests rl) ip)))))
    as [Hfull|Hroom]; cbn [snd requests]; [exact Hlen|].
  rewrite timestamps_of_insert. destruct (decide (ip = ip')); [|exact Hlen].
  rewrite length_app. cbn [length]. lia.
Qed.

(** Memory per identity is bounded. On a limiter created with a limit that
    is not negative, no identity ever has more than [maxRequests] timestamps
    stored, whatever the calls and the clock values are. *)
Theorem stored_at_most_maxRequests (maxRequests0 window0 cleanupInterval : Z)
    (evs : list event) (ip : string) (Hmax : 0 <= maxRequests0) :
  Z.of_nat (length (timestamps_of
     (requests (snd (run (NewRateLimiter maxRequests0 window0 cleanupInterval) evs))) ip))
  <= maxRequests0.
Proof.
  set (rl0 := NewRateLimiter maxRequests0 window0 cleanupInterval).
  assert (Hgen : forall evs rl, 0 <= maxRequests rl ->
            (forall ip', Z.of_nat (length (timestamps_of (requests rl) ip')) <= maxRequests rl) ->
            forall ip', Z.of_nat (length (timestamps_of (requests (snd (run rl evs))) ip'))
                        <= maxRequests rl).
  { clear. induction evs as [|[now [ip|]] rest IH]; intros rl Hmax Hlen ip'; cbn [run].
    - apply Hlen.
    - destruct (Allow_config now ip rl) as [Hm _].
      pose proof (fun ip'' => Allow_list_length now ip ip'' rl Hmax (Hlen ip'')) as Hlen'.
      destruct (Allow now ip rl) as [ok rl']. cbn [snd] in *.
      specialize (IH rl'). rewrite Hm in IH. specialize (IH Hmax Hlen' ip').
      now destruct (run rl' rest).
    - apply (IH (cleanup now rl)); [exact Hmax|]. intros ip''. cbn [maxRequests cleanup].
      rewrite timestamps_of_cleanup.
      pose proof (length_filter (spec.fresh now (window rl)) (timestamps_of (requests rl) ip'')).
      specialize (Hlen ip''). lia. }
  apply (Hgen evs rl0 Hmax). intros ip'. cbn. exact Hmax.
Qed.

Lemma stored_at_most_maxRequests_witness :
  0 <= 3
  /\ Z.of_nat (length (timestamps_of
        (requests (snd (run (NewRateLimiter 3 (2 * examples.second) (60 * examples.second))
                          examples.history))) "192.168.1.1"))
     <= 3.
Proof.
  assert (H : 0 <= 3) by lia.
  split; [exact H|].
  exact (stored_at_most_maxRequests 3 (2 * examples.second) (60 * examples.second)
           examples.history "192.168.1.1" H).
Defined.









End RateLimiterHistory.

(** ** Frames written and read *)

Section FramesMore.
Local Open Scope Z_scope.
Import protocol codec.

Lemma be_value_inj (l1 l2 : list byte) :
  length l1 = length l2 -> be_value l1 = be_value l2 -> l1 = l2.
Proof.
  revert l2. induction l1 as [|a l1 IH]; intros [|b l2] Hlen Hval; try discriminate Hlen.
  - reflexivity.
  - injection Hlen as Hlen. rewrite !be_value_cons, <- Hlen in Hval.
    pose proof (be_value_range l1) as R1. pose proof (be_value_range l2) as R2.
    rewrite <- Hlen in R2.
    pose proof (Z_of_byte_range a). pose proof (Z_of_byte_range b).
    assert (0 < 256 ^ Z.of_nat (length l1)) by (apply Z.pow_pos_nonneg; lia).
    assert (Z_of_byte a = Z_of_byte b) by nia.
    f_equal; [now apply Z_of_byte_inj|]. apply IH; [exact Hlen|nia].
Qed.

(** The bytes of the value of a byte string are the byte string. *)
Lemma be_bytes_be_value (bs : list byte) : be_bytes (length bs) (be_value bs) = bs.
Proof.
  apply be_value_inj; [apply be_bytes_length|].
  rewrite be_value_be_bytes. apply Z.mod_small. apply be_value_range.
Qed.

Lemma Write_unlimited (p out : list byte) :
  writer.Write p {| writer.written := out; writer.room := None |}
  = (Ok (length p), {| writer.written := out ++ p; writer.room := None |}).
Proof. reflexivity. Qed.

(** On a writer that does not fail, [WriteMessage] appends the frame. *)
Lemma WriteMessage_unlimited (msg : Message) (out : list byte) :
  len (Payload msg) < 2 ^ 32 ->
  WriteMessage msg {| writer.written := out; writer.room := None |}
  = (Ok tt, {| writer.written := out ++ more.frame msg; writer.room := None |}).
Proof.
  intros Hlen. unfold WriteMessage, more.frame.
  assert (Hmod : len (Payload msg) mod 2 ^ 32 = len (Payload msg))
    by (apply Z.mod_small; unfold len in *; lia).
  rewrite Hmod.
  unfold se.bind, se.wrap, binary_Write, se.bind, se.ret. rewrite !Write_unlimited.
  destruct (Z.ltb_spec 0 (len (Payload msg))) as [Hpos|Hzero].
  - rewrite Write_unlimited. now rewrite <- !app_assoc.
  - assert (Payload msg = []) as ->
      by (unfold len in Hzero; destruct (Payload msg); [reflexivity|simpl in Hzero; lia]).
    now rewrite <- !app_assoc.
Qed.

(** Reading a frame whose payload is within the bound. *)
Lemma ReadMessage_frame (msg : Message) (rest : list byte) (made0 : list nat) :
  len (Payload msg) <= 1048576 ->
  ReadMessage {| io.stream := more.frame msg ++ rest; io.made := made0 |}
  = (Ok msg, {| io.stream := rest; io.made := made0 ++ more.payload_buffer (Payload msg) |}).
Proof.
  intros Hlen. unfold more.frame. rewrite <- !app_assoc.
  rewrite ReadMessage_header by (unfold spec.is_uint32, len in *; lia).
  unfold frames.after_header. change (1024 * 1024) with 1048576.
  destruct (Z.ltb_spec 1048576 (len (Payload msg))); [lia|].
  destruct msg as [ty payload]. cbn [Type_ Payload] in *.
  destruct (Z.ltb_spec 0 (len payload)) as [Hpos|Hzero].
  - unfold io.bind, io.make, io.wrap, io.ReadFull, io.ret, slice.make.
    cbn [io.stream io.made]. rewrite repeat_length.
    unfold len in *. rewrite Nat2Z.id.
    destruct payload as [|b payload]; [simpl in Hpos; lia|].
    cbn [Nat.eqb length].
    replace (Nat.leb (S (length payload)) (length ((b :: payload) ++ rest))) with true
      by (symmetry; apply Nat.leb_le; rewrite length_app; simpl; lia).
    rewrite firstn_app, Nat.sub_diag, firstn_O, app_nil_r, firstn_all2 by (simpl; lia).
    rewrite skipn_app, Nat.sub_diag, skipn_O, skipn_all2 by (simpl; lia).
    reflexivity.
  - assert (payload = []) as ->
      by (unfold len in Hzero; destruct payload; [reflexivity|simpl in Hzero; lia]).
    unfold io.ret. cbn [more.payload_buffer app]. now rewrite app_nil_r.
Qed.

(** What is written can be read. A message whose payload is at most 1 MiB,
    written with [WriteMessage] to a writer that does not fail, is returned
    by [ReadMessage] from the bytes written, and what follows the frame in
    the stream is left for the next read. *)
Theorem WriteMessage_then_ReadMessage (msg : Message) (out rest : list byte)
    (made0 : list nat) (Hlen : len (Payload msg) <= 1048576) :
  exists bytes,
    WriteMessage msg {| writer.written := out; writer.room := None |}
    = (Ok tt, {| writer.written := out ++ bytes; writer.room := None |})
    /\ bytes = [Type_ msg] ++ be_bytes 4 (len (Payload msg)) ++ Payload msg
    /\ fst (ReadMessage {| io.stream := bytes ++ rest; io.made := made0 |}) = Ok msg
    /\ io.stream (snd (ReadMessage {| io.stream := bytes ++ rest; io.made := made0 |})) = rest.
Proof.
  exists (more.frame msg).
  split; [apply WriteMessage_unlimited; lia|]. split; [reflexivity|].
  rewrite ReadMessage_frame by exact Hlen. split; reflexivity.
Qed.

Lemma WriteMessage_then_ReadMessage_witness :
  len (Payload {| Type_ := MessageTypeSolution; Payload := be_bytes 8 290 |}) <= 1048576
  /\ exists bytes,
       WriteMessage {| Type_ := MessageTypeSolution; Payload := be_bytes 8 290 |}
         {| writer.written := []; writer.room := None |}
       = (Ok tt, {| writer.written := [] ++ bytes; writer.room := None |})
       /\ bytes = [MessageTypeSolution] ++ be_bytes 4 8 ++ be_bytes 8 290
       /\ fst (ReadMessage {| io.stream := bytes ++ []; io.made := [] |})
          = Ok {| Type_ := MessageTypeSolution; Payload := be_bytes 8 290 |}
       /\ io.stream (snd (ReadMessage {| io.stream := bytes ++ []; io.made := [] |})) = [].
Proof.
  assert (H : len (Payload {| Type_ := MessageTypeSolution; Payload := be_bytes 8 290 |})
              <= 1048576) by (vm_compute; discriminate).
  split; [exact H|].
  exact (WriteMessage_then_ReadMessage
           {| Type_ := MessageTypeSolution; Payload := be_bytes 8 290 |} [] [] [] H).
Defined.

(** The writer does not know the reader's bound. A message whose payload is
    longer than 1 MiB (and shorter than 4 GiB) is written without error, and
    [ReadMessage] refuses the frame that was written. *)
Theorem WriteMessage_exceeds_reader (msg : Message) (out rest : list byte) (made0 : list nat)
    (Hlen : 1048576 < len (Payload msg) < 2 ^ 32) :
  WriteMessage msg {| writer.written := out; writer.room := None |}
  = (Ok tt, {| writer.written := out ++ more.frame msg; writer.room := None |})
  /\ fst (ReadMessage {| io.stream := more.frame msg ++ rest; io.made := made0 |})
     = Err (fmt.Errorf "payload too large: %d bytes" [fmt.ArgInt (len (Payload msg))])
  /\ io.made (snd (ReadMessage {| io.stream := more.frame msg ++ rest; io.made := made0 |}))
     = made0.
Proof.
  split; [apply WriteMessage_unlimited; lia|].
  unfold more.frame. rewrite <- !app_assoc.
  rewrite ReadMessage_header by (unfold spec.is_uint32, len in *; lia).
  unfold frames.after_header. change (1024 * 1024) with 1048576.
  destruct (Z.ltb_spec 1048576 (len (Payload msg))); [|lia].
  split; reflexivity.
Qed.

Lemma WriteMessage_exceeds_reader_witness :
  1048576 < len (Payload more.oversized_quote) < 2 ^ 32
  /\ fst (ReadMessage {| io.stream := more.frame more.oversized_quote ++ []; io.made := [] |})
     = Err "payload too large: 1048577 bytes"%string.
Proof.
  assert (Hval : len (Payload more.oversized_quote) = 1048577).
  { unfold len, more.oversized_quote. cbn [Payload]. rewrite repeat_length. lia. }
  assert (H : 1048576 < len (Payload more.oversized_quote) < 2 ^ 32) by (rewrite Hval; lia).
  split; [exact H|].
  destruct (WriteMessage_exceeds_reader more.oversized_quote [] [] [] H) as (_ & Hread & _).
  rewrite Hread, Hval. reflexivity.
Defined.

End FramesMore.

Section FramesAccepted.
Local Open Scope Z_scope.
Import protocol codec.

Lemma ReadMessage_short_header (s : list byte) (made0 : list nat) :
  (length s < 5)%nat ->
  exists e w', ReadMessage {| io.stream := s; io.made := made0 |} = (Err e, w').
Proof.
  intros H.
  destruct s as [|b0 s]; [eexists _, _; reflexivity|].
  do 4 (destruct s as [|? s]; [eexists _, _; reflexivity|]).
  simpl in H. lia.
Qed.

Lemma header_split (s : list byte) :
  (5 <= length s)%nat ->
  exists ty n rest, s = [ty] ++ be_bytes 4 n ++ rest /\ spec.is_uint32 n.
Proof.
  intros H. destruct s as [|ty s]; [simpl in H; lia|].
  exists ty, (be_value (firstn 4 s)), (skipn 4 s).
  assert (Hlen : length (firstn 4 s) = 4%nat) by (rewrite length_firstn; simpl in H; lia).
  split.
  - rewrite <- Hlen at 1. rewrite be_bytes_be_value. cbn [app].
    now rewrite firstn_skipn.
  - pose proof (be_value_range (firstn 4 s)) as R. rewrite Hlen in R. exact R.
Qed.

(** What [ReadMessage] returns it has read from the stream. *)
Lemma ReadMessage_Ok_frame (w w' : io.world) (msg : Message) :
  ReadMessage w = (Ok msg, w') ->
  len (Payload msg) <= 1048576
  /\ io.stream w = more.frame msg ++ io.stream w'
  /\ io.made w' = io.made w ++ more.payload_buffer (Payload msg).
Proof.
  destruct w as [s made0], w' as [s' made']. cbn [io.stream io.made].
  intros Hread.
  destruct (Nat.lt_ge_cases (length s) 5) as [Hshort|Hlong].
  { destruct (ReadMessage_short_header s made0 Hshort) as (e & w'' & Herr). congruence. }
  destruct (header_split s Hlong) as (ty & n & rest & -> & Hn).
  rewrite ReadMessage_header in Hread by exact Hn.
  unfold frames.after_header in Hread. change (1024 * 1024) with 1048576 in Hread.
  destruct (Z.ltb_spec 1048576 n) as [Hbig|Hfit]; [discriminate Hread|].
  destruct (Z.ltb_spec 0 n) as [Hpos|Hzero].
  + unfold io.bind, io.make, io.wrap, io.ReadFull, io.ret, slice.make in Hread.
    cbn [io.stream io.made] in Hread. rewrite repeat_length in Hread.
    destruct (Nat.eqb_spec (Z.to_nat n) 0) as [E|_]; [lia|].
    destruct (Nat.leb_spec (Z.to_nat n) (length rest)) as [Hle|Hgt].
    * injection Hread as <- <- <-. cbn [Payload Type_].
      assert (Hlen : len (firstn (Z.to_nat n) rest) = n)
        by (unfold len; rewrite length_firstn; lia).
      split; [lia|]. unfold more.frame. cbn [Payload Type_]. rewrite Hlen.
      split; [now rewrite <- !app_assoc, firstn_skipn|].
      f_equal. unfold more.payload_buffer.
      destruct (firstn (Z.to_nat n) rest) eqn:E; [unfold len in Hlen; simpl in Hlen; lia|].
      f_equal. unfold len in Hlen. cbn [length] in *. lia.
    * destruct rest; discriminate Hread.
  + assert (n = 0) as -> by (unfold spec.is_uint32 in Hn; lia).
    injection Hread as <- <- <-. cbn [Payload Type_ more.payload_buffer].
    split; [unfold len; simpl; lia|]. split; [reflexivity|now rewrite app_nil_r].
Qed.

(** [ReadMessage] returns a message exactly when the stream begins with the
    frame of that message and the payload is at most 1 MiB; it then leaves
    the stream right after the frame, and has made one buffer, of the size
    of the payload, when the payload is not empty. The type byte is not
    looked at. *)
Theorem ReadMessage_accepts (w w' : io.world) (msg : Message) :
  ReadMessage w = (Ok msg, w') <->
  len (Payload msg) <= 1048576
  /\ io.stream w = more.frame msg ++ io.stream w'
  /\ io.made w' = io.made w ++ more.payload_buffer (Payload msg).
Proof.
  split; [apply ReadMessage_Ok_frame|].
  destruct w as [s made0], w' as [s' made']. cbn [io.stream io.made].
  intros (Hlen & -> & ->). apply ReadMessage_frame. exact Hlen.
Qed.

(** *** A writer that fails *)

Lemma Write_fits (p out : list byte) (r : nat) :
  (length p <= r)%nat ->
  writer.Write p {| writer.written := out; writer.room := Some r |}
  = (Ok (length p), {| writer.written := out ++ p; writer.room := Some (r - length p)%nat |}).
Proof.
  intros H. unfold writer.Write. cbn [writer.room writer.written].
  destruct (Nat.leb_spec (length p) r); [reflexivity|lia].
Qed.

Lemma Write_short (p out : list byte) (r : nat) :
  (r < length p)%nat ->
  writer.Write p {| writer.written := out; writer.room := Some r |}
  = (Err writer.ErrShortWrite,
     {| writer.written := out ++ firstn r p; writer.room := Some 0%nat |}).
Proof.
  intros H. unfold writer.Write. cbn [writer.room writer.written].
  destruct (Nat.leb_spec (length p) r); [lia|reflexivity].
Qed.

(** Whatever the writer takes, [WriteMessage] writes the frame from its
    start and stops at the first write that fails: what it has written is
    the part of the frame that fitted, and it returns without error exactly
    when the whole frame fitted. *)
Theorem WriteMessage_writes_prefix (msg : Message) (out : list byte) (r : nat)
    (Hlen : len (Payload msg) < 2 ^ 32) :
  let w := {| writer.written := out; writer.room := Some r |} in
  writer.written (snd (WriteMessage msg w)) = out ++ firstn r (more.frame msg)
  /\ (fst (WriteMessage msg w) = Ok tt <-> (length (more.frame msg) <= r)%nat).
Proof.
  intros w. subst w. unfold WriteMessage, more.frame.
  assert (Hmod : len (Payload msg) mod 2 ^ 32 = len (Payload msg))
    by (apply Z.mod_small; unfold len in *; lia).
  rewrite Hmod. clear Hmod.
  destruct msg as [ty payload]. cbn [Type_ Payload] in *.
  unfold MessageType in *.
  set (h := [ty]). assert (Hh : length h = 1%nat) by reflexivity. clearbody h.
  set (l4 := be_bytes 4 (len payload)).
  assert (Hl4 : length l4 = 4%nat) by apply be_bytes_length. clearbody l4.
  rewrite !length_app, Hh, Hl4.
  unfold se.bind, se.wrap, binary_Write, se.bind, se.ret.
  destruct (Nat.lt_ge_cases r 1) as [H1|H1].
  { rewrite Write_short by lia. cbv beta iota. cbn [fst snd writer.written].
    replace r with 0%nat by lia. cbn [firstn].
    split; [reflexivity|split; [discriminate|lia]]. }
  rewrite Write_fits by lia. cbv beta iota. rewrite Hh.
  assert (Hh' : forall tail : list byte, firstn r (h ++ tail) = h ++ firstn (r - 1) tail).
  { intros tail. rewrite firstn_app, Hh. now rewrite (firstn_all2 h) by lia. }
  rewrite Hh'.
  destruct (Nat.lt_ge_cases (r - 1) 4) as [H4|H4].
  { rewrite Write_short by lia. cbv beta iota. cbn [fst snd writer.written].
    split; [|split; [discriminate|lia]].
    rewrite <- app_assoc. f_equal.
    rewrite firstn_app, Hl4.
    replace (r - 1 - 4)%nat with 0%nat by lia. now rewrite firstn_O, app_nil_r. }
  rewrite Write_fits by lia. cbv beta iota. rewrite Hl4.
  assert (Hl4' : forall tail : list byte,
            firstn (r - 1) (l4 ++ tail) = l4 ++ firstn (r - 1 - 4) tail).
  { intros tail. rewrite firstn_app, Hl4. now rewrite (firstn_all2 l4) by lia. }
  rewrite Hl4'.
  destruct (Z.ltb_spec 0 (len payload)) as [Hpos|Hzero].
  - destruct (Nat.lt_ge_cases (r - 1 - 4) (length payload)) as [Hp|Hp].
    + rewrite Write_short by lia. cbv beta iota. cbn [fst snd writer.written].
      split; [now rewrite <- !app_assoc|split; [discriminate|lia]].
    + rewrite Write_fits by lia. cbv beta iota. cbn [fst snd writer.written].
      rewrite firstn_all2 by lia.
      split; [now rewrite <- !app_assoc|split; [lia|reflexivity]].
  - assert (payload = []) as ->
      by (unfold len in Hzero; destruct payload; [reflexivity|simpl in Hzero; lia]).
    cbn [fst snd writer.written length].
    split; [|split; [lia|reflexivity]].
    rewrite firstn_nil, app_nil_r. now rewrite <- !app_assoc.
Qed.

Lemma WriteMessage_writes_prefix_witness :
  len (Payload {| Type_ := MessageTypeSolution; Payload := be_bytes 8 290 |}) < 2 ^ 32
  /\ writer.written (snd (WriteMessage {| Type_ := MessageTypeSolution;
                                           Payload := be_bytes 8 290 |}
                            {| writer.written := []; writer.room := Some 7%nat |}))
     = [MessageTypeSolution; "000"; "000"; "000"; "008"; "000"; "000"]%byte.
Proof.
  assert (H : len (Payload {| Type_ := MessageTypeSolution; Payload := be_bytes 8 290 |})
              < 2 ^ 32) by (vm_compute; reflexivity).
  split; [exact H|].
  destruct (WriteMessage_writes_prefix
              {| Type_ := MessageTypeSolution; Payload := be_bytes 8 290 |} [] 7 H)
    as [Hw _].
  rewrite Hw. vm_compute. reflexivity.
Defined.

End FramesAccepted.

(** ** The codec in the other direction, and outside its ranges *)

Section CodecMore.
Local Open Scope Z_scope.
Import protocol.


Lemma byte_of_Z_mod (z : Z) : byte_of_Z (z mod 256) = byte_of_Z z.
Proof. unfold byte_of_Z. now rewrite Z.mod_mod by lia. Qed.

Lemma len_nonneg {A} (l : list A) : 0 <= len l.
Proof. unfold len. lia. Qed.






(** The difficulty travels in one byte, whatever the [int] holds. After a
    round trip a challenge response has its difficulty reduced modulo 256
    and every other field unchanged. *)
Theorem ChallengeResponse_difficulty_wraps (cr : ChallengeResponse)
    (Htimestamp : spec.is_int64 (Timestamp cr))
    (Hrandom : length (RandomData cr) = 32%nat) :
  spec.round_trip EncodeChallengeResponse DecodeChallengeResponse cr
  = Ok {| Difficulty := Difficulty cr mod 256;
          Timestamp := Timestamp cr;
          RandomData := RandomData cr;
          ClientIP := ClientIP cr |}.
Proof.
  set (cr' := {| Difficulty := Difficulty cr mod 256;
                 Timestamp := Timestamp cr;
                 RandomData := RandomData cr;
                 ClientIP := ClientIP cr |}).
  assert (Hsame : EncodeChallengeResponse cr = EncodeChallengeResponse cr').
  { rewrite !EncodeChallengeResponse_layout by assumption.
    subst cr'. cbn [Difficulty Timestamp RandomData ClientIP].
    now rewrite byte_of_Z_mod. }
  pose proof (ChallengeResponse_round_trip cr') as Hrt.
  unfold spec.round_trip in *. rewrite Hsame. apply Hrt; subst cr'; cbn; try assumption.
  pose proof (Z.mod_pos_bound (Difficulty cr) 256). lia.
Qed.

Lemma ChallengeResponse_difficulty_wraps_witness :
  spec.is_int64 (Timestamp {| Difficulty := 260; Timestamp := 1700000000;
                              RandomData := repeat "000"%byte 32; ClientIP := "10.0.0.1" |})
  /\ length (repeat "000"%byte 32) = 32%nat
  /\ spec.round_trip EncodeChallengeResponse DecodeChallengeResponse
       {| Difficulty := 260; Timestamp := 1700000000;
          RandomData := repeat "000"%byte 32; ClientIP := "10.0.0.1" |}
     = Ok {| Difficulty := 260 mod 256; Timestamp := 1700000000;
             RandomData := repeat "000"%byte 32; ClientIP := "10.0.0.1" |}.
Proof.
  assert (H1 : spec.is_int64 (Timestamp {| Difficulty := 260; Timestamp := 1700000000;
                 RandomData := repeat "000"%byte 32; ClientIP := "10.0.0.1" |}))
    by (unfold spec.is_int64; simpl; lia).
  assert (H2 : length (repeat "000"%byte 32) = 32%nat) by reflexivity.
  split; [exact H1|split; [exact H2|]].
  exact (ChallengeResponse_difficulty_wraps
           {| Difficulty := 260; Timestamp := 1700000000;
              RandomData := repeat "000"%byte 32; ClientIP := "10.0.0.1" |} H1 H2).
Defined.

(** The payload layouts, for every value of the fields: a challenge response
    is the difficulty byte, the timestamp on 8 bytes, the 32 random bytes and
    the identity; an error is the code on 2 bytes and the message; a solution
    is the nonce on 8 bytes. Integers are big-endian and are cut to the width
    of their field (in two's complement for the timestamp). *)
Theorem payload_layouts (cr : ChallengeResponse) (e : Error) (sol : Solution)
    (Hrandom : length (RandomData cr) = 32%nat) :
  (exists d t8,
     EncodeChallengeResponse cr =
       Ok ([d] ++ t8 ++ RandomData cr ++ list_byte_of_string (ClientIP cr))
     /\ Z_of_byte d = Difficulty cr mod 256
     /\ length t8 = 8%nat /\ be_value t8 = Timestamp cr mod 2 ^ 64)
  /\ (exists c2,
        EncodeError e = Ok (c2 ++ list_byte_of_string (Message_ e))
        /\ length c2 = 2%nat /\ be_value c2 = Code e mod 2 ^ 16)
  /\ (exists n8,
        EncodeSolution sol = Ok n8
        /\ length n8 = 8%nat /\ be_value n8 = Nonce sol mod 2 ^ 64).
Proof.
  split; [|split].
  - exists (byte_of_Z (Difficulty cr)), (be_bytes 8 (uint64_of_int64 (Timestamp cr))).
    split; [now apply EncodeChallengeResponse_layout|].
    split; [apply Z_of_byte_of_Z|]. split; [apply be_bytes_length|].
    rewrite be_value_be_bytes. unfold uint64_of_int64.
    change (256 ^ Z.of_nat 8) with (2 ^ 64). now rewrite Z.mod_mod by lia.
  - exists (be_bytes 2 (Code e)). split; [apply EncodeError_layout|].
    split; [apply be_bytes_length|]. now rewrite be_value_be_bytes.
  - exists (be_bytes 8 (Nonce sol)). split; [reflexivity|].
    split; [apply be_bytes_length|]. now rewrite be_value_be_bytes.
Qed.

Lemma payload_layouts_witness :
  length (RandomData examples.response_corner) = 32%nat
  /\ exists d t8,
       EncodeChallengeResponse examples.response_corner =
         Ok ([d] ++ t8 ++ RandomData examples.response_corner
             ++ list_byte_of_string (ClientIP examples.response_corner))
       /\ Z_of_byte d = Difficulty examples.response_corner mod 256
       /\ length t8 = 8%nat
       /\ be_value t8 = Timestamp examples.response_corner mod 2 ^ 64.
Proof.
  assert (H : length (RandomData examples.response_corner) = 32%nat) by reflexivity.
  split; [exact H|].
  exact (proj1 (payload_layouts examples.response_corner examples.error_empty
                  examples.solution_zero H)).
Defined.

End CodecMore.

(** ** The connection handler *)

Section Monad.

Lemma bind_Ok_inv {S A B} (m : se.M S A) (k : A -> se.M S B) (s s' : S) (b : B) :
  se.bind m k s = (Ok b, s') -> exists a s1, m s = (Ok a, s1) /\ k a s1 = (Ok b, s').
Proof.
  unfold se.bind. destruct (m s) as [[a|e] s1]; [|discriminate].
  intros H. now exists a, s1.
Qed.

Lemma bind_step {S A B} (m : se.M S A) (k : A -> se.M S B) (s s1 : S) (a : A) :
  m s = (Ok a, s1) -> se.bind m k s = k a s1.
Proof. intros H. unfold se.bind. now rewrite H. Qed.

Lemma bind_stop {S A B} (m : se.M S A) (k : A -> se.M S B) (s s1 : S) (e : string) :
  m s = (Err e, s1) -> se.bind m k s = (Err e, s1).
Proof. intros H. unfold se.bind. now rewrite H. Qed.

Lemma wrap_Ok_inv {S A} (text : string) (m : se.M S A) (s s' : S) (a : A) :
  se.wrap text m s = (Ok a, s') -> m s = (Ok a, s').
Proof. unfold se.wrap. destruct (m s) as [[a'|e] s1]; [now intros H|discriminate]. Qed.

Lemma wrap_Ok {S A} (text : string) (m : se.M S A) (s s' : S) (a : A) :
  m s = (Ok a, s') -> se.wrap text m s = (Ok a, s').
Proof. intros H. unfold se.wrap. now rewrite H. Qed.

Lemma wrap_Err {S A} (text : string) (m : se.M S A) (s s' : S) (e : string) :
  m s = (Err e, s') ->
  se.wrap text m s = (Err (fmt.Errorf text [fmt.ArgString e]), s').
Proof. intros H. unfold se.wrap. now rewrite H. Qed.

End Monad.

Section Handler.
Local Open Scope Z_scope.
Import protocol codec.

Lemma type_differs_false (a b : MessageType) :
  handler.type_differs a b = false <-> a = b.
Proof.
  unfold handler.type_differs. rewrite negb_false_iff, Z.eqb_eq.
  split; [apply Z_of_byte_inj|now intros ->].
Qed.

Lemma type_differs_true (a b : MessageType) :
  handler.type_differs a b = true <-> a <> b.
Proof.
  rewrite <- type_differs_false. destruct (handler.type_differs a b); split; congruence.
Qed.

Lemma reading_inv (c c' : conn.t) (msg : Message) :
  conn.reading ReadMessage c = (Ok msg, c') ->
  len (Payload msg) <= 1048576
  /\ session.unread c = more.frame msg ++ session.unread c'
  /\ conn.outbound c' = conn.outbound c.
Proof.
  unfold conn.reading. destruct (ReadMessage (conn.inbound c)) as [r w] eqn:R.
  intros H. injection H as -> <-.
  apply ReadMessage_Ok_frame in R as (Hl & Hs & _). now repeat split.
Qed.

Lemma reading_frame (msg : Message) (rest : list byte) (made0 : list nat) (out : list byte) :
  len (Payload msg) <= 1048576 ->
  conn.reading ReadMessage (session.connection (more.frame msg ++ rest) made0 out)
  = (Ok msg, session.connection rest (made0 ++ more.payload_buffer (Payload msg)) out).
Proof.
  intros H. unfold conn.reading, session.connection. cbn [conn.inbound conn.outbound].
  now rewrite ReadMessage_frame.
Qed.

Lemma writing_inv {A} (m : se.M writer.t A) (c c' : conn.t) (r : result A) :
  conn.writing m c = (r, c') -> conn.inbound c' = conn.inbound c.
Proof.
  unfold conn.writing. destruct (m (conn.outbound c)) as [r' w].
  intros H. now injection H as _ <-.
Qed.

Lemma writing_frame (msg : Message) (input : list byte) (made0 : list nat) (out : list byte) :
  len (Payload msg) < 2 ^ 32 ->
  conn.writing (WriteMessage msg) (session.connection input made0 out)
  = (Ok tt, session.connection input made0 (out ++ more.frame msg)).
Proof.
  intros H. unfold conn.writing, session.connection. cbn [conn.inbound conn.outbound].
  now rewrite WriteMessage_unlimited.
Qed.

(** [sendError] never reports a failure, and it reads nothing. *)
Lemma sendError_quiet (code : Z) (message : string) (c : conn.t) :
  fst (handler.sendError code message c) = Ok tt
  /\ conn.inbound (snd (handler.sendError code message c)) = conn.inbound c.
Proof.
  unfold handler.sendError.
  destruct (EncodeError _) as [payload|e]; [|now split].
  destruct (conn.writing _ c) as [r c'] eqn:W. apply writing_inv in W. now split.
Qed.

Lemma sendError_fail {A} (code : Z) (message e : string) (c : conn.t) :
  (_ <~ handler.sendError code message ;; @se.fail conn.t A e) c
  = (Err e, snd (handler.sendError code message c)).
Proof.
  unfold se.bind. pose proof (sendError_quiet code message c) as [H _].
  destruct (handler.sendError code message c) as [r c']. cbn [fst snd] in *. now subst r.
Qed.

Lemma error_payload_length (code : Z) (message : string) :
  len (Payload (session.error code message)) = 2 + Z.of_nat (String.length message).
Proof.
  unfold session.error. cbn [Payload]. rewrite EncodeError_layout. cbn [session.payload_of].
  unfold len. rewrite length_app, be_bytes_length, list_byte_of_string_length.
  cbn [Code Message_]. lia.
Qed.

Lemma sendError_frame (code : Z) (message : string) (input : list byte) (made0 : list nat)
    (out : list byte) :
  Z.of_nat (String.length message) < 2 ^ 32 - 2 ->
  handler.sendError code message (session.connection input made0 out)
  = (Ok tt, session.connection input made0 (out ++ more.frame (session.error code message))).
Proof.
  intros H. unfold handler.sendError.
  pose proof (error_payload_length code message) as Hlen.
  unfold session.error in *. cbn [Payload] in Hlen.
  destruct (EncodeError _) as [payload|e] eqn:E; [|now rewrite EncodeError_layout in E].
  cbn [session.payload_of] in *.
  rewrite writing_frame by (cbn [Payload]; lia). reflexivity.
Qed.

Lemma solution_payload (payload : list byte) (solution : Solution) :
  DecodeSolution payload = Ok solution ->
  payload = Payload (session.solution (Nonce solution)) /\ 0 <= Nonce solution < 2 ^ 64.
Proof.
  unfold DecodeSolution. destruct (Z.eqb_spec (len payload) 8) as [Hlen|]; [|discriminate].
  cbn [negb]. intros H. injection H as <-. cbn [Nonce].
  assert (Hl : length payload = 8%nat) by (unfold len in Hlen; lia).
  rewrite Uint64_be_value by exact Hl.
  unfold session.solution, EncodeSolution. cbn [Payload session.payload_of Nonce].
  rewrite PutUint64_make. split.
  - pose proof (be_bytes_be_value payload) as B. rewrite Hl in B. now symmetry.
  - pose proof (be_value_range payload) as R. rewrite Hl in R. exact R.
Qed.

Lemma solution_decodes (nonce : Z) :
  0 <= nonce < 2 ^ 64 ->
  DecodeSolution (Payload (session.solution nonce)) = Ok {| Nonce := nonce |}.
Proof.
  intros H. exact (Solution_round_trip {| Nonce := nonce |} H).
Qed.

Lemma solution_payload_length (nonce : Z) : len (Payload (session.solution nonce)) = 8.
Proof.
  unfold session.solution, EncodeSolution. cbn [Payload session.payload_of Nonce].
  rewrite PutUint64_make. unfold len. now rewrite be_bytes_length.
Qed.

Variable Sum256 : list byte -> list byte.
Variable quotes : list string.
Variable draw : Z.

(** No quote without the work. Whatever is on the connection and however its
    writes behave, [handleChallengeResponse] returns without error only if
    it has read a challenge request and then a solution message whose nonce
    passes [Verify] for the challenge and the peer's address. *)
Theorem handleChallengeResponse_sound (clientIP : string) (challenge : pow.Challenge)
    (c c' : conn.t)
    (Hok : handler.handleChallengeResponse Sum256 quotes draw clientIP challenge c = (Ok tt, c')) :
  exists payload nonce,
    session.unread c = more.frame (session.request payload)
                       ++ more.frame (session.solution nonce) ++ session.unread c'
    /\ 0 <= nonce < 2 ^ 64
    /\ pow.Verify Sum256 challenge nonce clientIP = true
    /\ quotes <> [].
Proof.
  unfold handler.handleChallengeResponse in Hok.
  apply bind_Ok_inv in Hok as (msg1 & c1 & R1 & Hok).
  apply wrap_Ok_inv, reading_inv in R1 as (_ & Hs1 & _).
  destruct (handler.type_differs (Type_ msg1) MessageTypeChallengeRequest) eqn:T1;
    [rewrite sendError_fail in Hok; discriminate Hok|].
  apply type_differs_false in T1.
  destruct (EncodeChallengeResponse _) as [buf|e]; [|discriminate Hok].
  apply bind_Ok_inv in Hok as ([] & c2 & W2 & Hok).
  apply wrap_Ok_inv, writing_inv in W2.
  apply bind_Ok_inv in Hok as (msg2 & c3 & R3 & Hok).
  apply wrap_Ok_inv, reading_inv in R3 as (_ & Hs3 & _).
  destruct (handler.type_differs (Type_ msg2) MessageTypeSolution) eqn:T2;
    [rewrite sendError_fail in Hok; discriminate Hok|].
  apply type_differs_false in T2.
  destruct (DecodeSolution (Payload msg2)) as [solution|e] eqn:D; [|discriminate Hok].
  apply solution_payload in D as [Hp Hn].
  destruct (pow.Verify Sum256 challenge (Nonce solution) clientIP) eqn:V; cbn [negb] in Hok;
    [|rewrite sendError_fail in Hok; discriminate Hok].
  destruct (quotes.GetRandom quotes draw) as [quote|e] eqn:G;
    [|rewrite sendError_fail in Hok; discriminate Hok].
  destruct (EncodeQuote _) as [payload|e]; [|discriminate Hok].
  apply writing_inv in Hok.
  exists (Payload msg1), (Nonce solution).
  split; [|split; [exact Hn|split; [exact V|]]].
  - unfold session.unread in *. rewrite Hs1, <- W2, Hs3, <- Hok.
    destruct msg1 as [t1 p1], msg2 as [t2 p2]. cbn [Type_ Payload] in *.
    subst t1 t2. rewrite Hp at 1. reflexivity.
  - intros ->. discriminate G.
Qed.

(** The honest session. On a connection whose writes do not fail, a
    challenge request followed by a solution whose nonce passes [Verify] is
    answered by the challenge and then by the quote that was drawn; the
    handler returns without error, having read the two frames and nothing
    after them. *)
Theorem handleChallengeResponse_serves (clientIP : string) (challenge : pow.Challenge)
    (payload : list byte) (nonce : Z) (rest : list byte) (made0 : list nat) (out : list byte)
    (Hrequest : len payload <= 1048576)
    (Hnonce : 0 <= nonce < 2 ^ 64)
    (Hverify : pow.Verify Sum256 challenge nonce clientIP = true)
    (Hdraw : 0 <= draw < len quotes)
    (Hfit1 : len (Payload (session.challenge_response challenge clientIP)) < 2 ^ 32)
    (Hfit2 : len (Payload (session.quote (nth (Z.to_nat draw) quotes EmptyString))) < 2 ^ 32) :
  handler.handleChallengeResponse Sum256 quotes draw clientIP challenge
    (session.connection
       (more.frame (session.request payload) ++ more.frame (session.solution nonce) ++ rest)
       made0 out)
  = (Ok tt,
     session.connection rest (made0 ++ more.payload_buffer payload ++ [8%nat])
       (out ++ more.frame (session.challenge_response challenge clientIP)
            ++ more.frame (session.quote (nth (Z.to_nat draw) quotes EmptyString)))).
Proof.
  unfold handler.handleChallengeResponse.
  erewrite bind_step by (apply wrap_Ok, reading_frame; exact Hrequest).
  cbn [Type_ Payload session.request].
  replace (handler.type_differs MessageTypeChallengeRequest MessageTypeChallengeRequest)
    with false by (symmetry; now apply type_differs_false).
  unfold session.challenge_response in *.
  destruct (EncodeChallengeResponse _) as [buf|e] eqn:E;
    [|unfold EncodeChallengeResponse in E; discriminate E].
  cbn [session.payload_of Payload] in *.
  erewrite bind_step by (apply wrap_Ok, writing_frame; exact Hfit1).
  assert (Hsol : len (Payload (session.solution nonce)) <= 1048576)
    by (rewrite solution_payload_length; lia).
  erewrite bind_step by (apply wrap_Ok, reading_frame; exact Hsol).
  cbn [Type_ session.solution].
  replace (handler.type_differs MessageTypeSolution MessageTypeSolution)
    with false by (symmetry; now apply type_differs_false).
  fold (session.solution nonce). rewrite (solution_decodes nonce Hnonce). cbn [Nonce].
  rewrite Hverify. cbn [negb].
  unfold quotes.GetRandom.
  destruct (Z.eqb_spec (len quotes) 0) as [Hz|_]; [lia|].
  unfold session.quote in *. unfold EncodeQuote in *. cbn [session.payload_of Payload Text] in *.
  rewrite writing_frame by exact Hfit2.
  f_equal. unfold session.connection. f_equal.
  - f_equal. now rewrite <- app_assoc.
  - f_equal. now rewrite <- app_assoc.
Qed.


Lemma reading_connection (input : list byte) (made0 : list nat) (out : list byte) :
  exists r input' made',
    conn.reading ReadMessage (session.connection input made0 out)
    = (r, session.connection input' made' out).
Proof.
  unfold conn.reading, session.connection. cbn [conn.inbound conn.outbound].
  destruct (ReadMessage _) as [r [input' made']]. now exists r, input', made'.
Qed.

(** What a failing session gets. On a connection whose writes do not fail,
    when [handleChallengeResponse] returns an error it has written nothing,
    or the challenge, each followed by at most one error message: never a
    quote. *)
Theorem handleChallengeResponse_failure (clientIP : string) (challenge : pow.Challenge)
    (input : list byte) (made0 : list nat) (out : list byte) (e : string) (c' : conn.t)
    (Hfit : len (Payload (session.challenge_response challenge clientIP)) < 2 ^ 32)
    (Herr : handler.handleChallengeResponse Sum256 quotes draw clientIP challenge
              (session.connection input made0 out) = (Err e, c')) :
  let sent_challenge := more.frame (session.challenge_response challenge clientIP) in
  exists reply,
    session.sent c' = out ++ reply
    /\ In reply
         [ [];
           more.frame (session.error 1 "Expected challenge request");
           sent_challenge;
           sent_challenge ++ more.frame (session.error 1 "Expected solution");
           sent_challenge ++ more.frame (session.error 2 "Invalid solution");
           sent_challenge ++ more.frame (session.error 5 "No quotes available") ].
Proof.
  intros sent_challenge. subst sent_challenge.
  unfold handler.handleChallengeResponse in Herr.
  destruct (reading_connection input made0 out) as ([msg1|e1] & in1 & m1 & R1).
  2:{ erewrite bind_stop in Herr by (apply wrap_Err, R1). injection Herr as _ <-.
      exists []. split; [now rewrite app_nil_r|now left]. }
  erewrite bind_step in Herr by (apply wrap_Ok, R1).
  destruct (handler.type_differs (Type_ msg1) MessageTypeChallengeRequest).
  { rewrite sendError_fail, sendError_frame in Herr by (vm_compute; reflexivity).
    injection Herr as _ <-. eexists. split; [reflexivity|]. right. now left. }
  unfold session.challenge_response in *.
  destruct (EncodeChallengeResponse _) as [buf|e0] eqn:E;
    [|unfold EncodeChallengeResponse in E; discriminate E].
  cbn [session.payload_of Payload] in *.
  erewrite bind_step in Herr by (apply wrap_Ok, writing_frame; exact Hfit).
  destruct (reading_connection in1 m1
              (out ++ more.frame {| Type_ := MessageTypeChallengeResponse; Payload := buf |}))
    as ([msg2|e2] & in2 & m2 & R2).
  2:{ erewrite bind_stop in Herr by (apply wrap_Err, R2). injection Herr as _ <-.
      eexists. split; [reflexivity|]. do 2 right. now left. }
  erewrite bind_step in Herr by (apply wrap_Ok, R2).
  destruct (handler.type_differs (Type_ msg2) MessageTypeSolution).
  { rewrite sendError_fail, sendError_frame in Herr by (vm_compute; reflexivity).
    injection Herr as _ <-. eexists. split; [cbn [session.sent session.connection
      conn.outbound writer.written snd]; now rewrite <- app_assoc|]. do 3 right. now left. }
  destruct (DecodeSolution (Payload msg2)) as [solution|e3].
  2:{ injection Herr as _ <-. eexists. split; [reflexivity|]. do 2 right. now left. }
  destruct (pow.Verify Sum256 challenge (Nonce solution) clientIP); cbn [negb] in Herr.
  2:{ rewrite sendError_fail, sendError_frame in Herr by (vm_compute; reflexivity).
      injection Herr as _ <-. eexists. split; [cbn [session.sent session.connection
        conn.outbound writer.written snd]; now rewrite <- app_assoc|]. do 4 right. now left. }
  destruct (quotes.GetRandom quotes draw) as [quote|e4].
  2:{ rewrite sendError_fail, sendError_frame in Herr by (vm_compute; reflexivity).
      injection Herr as _ <-. eexists. split; [cbn [session.sent session.connection
        conn.outbound writer.written snd]; now rewrite <- app_assoc|]. do 5 right. now left. }
  unfold EncodeQuote in Herr. unfold conn.writing, session.connection in Herr.
  cbn [conn.outbound conn.inbound] in Herr.
  exfalso. revert Herr. unfold WriteMessage, se.bind, se.wrap, binary_Write, se.bind, se.ret.
  rewrite !Write_unlimited. destruct (0 <? _); [rewrite Write_unlimited|]; discriminate.
Qed.

(** A solution that does not verify. On a connection whose writes do not
    fail, a challenge request followed by a solution whose nonce fails
    [Verify] is answered by the challenge and then by the error message with
    code 2, and the handler returns an error. *)
Theorem handleChallengeResponse_invalid_solution (clientIP : string)
    (challenge : pow.Challenge) (payload : list byte) (nonce : Z) (rest : list byte)
    (made0 : list nat) (out : list byte)
    (Hrequest : len payload <= 1048576)
    (Hnonce : 0 <= nonce < 2 ^ 64)
    (Hverify : pow.Verify Sum256 challenge nonce clientIP = false)
    (Hfit : len (Payload (session.challenge_response challenge clientIP)) < 2 ^ 32) :
  handler.handleChallengeResponse Sum256 quotes draw clientIP challenge
    (session.connection
       (more.frame (session.request payload) ++ more.frame (session.solution nonce) ++ rest)
       made0 out)
  = (Err "invalid PoW solution"%string,
     session.connection rest (made0 ++ more.payload_buffer payload ++ [8%nat])
       (out ++ more.frame (session.challenge_response challenge clientIP)
            ++ more.frame (session.error 2 "Invalid solution"))).
Proof.
  unfold handler.handleChallengeResponse.
  erewrite bind_step by (apply wrap_Ok, reading_frame; exact Hrequest).
  cbn [Type_ Payload session.request].
  replace (handler.type_differs MessageTypeChallengeRequest MessageTypeChallengeRequest)
    with false by (symmetry; now apply type_differs_false).
  unfold session.challenge_response in *.
  destruct (EncodeChallengeResponse _) as [buf|e] eqn:E;
    [|unfold EncodeChallengeResponse in E; discriminate E].
  cbn [session.payload_of Payload] in *.
  erewrite bind_step by (apply wrap_Ok, writing_frame; exact Hfit).
  assert (Hsol : len (Payload (session.solution nonce)) <= 1048576)
    by (rewrite solution_payload_length; lia).
  erewrite bind_step by (apply wrap_Ok, reading_frame; exact Hsol).
  cbn [Type_ session.solution].
  replace (handler.type_differs MessageTypeSolution MessageTypeSolution)
    with false by (symmetry; now apply type_differs_false).
  fold (session.solution nonce). rewrite (solution_decodes nonce Hnonce). cbn [Nonce].
  rewrite Hverify. cbn [negb].
  rewrite sendError_fail, sendError_frame by (vm_compute; reflexivity). cbn [snd].
  f_equal. unfold session.connection. f_equal.
  - f_equal. now rewrite <- app_assoc.
  - f_equal. now rewrite <- app_assoc.
Qed.

(** A first message that is not a challenge request. On a connection whose
    writes do not fail, it is answered by the error message with code 1;
    no challenge is sent, and the error returned names the type received. *)
Theorem handleChallengeResponse_unexpected_first (clientIP : string)
    (challenge : pow.Challenge) (msg : Message) (rest : list byte)
    (made0 : list nat) (out : list byte)
    (Hlen : len (Payload msg) <= 1048576)
    (Htype : Type_ msg <> MessageTypeChallengeRequest) :
  handler.handleChallengeResponse Sum256 quotes draw clientIP challenge
    (session.connection (more.frame msg ++ rest) made0 out)
  = (Err (fmt.Errorf "unexpected message type: %d" [fmt.ArgInt (Z_of_byte (Type_ msg))]),
     session.connection rest (made0 ++ more.payload_buffer (Payload msg))
       (out ++ more.frame (session.error 1 "Expected challenge request"))).
Proof.
  unfold handler.handleChallengeResponse.
  erewrite bind_step by (apply wrap_Ok, reading_frame; exact Hlen).
  apply type_differs_true in Htype. rewrite Htype.
  now rewrite sendError_fail, sendError_frame by (vm_compute; reflexivity).
Qed.

(** A solution message of the wrong size. When the payload of the solution
    message is not 8 bytes long the handler returns an error and sends no
    error message: after the challenge the client gets nothing. *)
Theorem handleChallengeResponse_malformed_solution (clientIP : string)
    (challenge : pow.Challenge) (payload bad : list byte) (rest : list byte)
    (made0 : list nat) (out : list byte)
    (Hrequest : len payload <= 1048576)
    (Hbad : len bad <= 1048576 /\ len bad <> 8)
    (Hfit : len (Payload (session.challenge_response challenge clientIP)) < 2 ^ 32) :
  handler.handleChallengeResponse Sum256 quotes draw clientIP challenge
    (session.connection
       (more.frame (session.request payload)
        ++ more.frame {| Type_ := MessageTypeSolution; Payload := bad |} ++ rest)
       made0 out)
  = (Err (fmt.Errorf "failed to decode solution: %w"
            [fmt.ArgString (fmt.Errorf "invalid payload length: expected 8, got %d"
                              [fmt.ArgInt (len bad)])]),
     session.connection rest (made0 ++ more.payload_buffer payload ++ more.payload_buffer bad)
       (out ++ more.frame (session.challenge_response challenge clientIP))).
Proof.
  destruct Hbad as [Hbad1 Hbad2].
  unfold handler.handleChallengeResponse.
  erewrite bind_step by (apply wrap_Ok, reading_frame; exact Hrequest).
  cbn [Type_ Payload session.request].
  replace (handler.type_differs MessageTypeChallengeRequest MessageTypeChallengeRequest)
    with false by (symmetry; now apply type_differs_false).
  unfold session.challenge_response in *.
  destruct (EncodeChallengeResponse _) as [buf|e] eqn:E;
    [|unfold EncodeChallengeResponse in E; discriminate E].
  cbn [session.payload_of Payload] in *.
  erewrite bind_step by (apply wrap_Ok, writing_frame; exact Hfit).
  erewrite bind_step by (apply wrap_Ok, reading_frame; exact Hbad1).
  cbn [Type_ Payload].
  replace (handler.type_differs MessageTypeSolution MessageTypeSolution)
    with false by (symmetry; now apply type_differs_false).
  unfold DecodeSolution. destruct (Z.eqb_spec (len bad) 8) as [|_]; [contradiction|].
  cbn [negb]. unfold se.fail, session.connection. rewrite <- app_assoc. reflexivity.
Qed.

(** A connection the rate limiter refuses. [handleConnection] then writes
    the error message with code 3 and nothing else, reads nothing, and leaves
    the limiter as [Allow] left it; no challenge is generated. *)
Theorem handleConnection_rate_limited (PoWDifficulty now : Z)
    (entropy : result (list byte)) (unix : Z) (clientIP : string)
    (rl : server.RateLimiter) (input : list byte) (made0 : list nat) (out : list byte)
    (Hdenied : fst (server.Allow now clientIP rl) = false) :
  handler.handleConnection Sum256 quotes draw PoWDifficulty now entropy unix clientIP rl
    (session.connection input made0 out)
  = (snd (server.Allow now clientIP rl),
     session.connection input made0
       (out ++ more.frame (session.error 3 "Rate limit exceeded"))).
Proof.
  unfold handler.handleConnection.
  destruct (server.Allow now clientIP rl) as [allowed rl']. cbn [fst snd] in *. subst allowed.
  cbn [negb]. now rewrite sendError_frame by (vm_compute; reflexivity).
Qed.

End Handler.

Section HandlerExamples.
Local Open Scope Z_scope.
Import protocol.

Lemma handleChallengeResponse_sound_witness :
  let run := handler.handleChallengeResponse sha256.Sum256 scenario.quotes 0 scenario.peer
               examples.challenge (scenario.fresh scenario.honest) in
  run = (Ok tt, snd run)
  /\ exists payload nonce,
       session.unread (scenario.fresh scenario.honest)
       = more.frame (session.request payload)
         ++ more.frame (session.solution nonce) ++ session.unread (snd run)
       /\ 0 <= nonce < 2 ^ 64
       /\ pow.Verify sha256.Sum256 examples.challenge nonce scenario.peer = true
       /\ scenario.quotes <> [].
Proof.
  intros run.
  assert (H : run = (Ok tt, snd run)) by (vm_compute; reflexivity).
  split; [exact H|].
  exact (handleChallengeResponse_sound sha256.Sum256 scenario.quotes 0 scenario.peer
           examples.challenge (scenario.fresh scenario.honest) (snd run) H).
Defined.

Lemma handleChallengeResponse_serves_witness :
  pow.Verify sha256.Sum256 examples.challenge 290 scenario.peer = true
  /\ handler.handleChallengeResponse sha256.Sum256 scenario.quotes 0 scenario.peer
       examples.challenge (scenario.fresh scenario.honest)
     = (Ok tt,
        session.connection [] ([] ++ more.payload_buffer [] ++ [8%nat])
          ([] ++ more.frame (session.challenge_response examples.challenge scenario.peer)
              ++ more.frame (session.quote "only quote"))).
Proof.
  assert (Hv : pow.Verify sha256.Sum256 examples.challenge 290 scenario.peer = true)
    by (vm_compute; reflexivity).
  split; [exact Hv|].
  refine (handleChallengeResponse_serves sha256.Sum256 scenario.quotes 0 scenario.peer
            examples.challenge [] 290 [] [] [] _ _ Hv _ _ _).
  - vm_compute. discriminate.
  - lia.
  - vm_compute. split; [discriminate|reflexivity].
  - vm_compute. reflexivity.
  - vm_compute. reflexivity.
Defined.

Lemma handleChallengeResponse_failure_witness :
  let run := handler.handleChallengeResponse sha256.Sum256 scenario.quotes 0 scenario.peer
               examples.challenge (scenario.fresh scenario.cheat) in
  run = (Err "invalid PoW solution"%string, snd run)
  /\ exists reply,
       session.sent (snd run) = [] ++ reply
       /\ In reply
            [ [];
              more.frame (session.error 1 "Expected challenge request");
              more.frame (session.challenge_response examples.challenge scenario.peer);
              more.frame (session.challenge_response examples.challenge scenario.peer)
                ++ more.frame (session.error 1 "Expected solution");
              more.frame (session.challenge_response examples.challenge scenario.peer)
                ++ more.frame (session.error 2 "Invalid solution");
              more.frame (session.challenge_response examples.challenge scenario.peer)
                ++ more.frame (session.error 5 "No quotes available") ].
Proof.
  intros run.
  assert (H : run = (Err "invalid PoW solution"%string, snd run)) by (vm_compute; reflexivity).
  split; [exact H|].
  refine (handleChallengeResponse_failure sha256.Sum256 scenario.quotes 0 scenario.peer
            examples.challenge scenario.cheat [] [] _ (snd run) _ H).
  vm_compute. reflexivity.
Defined.

Lemma handleChallengeResponse_invalid_solution_witness :
  pow.Verify sha256.Sum256 examples.challenge 0 scenario.peer = false
  /\ handler.handleChallengeResponse sha256.Sum256 scenario.quotes 0 scenario.peer
       examples.challenge (scenario.fresh scenario.cheat)
     = (Err "invalid PoW solution"%string,
        session.connection [] ([] ++ more.payload_buffer [] ++ [8%nat])
          ([] ++ more.frame (session.challenge_response examples.challenge scenario.peer)
              ++ more.frame (session.error 2 "Invalid solution"))).
Proof.
  assert (Hv : pow.Verify sha256.Sum256 examples.challenge 0 scenario.peer = false)
    by (vm_compute; reflexivity).
  split; [exact Hv|].
  refine (handleChallengeResponse_invalid_solution sha256.Sum256 scenario.quotes 0
            scenario.peer examples.challenge [] 0 [] [] [] _ _ Hv _).
  - vm_compute. discriminate.
  - lia.
  - vm_compute. reflexivity.
Defined.

Lemma handleChallengeResponse_unexpected_first_witness :
  Type_ (session.solution 0) <> MessageTypeChallengeRequest
  /\ handler.handleChallengeResponse sha256.Sum256 scenario.quotes 0 scenario.peer
       examples.challenge
       (session.connection (more.frame (session.solution 0) ++ []) [] [])
     = (Err "unexpected message type: 3"%string,
        session.connection [] ([] ++ more.payload_buffer (Payload (session.solution 0)))
          ([] ++ more.frame (session.error 1 "Expected challenge request"))).
Proof.
  assert (Ht : Type_ (session.solution 0) <> MessageTypeChallengeRequest) by discriminate.
  split; [exact Ht|].
  refine (handleChallengeResponse_unexpected_first sha256.Sum256 scenario.quotes 0
            scenario.peer examples.challenge (session.solution 0) [] [] [] _ Ht).
  vm_compute. discriminate.
Defined.

Lemma handleChallengeResponse_malformed_solution_witness :
  (len ["000"%byte] <= 1048576 /\ len ["000"%byte] <> 8)
  /\ session.sent
       (snd (handler.handleChallengeResponse sha256.Sum256 scenario.quotes 0 scenario.peer
               examples.challenge (scenario.fresh scenario.short_solution)))
     = [] ++ more.frame (session.challenge_response examples.challenge scenario.peer).
Proof.
  assert (Hb : len ["000"%byte] <= 1048576 /\ len ["000"%byte] <> 8)
    by (split; vm_compute; discriminate).
  split; [exact Hb|].
  unfold scenario.fresh, scenario.short_solution.
  rewrite (handleChallengeResponse_malformed_solution sha256.Sum256 scenario.quotes 0
             scenario.peer examples.challenge [] ["000"%byte] [] [] []).
  - reflexivity.
  - vm_compute. discriminate.
  - exact Hb.
  - vm_compute. reflexivity.
Defined.

Lemma handleConnection_rate_limited_witness :
  fst (server.Allow 3 "192.168.1.1" examples.full_limiter) = false
  /\ handler.handleConnection sha256.Sum256 scenario.quotes 0 8 3
       (Ok (pow.Data examples.challenge)) 1700000000 "192.168.1.1" examples.full_limiter
       (scenario.fresh scenario.honest)
     = (snd (server.Allow 3 "192.168.1.1" examples.full_limiter),
        session.connection scenario.honest []
          ([] ++ more.frame (session.error 3 "Rate limit exceeded"))).
Proof.
  assert (Hd : fst (server.Allow 3 "192.168.1.1" examples.full_limiter) = false)
    by (vm_compute; reflexivity).
  split; [exact Hd|].
  exact (handleConnection_rate_limited sha256.Sum256 scenario.quotes 0 8 3
           (Ok (pow.Data examples.challenge)) 1700000000 "192.168.1.1" examples.full_limiter
           scenario.honest [] [] Hd).
Defined.

End HandlerExamples.

(** ** The client, and a whole session *)

Section Client.
Local Open Scope Z_scope.
Import protocol codec.

Lemma try_Ok {A} (text : string) (m : se.M conn.t A) (k : A -> client.step)
    (c c' : conn.t) (a : A) :
  m c = (Ok a, c') -> client.try text m k c = k a c'.
Proof. intros H. unfold client.try. now rewrite H. Qed.

Lemma quote_payload_text (text : string) :
  DecodeQuote (Payload (session.quote text)) = Ok {| Text := text |}.
Proof.
  unfold session.quote, EncodeQuote, DecodeQuote. cbn [Payload session.payload_of Text].
  now rewrite string_of_list_byte_of_string.
Qed.

Lemma challenge_response_decodes (challenge : pow.Challenge) (clientIP : string) :
  0 <= pow.Difficulty challenge <= 255 -> spec.is_int64 (pow.Timestamp challenge) ->
  length (pow.Data challenge) = 32%nat ->
  DecodeChallengeResponse (Payload (session.challenge_response challenge clientIP))
  = Ok {| Difficulty := pow.Difficulty challenge;
          Timestamp := pow.Timestamp challenge;
          RandomData := pow.Data challenge;
          ClientIP := clientIP |}.
Proof.
  intros Hd Ht Hr.
  pose proof (ChallengeResponse_round_trip
                {| Difficulty := pow.Difficulty challenge;
                   Timestamp := pow.Timestamp challenge;
                   RandomData := pow.Data challenge;
                   ClientIP := clientIP |} Hd Ht Hr) as H.
  unfold spec.round_trip in H. unfold session.challenge_response. cbn [Payload].
  destruct (EncodeChallengeResponse _) as [buf|e]; [exact H|discriminate H].
Qed.

Variable Sum256 : list byte -> list byte.

Lemma Solve_nonce (challenge : pow.Challenge) (nonce : Z) :
  pow.Solve Sum256 challenge = (nonce, None) ->
  0 <= nonce < 2 ^ 64
  /\ pow.Verify Sum256 challenge nonce (pow.ClientIP challenge) = true.
Proof.
  unfold pow.Solve. intros H.
  destruct (range_loop_cases Sum256 challenge (Z.to_nat pow.MaxUint64) 0)
    as [[Hrun _]|(n & Hrun & Hn & Hok & _)]; rewrite H in Hrun; [discriminate Hrun|].
  injection Hrun as ->. rewrite Z2Nat.id in Hn by (unfold pow.MaxUint64; lia).
  split; [unfold pow.MaxUint64 in Hn; lia|].
  apply Verify_true. split; [reflexivity|exact Hok].
Qed.

(** The client's side of the honest session: it sends the request, solves
    the challenge it is given and sends the nonce, and returns the text of
    the quote it is sent. *)
Lemma GetQuote_honest (challenge : pow.Challenge) (nonce : Z) (text : string)
    (rest : list byte) (made0 : list nat) (out : list byte) :
  0 <= pow.Difficulty challenge <= 255 -> spec.is_int64 (pow.Timestamp challenge) ->
  length (pow.Data challenge) = 32%nat ->
  pow.Solve Sum256 challenge = (nonce, None) ->
  len (Payload (session.challenge_response challenge (pow.ClientIP challenge))) <= 1048576 ->
  len (Payload (session.quote text)) <= 1048576 ->
  client.GetQuote Sum256 (Ok tt)
    (session.connection
       (more.frame (session.challenge_response challenge (pow.ClientIP challenge))
        ++ more.frame (session.quote text) ++ rest) made0 out)
  = (client.Got text,
     session.connection rest
       (made0
        ++ more.payload_buffer
             (Payload (session.challenge_response challenge (pow.ClientIP challenge)))
        ++ more.payload_buffer (Payload (session.quote text)))
       (out ++ more.frame (session.request []) ++ more.frame (session.solution nonce))).
Proof.
  intros Hd Ht Hr Hsolve Hfit1 Hfit2.
  destruct (Solve_nonce challenge nonce Hsolve) as [Hnonce _].
  unfold client.GetQuote.
  erewrite try_Ok by (apply writing_frame; vm_compute; reflexivity).
  erewrite try_Ok by (apply reading_frame; exact Hfit1).
  cbn [Type_ session.challenge_response].
  change (client.type_is MessageTypeChallengeResponse MessageTypeError) with false.
  change (handler.type_differs MessageTypeChallengeResponse MessageTypeChallengeResponse)
    with false.
  cbv iota.
  erewrite try_Ok
    by (unfold client.pure; rewrite (challenge_response_decodes challenge _ Hd Ht Hr);
        reflexivity).
  cbn [Difficulty Timestamp RandomData ClientIP].
  replace {| pow.Data := pow.Data challenge; pow.Timestamp := pow.Timestamp challenge;
             pow.ClientIP := pow.ClientIP challenge;
             pow.Difficulty := pow.Difficulty challenge |}
    with challenge by (now destruct challenge).
  erewrite try_Ok by (unfold client.pure, client.solve; rewrite Hsolve; reflexivity).
  change (EncodeSolution {| Nonce := nonce |}) with (Ok (Payload (session.solution nonce))).
  erewrite try_Ok by (unfold client.pure; reflexivity).
  erewrite try_Ok
    by (apply writing_frame; cbn [Payload]; rewrite solution_payload_length; lia).
  erewrite try_Ok by (apply reading_frame; exact Hfit2).
  cbn [Type_ session.quote].
  change (client.type_is MessageTypeQuote MessageTypeError) with false.
  change (handler.type_differs MessageTypeQuote MessageTypeQuote) with false.
  cbv iota.
  erewrite try_Ok by (unfold client.pure; rewrite (quote_payload_text text); reflexivity).
  unfold client.done. cbn [Text]. f_equal. unfold session.connection. f_equal.
  - f_equal. now rewrite <- app_assoc.
  - f_equal. now rewrite <- app_assoc.
Qed.

Variable quotes : list string.
Variable draw : Z.

(** The handler's side of the honest session. *)
Lemma handleChallengeResponse_honest (clientIP : string) (challenge : pow.Challenge)
    (payload : list byte) (nonce : Z) (rest : list byte) (made0 : list nat) (out : list byte)
    (Hrequest : len payload <= 1048576)
    (Hnonce : 0 <= nonce < 2 ^ 64)
    (Hverify : pow.Verify Sum256 challenge nonce clientIP = true)
    (Hdraw : 0 <= draw < len quotes)
    (Hfit1 : len (Payload (session.challenge_response challenge clientIP)) < 2 ^ 32)
    (Hfit2 : len (Payload (session.quote (nth (Z.to_nat draw) quotes EmptyString))) < 2 ^ 32) :
  handler.handleChallengeResponse Sum256 quotes draw clientIP challenge
    (session.connection
       (more.frame (session.request payload) ++ more.frame (session.solution nonce) ++ rest)
       made0 out)
  = (Ok tt,
     session.connection rest (made0 ++ more.payload_buffer payload ++ [8%nat])
       (out ++ more.frame (session.challenge_response challenge clientIP)
            ++ more.frame (session.quote (nth (Z.to_nat draw) quotes EmptyString)))).
Proof.
  unfold handler.handleChallengeResponse.
  erewrite bind_step by (apply wrap_Ok, reading_frame; exact Hrequest).
  cbn [Type_ Payload session.request].
  replace (handler.type_differs MessageTypeChallengeRequest MessageTypeChallengeRequest)
    with false by (symmetry; now apply type_differs_false).
  unfold session.challenge_response in *.
  destruct (EncodeChallengeResponse _) as [buf|e] eqn:E;
    [|unfold EncodeChallengeResponse in E; discriminate E].
  cbn [session.payload_of Payload] in *.
  erewrite bind_step by (apply wrap_Ok, writing_frame; exact Hfit1).
  assert (Hsol : len (Payload (session.solution nonce)) <= 1048576)
    by (rewrite solution_payload_length; lia).
  erewrite bind_step by (apply wrap_Ok, reading_frame; exact Hsol).
  cbn [Type_ session.solution].
  replace (handler.type_differs MessageTypeSolution MessageTypeSolution)
    with false by (symmetry; now apply type_differs_false).
  fold (session.solution nonce). rewrite (solution_decodes nonce Hnonce). cbn [Nonce].
  rewrite Hverify. cbn [negb].
  unfold quotes.GetRandom.
  destruct (Z.eqb_spec (len quotes) 0) as [Hz|_]; [lia|].
  unfold session.quote in *. unfold EncodeQuote in *. cbn [session.payload_of Payload Text] in *.
  rewrite writing_frame by exact Hfit2.
  f_equal. unfold session.connection. f_equal.
  - f_equal. now rewrite <- app_assoc.
  - f_equal. now rewrite <- app_assoc.
Qed.

(** A whole session. The handler admits the peer, issues a challenge with a
    difficulty that fits the byte it travels in, and the client finds a
    nonce for it. Then each side, given what the other sends, sends what the
    other was given: the client sends the request and the solution and
    returns the quote that was drawn; the server sends the challenge and
    that quote, and reads all the client sent. *)
Theorem honest_session (PoWDifficulty now unix : Z) (data : list byte) (clientIP : string)
    (rl : server.RateLimiter) (nonce : Z)
    (Hallow : fst (server.Allow now clientIP rl) = true)
    (Hdifficulty : 0 <= PoWDifficulty <= 255)
    (Hunix : spec.is_int64 unix)
    (Hdata : length data = 32%nat)
    (Hsolve : pow.Solve Sum256 (session.issued data unix clientIP PoWDifficulty)
              = (nonce, None))
    (Hdraw : 0 <= draw < len quotes)
    (Hfit1 : len (Payload (session.challenge_response
                             (session.issued data unix clientIP PoWDifficulty) clientIP))
             <= 1048576)
    (Hfit2 : len (Payload (session.quote (nth (Z.to_nat draw) quotes EmptyString)))
             <= 1048576) :
  let challenge := session.issued data unix clientIP PoWDifficulty in
  let text := nth (Z.to_nat draw) quotes EmptyString in
  let served :=
    handler.handleConnection Sum256 quotes draw PoWDifficulty now (Ok data) unix clientIP rl
      (session.connection (session.from_client nonce) [] []) in
  let got :=
    client.GetQuote Sum256 (Ok tt)
      (session.connection (session.from_server challenge text) [] []) in
  fst served = snd (server.Allow now clientIP rl)
  /\ session.sent (snd served) = session.from_server challenge text
  /\ session.unread (snd served) = []
  /\ fst got = client.Got text
  /\ session.sent (snd got) = session.from_client nonce
  /\ session.unread (snd got) = [].
Proof.
  intros challenge text served got.
  destruct (Solve_nonce challenge nonce Hsolve) as [Hnonce Hverify].
  assert (Hrequest : len (@nil byte) <= 1048576) by (unfold len; simpl; lia).
  assert (Hserved : served
            = (snd (server.Allow now clientIP rl),
               session.connection [] ([] ++ more.payload_buffer [] ++ [8%nat])
                 ([] ++ more.frame (session.challenge_response challenge clientIP)
                     ++ more.frame (session.quote text)))).
  { subst served. unfold handler.handleConnection.
    destruct (server.Allow now clientIP rl) as [allowed rl']. cbn [fst snd] in *.
    subst allowed. cbn [negb].
    change (powgen.GenerateChallenge (Ok data) unix clientIP PoWDifficulty)
      with (Ok challenge). cbv iota.
    unfold session.from_client.
    rewrite (handleChallengeResponse_honest clientIP challenge [] nonce [] [] []
               Hrequest Hnonce Hverify Hdraw); [reflexivity| |].
    - eapply Z.le_lt_trans; [exact Hfit1|lia].
    - eapply Z.le_lt_trans; [exact Hfit2|lia]. }
  assert (Hgot : got
            = (client.Got text,
               session.connection []
                 ([] ++ more.payload_buffer
                          (Payload (session.challenge_response challenge
                                      (pow.ClientIP challenge)))
                     ++ more.payload_buffer (Payload (session.quote text)))
                 ([] ++ more.frame (session.request [])
                     ++ more.frame (session.solution nonce)))).
  { subst got. unfold session.from_server.
    apply (GetQuote_honest challenge nonce text [] [] []); assumption. }
  rewrite Hserved, Hgot. cbn [fst snd session.sent session.unread session.connection
    conn.inbound conn.outbound writer.written io.stream].
  unfold session.from_server, session.from_client. rewrite !app_nil_r. cbn [app].
  repeat split; reflexivity.
Qed.

(** A server that answers with an error message. The client returns the
    server's message as its error when the payload holds at least the two
    bytes of the code; on a shorter payload [DecodeError] gives no message
    and the client stops in a run-time panic. Either way it has sent its
    request and nothing more. *)
Theorem GetQuote_error_reply (payload rest : list byte) (made0 : list nat) (out : list byte)
    (Hlen : len payload <= 1048576) :
  let got :=
    client.GetQuote Sum256 (Ok tt)
      (session.connection
         (more.frame {| Type_ := MessageTypeError; Payload := payload |} ++ rest) made0 out) in
  (2 <= len payload ->
     fst got = client.Failed
                 (fmt.Errorf "server error: %s"
                    [fmt.ArgString (string_of_list_byte (skipn 2 payload))]))
  /\ (len payload < 2 ->
        fst got = client.Panicked
                    "runtime error: invalid memory address or nil pointer dereference")
  /\ session.sent (snd got) = out ++ more.frame (session.request [])
  /\ session.unread (snd got) = rest.
Proof.
  intros got. subst got. unfold client.GetQuote.
  erewrite try_Ok by (apply writing_frame; vm_compute; reflexivity).
  erewrite try_Ok by (apply reading_frame; exact Hlen).
  cbn [Type_ Payload].
  change (client.type_is MessageTypeError MessageTypeError) with true. cbv iota.
  unfold client.done, client.server_error, DecodeError. cbn [fst snd].
  split; [|split; [|split; reflexivity]].
  - intros H. destruct (Z.ltb_spec (len payload) 2) as [|_]; [lia|]. cbn [Message_].
    destruct (Z.ltb_spec 2 (len payload)) as [|Hle]; [reflexivity|].
    assert (E : skipn 2 payload = []) by (apply skipn_all2; unfold len in *; lia).
    now rewrite E.
  - intros H. destruct (Z.ltb_spec (len payload) 2) as [|]; [reflexivity|lia].
Qed.

End Client.

Section ClientExamples.
Local Open Scope Z_scope.
Import protocol.

Lemma honest_session_witness :
  pow.Solve sha256.Sum256
    (session.issued (pow.Data examples.challenge) 1700000000 scenario.peer 8) = (290, None)
  /\ fst (client.GetQuote sha256.Sum256 (Ok tt)
            (session.connection
               (session.from_server
                  (session.issued (pow.Data examples.challenge) 1700000000 scenario.peer 8)
                  "only quote") [] []))
     = client.Got "only quote"
  /\ session.sent
       (snd (handler.handleConnection sha256.Sum256 scenario.quotes 0 8 0
               (Ok (pow.Data examples.challenge)) 1700000000 scenario.peer examples.limiter
               (session.connection (session.from_client 290) [] [])))
     = session.from_server
         (session.issued (pow.Data examples.challenge) 1700000000 scenario.peer 8)
         "only quote".
Proof.
  assert (Hs : pow.Solve sha256.Sum256
                 (session.issued (pow.Data examples.challenge) 1700000000 scenario.peer 8)
               = (290, None)) by exact Solve_sample.
  split; [exact Hs|].
  assert (Ha : fst (server.Allow 0 scenario.peer examples.limiter) = true)
    by (vm_compute; reflexivity).
  assert (Hd : 0 <= 8 <= 255) by lia.
  assert (Hu : spec.is_int64 1700000000) by (unfold spec.is_int64; lia).
  assert (Hr : length (pow.Data examples.challenge) = 32%nat) by reflexivity.
  assert (Hq : 0 <= 0 < len scenario.quotes) by (vm_compute; split; [discriminate|reflexivity]).
  assert (H1 : len (Payload (session.challenge_response
                    (session.issued (pow.Data examples.challenge) 1700000000 scenario.peer 8)
                    scenario.peer)) <= 1048576) by (vm_compute; discriminate).
  assert (H2 : len (Payload (session.quote (nth (Z.to_nat 0) scenario.quotes EmptyString)))
               <= 1048576) by (vm_compute; discriminate).
  pose proof (honest_session sha256.Sum256 scenario.quotes 0 8 0 1700000000
                (pow.Data examples.challenge) scenario.peer examples.limiter 290
                Ha Hd Hu Hr Hs Hq H1 H2) as H.
  cbv zeta in H. destruct H as (_ & Hsent & _ & Hgot & _).
  split; [exact Hgot|exact Hsent].
Defined.

Lemma GetQuote_error_reply_witness :
  len (@nil byte) <= 1048576
  /\ fst (client.GetQuote sha256.Sum256 (Ok tt)
            (session.connection
               (more.frame {| Type_ := MessageTypeError; Payload := [] |} ++ []) [] []))
     = client.Panicked "runtime error: invalid memory address or nil pointer dereference".
Proof.
  assert (Hl : len (@nil byte) <= 1048576) by (vm_compute; discriminate).
  split; [exact Hl|].
  pose proof (GetQuote_error_reply sha256.Sum256 [] [] [] [] Hl) as H.
  cbv zeta in H. destruct H as (_ & Hpanic & _).
  apply Hpanic. vm_compute. reflexivity.
Defined.

End ClientExamples.
